(** * SunSeat: sun-exposure scoring and shadow occlusion

    A shallow embedding of the scoring core of the SunSeat back end:
    - the shade module (imported as [./src/services/shade.js]; its text
      is in [src/index.js], lines 659 to 754): [toDeg], [toRad],
      [angleDiffDeg], [bearingDeg], [distanceMeters], [getSunAngles] and
      [isShadedByBuildings];
    - the scorer (imported as [./src/services/sun.js]; its text is in
      [src/src/services/meteo.js], lines 20 to 52): [sunScore];
    - the callback of [places.map] in the [/api/terraces/nearby] handler
      ([src/index.js], lines 546 to 617): the shade-aware score and the
      forecast of one terrace.

    JavaScript numbers have two models here.  In the first they are
    exact real numbers: every finite number is a real, [NaN] and the
    infinities are not represented, the rounding of the IEEE-754
    operations is not modelled, and the functions of [Math] are given
    their mathematical definitions.  Bounds, orders and the structure of
    the results are stated over it.  In the second (modules [F64] and
    [Dbl]) they are IEEE-754 binary64 numbers with correctly rounded
    operations; the functions that use nothing but arithmetic, [%],
    [Math.abs], [Math.min], [Math.max] and [Math.round] are embedded over
    it too, and what depends on the rounding of an operation, or on
    [NaN], is stated there. *)

From Stdlib Require Import Reals Lra Lia ZArith List String Bool.
From Stdlib Require Import Permutation Sorted.
From Stdlib Require Import SpecFloat.
Import ListNotations.

Open Scope R_scope.

(** ** The JavaScript numeric primitives used by the sources *)

Module JS.

(** [Math.floor]: the greatest integer below the argument. *)
Definition Math_floor (x : R) : R := IZR (Int_part x).

(** Truncation towards zero, the quotient of the [%] operator. *)
Definition trunc (x : R) : R :=
  if Rle_dec 0 x then Math_floor x else - Math_floor (- x).

(** The [%] operator on numbers: the remainder has the sign of the
    dividend, [x % y = x - y * trunc (x / y)]. *)
Definition rem (x y : R) : R := x - y * trunc (x / y).

(** [Math.round]: nearest integer, halves rounded towards +infinity. *)
Definition Math_round (x : R) : R := Math_floor (x + / 2).

Definition Math_abs (x : R) : R := Rabs x.
Definition Math_min (x y : R) : R := Rmin x y.
Definition Math_max (x y : R) : R := Rmax x y.

(** [Math.hypot] with two arguments. *)
Definition Math_hypot (x y : R) : R := sqrt (x * x + y * y).

(** [Math.atan2 (y, x)]: the angle of the point [(x, y)], in (-PI, PI]. *)
Definition Math_atan2 (y x : R) : R :=
  if Rlt_dec 0 x then atan (y / x)
  else if Rlt_dec x 0 then
    (if Rle_dec 0 y then atan (y / x) + PI else atan (y / x) - PI)
  else if Rlt_dec 0 y then PI / 2
  else if Rlt_dec y 0 then - (PI / 2)
  else 0.

(** [x || 0] on a number: zero is the only falsy real. *)
Definition or0 (x : R) : R := if Req_dec_T x 0 then 0 else x.

End JS.

Infix "%%" := JS.rem (at level 40, left associativity) : R_scope.

(** ** The shade module: angular and geodesic helpers *)

Definition RAD : R := 180 / PI.

Definition toDeg (rad : R) : R := rad * RAD.
Definition toRad (deg : R) : R := deg / RAD.

Definition angleDiffDeg (a b : R) : R :=
  JS.Math_abs (((a - b + 540) %% 360) - 180).

(** The scorer's own circular difference, written inline in [sunScore]. *)
Definition sunScore_diff (az orientationDeg : R) : R :=
  JS.Math_min (JS.Math_abs (az - orientationDeg))
              (360 - JS.Math_abs (az - orientationDeg)).

(** ** The ephemeris: [SunCalc.getPosition]

    SunCalc is an external library.  Its result is a pair of angles in
    radians: the azimuth measured from the south, positive towards the
    west, and the altitude above the horizon.  A date is its time value
    in milliseconds. *)

Definition Date : Type := Z.

Record SunPos : Type := { azimuth : R; altitude : R }.

Definition Ephemeris : Type := Date -> R -> R -> SunPos.

(** ** The shade module: data *)

Record LatLon : Type := { lat : R; lon : R }.

Record Building : Type :=
  { id : Z; height_m : R; centroid : LatLon }.

Record SunAngles : Type := { azimuthDeg : R; altitudeDeg : R }.

Record Opts : Type := { maxDist : R; azTolerance : R }.

Record Shade : Type :=
  { shaded : bool; confidence : R; culprit : option Building }.

Definition bearingDeg (lat1 lon1 lat2 lon2 : R) : R :=
  let phi1 := toRad lat1 in
  let phi2 := toRad lat2 in
  let lam1 := toRad lon1 in
  let lam2 := toRad lon2 in
  let y := sin (lam2 - lam1) * cos phi2 in
  let x := cos phi1 * sin phi2 - sin phi1 * cos phi2 * cos (lam2 - lam1) in
  (toDeg (JS.Math_atan2 y x) + 360) %% 360.

Definition distanceMeters (lat1 lon1 lat2 lon2 : R) : R :=
  let latm := (lat1 + lat2) / 2 in
  let mPerDegLat := 111132 in
  let mPerDegLon := 111320 * cos (toRad latm) in
  let dy := (lat2 - lat1) * mPerDegLat in
  let dx := (lon2 - lon1) * mPerDegLon in
  JS.Math_hypot dx dy.

(** The default value of the [opts] parameter, which is also what the
    request handler passes. *)
Definition defaultOpts : Opts := {| maxDist := 80; azTolerance := 25 |}.

(** The quantities the loop of [isShadedByBuildings] computes for one
    building [b]. *)
Definition azUpSun (sun : SunAngles) : R := (azimuthDeg sun + 180) %% 360.

Definition distTo (terrace : LatLon) (b : Building) : R :=
  distanceMeters (lat terrace) (lon terrace)
                 (lat (centroid b)) (lon (centroid b)).

Definition deltaTo (terrace : LatLon) (sun : SunAngles) (b : Building) : R :=
  angleDiffDeg
    (bearingDeg (lat terrace) (lon terrace)
                (lat (centroid b)) (lon (centroid b)))
    (azUpSun sun).

Definition elevOf (terrace : LatLon) (b : Building) : R :=
  toDeg (JS.Math_atan2 (JS.or0 (height_m b)) (distTo terrace b)).

Definition noShade : Shade :=
  {| shaded := false; confidence := 0; culprit := None |}.

(** One iteration of the [for (const b of buildings)] loop: [best] is the
    loop variable, each [continue] leaves it unchanged.  The division by
    [azTolerance] is the division of the reals; the results below that
    depend on it assume a positive tolerance. *)
Definition shadeStep (terrace : LatLon) (sun : SunAngles) (opts : Opts)
    (best : Shade) (b : Building) : Shade :=
  let alt := altitudeDeg sun in
  let d := distTo terrace b in
  if Rgt_dec d (maxDist opts) then best
  else
    let delta := deltaTo terrace sun b in
    if Rgt_dec delta (azTolerance opts) then best
    else
      let elev := elevOf terrace b in
      if Rge_dec elev alt then
        let conf :=
          JS.Math_min 1
            (((elev - alt) / 10) * (1 - delta / azTolerance opts)) in
        if Rgt_dec conf (confidence best)
        then {| shaded := true; confidence := conf; culprit := Some b |}
        else best
      else best.

Definition isShadedByBuildings (terrace : LatLon) (sun : SunAngles)
    (buildings : list Building) (opts : Opts) : Shade :=
  fold_left (shadeStep terrace sun opts) buildings noShade.

(** ** Code that calls the ephemeris *)

Section WithEphemeris.

Variable getPosition : Ephemeris.

(** The shade module: [getSunAngles]. *)
Definition getSunAngles (date : Date) (lat lon : R) : SunAngles :=
  let pos := getPosition date lat lon in
  {| azimuthDeg := (toDeg (azimuth pos) + 180 + 360) %% 360;
     altitudeDeg := toDeg (altitude pos) |}.

(** The scorer: the constants [az] and [alt] of [sunScore]. *)
Definition sunScore_az (pos : SunPos) : R :=
  ((azimuth pos * 180) / PI + 180) %% 360.

Definition sunScore_alt (pos : SunPos) : R :=
  (altitude pos * 180) / PI.

(** [sunScore].  The argument object is passed field by field; every
    caller supplies [date].  [cloudFraction] is [Some c] when its
    [typeof] is ["number"] and [None] otherwise. *)
Definition sunScore (lat lon orientationDeg : R) (streetWidth : string)
    (date : Date) (cloudFraction : option R) : R :=
  let pos := getPosition date lat lon in
  let az := sunScore_az pos in
  let alt := sunScore_alt pos in
  let diff := sunScore_diff az orientationDeg in
  let score := 0 in
  let score :=
    if Rlt_dec diff 45 then score + 55
    else if Rlt_dec diff 90 then score + 35
    else score + 10 in
  let score :=
    if Rlt_dec alt 8 then score - 30
    else if Rlt_dec alt 15 then score - 15
    else score + 10 in
  let score :=
    if Rlt_dec alt 20 then
      if (streetWidth =? "narrow")%string then score - 15
      else if (streetWidth =? "medium")%string then score - 5
      else score
    else score in
  let score :=
    match cloudFraction with
    | Some c => score * (1 - 0.6 * c)
    | None => score
    end in
  JS.Math_max 0 (JS.Math_min 100 (JS.Math_round score)).

(** The handler: the fields of a place that the scoring reads. *)
Record Place : Type :=
  { place_lat : R;
    place_lon : R;
    place_orientationDeg : R;
    place_streetWidth : string }.

Record ForecastPoint : Type := { tmin : Z; score : R }.

Record Item : Type :=
  { item_sunScore : R; item_forecast : option (list ForecastPoint) }.

(** The offsets of the forecast, in minutes. *)
Definition forecastOffsets : list Z := [0; 15; 30; 45; 60; 90; 120]%Z.

(** The callback of [places.map] in the [/api/terraces/nearby] handler,
    restricted to the score and the forecast of the item it builds.
    [score0] is the constant [score] of the callback, [forecast] the flag
    of the query. *)
Definition nearbyItem (buildings : list Building)
    (cloudFraction : option R) (now : Date) (forecast : bool)
    (p : Place) : Item :=
  let scoreRaw :=
    sunScore (place_lat p) (place_lon p) (place_orientationDeg p)
             (place_streetWidth p) now cloudFraction in
  let sunNow := getSunAngles now (place_lat p) (place_lon p) in
  let shade :=
    isShadedByBuildings {| lat := place_lat p; lon := place_lon p |}
      sunNow buildings {| maxDist := 80; azTolerance := 25 |} in
  let shadeFactor :=
    if shaded shade then 0.4 - 0.2 * JS.or0 (confidence shade) else 1 in
  let score0 :=
    JS.Math_max 0 (JS.Math_min 100 (JS.Math_round (scoreRaw * shadeFactor))) in
  {| item_sunScore := score0;
     item_forecast :=
       if forecast then
         Some (map
           (fun min : Z =>
              let d : Date := (now + min * 60000)%Z in
              let raw :=
                sunScore (place_lat p) (place_lon p)
                         (place_orientationDeg p) (place_streetWidth p)
                         d cloudFraction in
              let sunT := getSunAngles d (place_lat p) (place_lon p) in
              let shadeT :=
                isShadedByBuildings
                  {| lat := place_lat p; lon := place_lon p |}
                  sunT buildings {| maxDist := 80; azTolerance := 25 |} in
              let factorT :=
                if shaded shadeT
                then 0.4 - 0.2 * JS.or0 (confidence shadeT)
                else 1 in
              let final :=
                JS.Math_max 0
                  (JS.Math_min 100 (JS.Math_round (raw * factorT))) in
              {| tmin := min; score := final |})
           forecastOffsets)
       else None |}.

End WithEphemeris.

(** ** Reference definitions, written after the specification

    These follow the words of the specification and are compared with
    the code above. *)

Module Spec.

(** "Minimal absolute difference between two bearings on a circular
    domain": the distance from [a - b] to the nearest multiple of 360. *)
Definition angularDifference (a b : R) : R :=
  let r := (a - b) - 360 * JS.Math_floor ((a - b) / 360) in
  Rmin r (360 - r).

Definition clamp (x lo hi : R) : R := Rmax lo (Rmin hi x).

(** "Rounded to the nearest integer". *)
Definition round (x : R) : R := JS.Math_round x.

(** Section 4.3, steps 1 to 7. *)
Definition exposureScore (getPosition : Ephemeris)
    (lat lon orientationDeg : R)
    (streetWidth : string) (date : Date) (cloudFraction : option R) : R :=
  let sun := getSunAngles getPosition date lat lon in
  let diff := angularDifference (azimuthDeg sun) orientationDeg in
  let base :=
    if Rlt_dec diff 45 then 55 else if Rlt_dec diff 90 then 35 else 10 in
  let altitudeAdj :=
    if Rlt_dec (altitudeDeg sun) 8 then -30
    else if Rlt_dec (altitudeDeg sun) 15 then -15
    else 10 in
  let street :=
    if Rlt_dec (altitudeDeg sun) 20 then
      if (streetWidth =? "narrow")%string then -15
      else if (streetWidth =? "medium")%string then -5
      else 0
    else 0 in
  let attenuation :=
    match cloudFraction with
    | Some c => 1 - 0.6 * c
    | None => 1
    end in
  round (clamp ((base + altitudeAdj + street) * attenuation) 0 100).

(** Section 4.5: "shaded -> 0.4 - 0.2 x confidence, else 1". *)
Definition shadeFactor (s : Shade) : R :=
  if shaded s then 0.4 - 0.2 * confidence s else 1.


End Spec.

(** ** Auxiliary definitions of the proofs *)

(** What the code does last: round, then clamp to [0,100]. *)
Definition roundClamp (x : R) : R :=
  JS.Math_max 0 (JS.Math_min 100 (JS.Math_round x)).

(** The three additive bands of [sunScore], from its local values. *)
Definition bands (diff alt : R) (streetWidth : string) : R :=
  (if Rlt_dec diff 45 then 55 else if Rlt_dec diff 90 then 35 else 10)
  + (if Rlt_dec alt 8 then -30 else if Rlt_dec alt 15 then -15 else 10)
  + (if Rlt_dec alt 20 then
       if (streetWidth =? "narrow")%string then -15
       else if (streetWidth =? "medium")%string then -5
       else 0
     else 0).

Definition attenuation (cloudFraction : option R) : R :=
  match cloudFraction with
  | Some c => 1 - 0.6 * c
  | None => 1
  end.

(** The confidence the loop computes for a building that passes its two
    filters and rises at least as high as the sun. *)
Definition confOf (terrace : LatLon) (sun : SunAngles) (opts : Opts)
    (b : Building) : R :=
  Rmin 1 (((elevOf terrace b - altitudeDeg sun) / 10)
          * (1 - deltaTo terrace sun b / azTolerance opts)).

(** A building passes the distance and azimuth filters. *)
Definition passes (terrace : LatLon) (sun : SunAngles) (opts : Opts)
    (b : Building) : Prop :=
  distTo terrace b <= maxDist opts
  /\ deltaTo terrace sun b <= azTolerance opts.

(** What holds of the running best of the loop after any prefix [bs] of
  the list: it is the initial value or the record of a building of the
  prefix, and no building of the prefix has a greater confidence. *)
Definition bestOf (terrace : LatLon) (sun : SunAngles) (opts : Opts)
  (bs : list Building) (r : Shade) : Prop :=
  (r = noShade
   \/ exists c, In c bs /\ passes terrace sun opts c
                /\ elevOf terrace c >= altitudeDeg sun
                /\ confOf terrace sun opts c > 0
                /\ r = {| shaded := true;
                          confidence := confOf terrace sun opts c;
                          culprit := Some c |})
  /\ 0 <= confidence r
  /\ forall b, In b bs -> passes terrace sun opts b ->
               elevOf terrace b >= altitudeDeg sun ->
               confOf terrace sun opts b <= confidence r.

(** ** Test data *)

(** An ephemeris that always answers with the same position. *)
Definition fixedSun (az alt : R) : Ephemeris :=
  fun _ _ _ => {| azimuth := az; altitude := alt |}.

(** ** A terrace in Paris and buildings due north of it *)

Definition paris : LatLon := {| lat := 48.8566; lon := 2.3522 |}.

(** A building of height [h] whose centroid is 0.0005 degrees of latitude
    (55.566 m) north of [paris]. *)
Definition northBuilding (h : R) : Building :=
  {| id := 1; height_m := h;
     centroid := {| lat := 48.8571; lon := 2.3522 |} |}.

(** A tower one degree of latitude (111 km) north of [paris]. *)
Definition farTower : Building :=
  {| id := 2; height_m := 300;
     centroid := {| lat := 49.8566; lon := 2.3522 |} |}.

(** The sun due south on the horizon. *)
Definition sunSouthHorizon : SunAngles :=
  {| azimuthDeg := 180; altitudeDeg := 0 |}.


(** ** Further code of the sources

    The rest of this part embeds code that the scoring core is used
    with: the helpers and the data preparation of [src/index.js], the
    cloud-cover service of [src/src/services/meteo.js] and the building
    service of [src/unnamed/part_001]. *)

(** *** JavaScript values *)

(** [a || b] on numbers that may be undefined: [undefined] and 0 are
    falsy. *)
Definition orNum (a b : option R) : option R :=
  match a with
  | Some x => if Req_dec_T x 0 then b else Some x
  | None => b
  end.

(** [a || b] on strings that may be undefined: [undefined] and the empty
    string are falsy. *)
Definition orStr (a b : option string) : option string :=
  match a with
  | Some EmptyString => b
  | Some s => Some s
  | None => b
  end.

(** The tags of an OpenStreetMap element: an object whose values are
    strings; a missing key reads as [undefined]. *)
Definition Tags : Type := string -> option string.

Definition noTags : Tags := fun _ => None.

(** [tags[k] === v]. *)
Definition tagIs (tags : Tags) (k v : string) : bool :=
  match tags k with
  | Some s => (s =? v)%string
  | None => false
  end.

(** [typeof tags[k] !== "undefined"]. *)
Definition tagDefined (tags : Tags) (k : string) : bool :=
  match tags k with
  | Some _ => true
  | None => false
  end.

(** [Array.prototype.sort] with a comparator: the sort is stable, and for
    a comparator that orders the elements by a key the stable order is
    unique.  [insertBy] puts [x], which came before the elements of [l],
    in front of the first element it need not follow. *)
Fixpoint insertBy {A : Type} (cmp : A -> A -> R) (x : A) (l : list A)
    : list A :=
  match l with
  | [] => [x]
  | y :: l' =>
      if Rlt_dec 0 (cmp x y) then y :: insertBy cmp x l' else x :: y :: l'
  end.

Definition sortBy {A : Type} (cmp : A -> A -> R) (l : list A) : list A :=
  fold_right (insertBy cmp) [] l.

(** A [Map] with string keys, as a list of entries in insertion order
    without repeated keys. *)
Module JSMap.

Definition t (V : Type) : Type := list (string * V).

Fixpoint get {V : Type} (m : t V) (k : string) : option V :=
  match m with
  | [] => None
  | (k', v) :: m' => if (k' =? k)%string then Some v else get m' k
  end.

(** [set] replaces the value of a present key in place and appends a new
    key. *)
Fixpoint set {V : Type} (m : t V) (k : string) (v : V) : t V :=
  match m with
  | [] => [(k, v)]
  | (k', v') :: m' =>
      if (k' =? k)%string then (k, v) :: m' else (k', v') :: set m' k v
  end.

Definition delete {V : Type} (m : t V) (k : string) : t V :=
  filter (fun e => negb (fst e =? k)%string) m.

End JSMap.

(** *** [src/index.js]: helpers *)

Module Index.

Definition toRad (v : R) : R := (v * PI) / 180.

(** The haversine distance of the current handler, with [Math.asin]. *)
Definition calculateDistance (lat1 lon1 lat2 lon2 : R) : R :=
  let R0 := 6371000 in
  let dLat := toRad (lat2 - lat1) in
  let dLon := toRad (lon2 - lon1) in
  let a :=
    sin (dLat / 2) ^ 2
    + cos (toRad lat1) * cos (toRad lat2) * sin (dLon / 2) ^ 2 in
  2 * R0 * asin (sqrt a).


Definition clamp (n min max : R) : R := JS.Math_min max (JS.Math_max min n).

(** The orientation estimated from the identifier of the element. *)
Definition orientationOfId (id : Z) : R := (IZR id * 37) %% 360.

(** The street width estimated from the amenity. *)
Definition streetWidthOf (tags : Tags) : string :=
  let streetWidth := "medium"%string in
  let streetWidth :=
    if tagIs tags "amenity" "biergarten" then "wide"%string
    else streetWidth in
  let streetWidth :=
    if tagIs tags "amenity" "cafe" then "narrow"%string else streetWidth in
  streetWidth.

(** The terrace detection of the first version of the file (lines 111 to
    136): the confidence and the evidence accumulated from the tags. *)
Definition terraceDetection (tags : Tags) : R * list string :=
  let conf := 0 in
  let evidence := [] in
  let '(conf, evidence) :=
    if tagIs tags "outdoor_seating" "yes"
    then (conf + 0.8, evidence ++ ["osm:outdoor_seating=yes"%string])
    else (conf, evidence) in
  let '(conf, evidence) :=
    match tags "seats:outside"%string with
    | Some v =>
        (conf + 0.25, evidence ++ [("osm:seats:outside=" ++ v)%string])
    | None => (conf, evidence)
    end in
  let '(conf, evidence) :=
    if tagIs tags "terrace" "yes"
    then (JS.Math_max conf 0.7, evidence ++ ["osm:terrace=yes"%string])
    else (conf, evidence) in
  let '(conf, evidence) :=
    if tagIs tags "amenity" "biergarten"
    then (JS.Math_max conf 0.95, evidence ++ ["osm:biergarten"%string])
    else (conf, evidence) in
  let '(conf, evidence) :=
    if tagIs tags "outdoor_seating:covered" "yes"
    then (JS.Math_min 1 (conf + 0.05),
          evidence ++ ["osm:outdoor_seating:covered=yes"%string])
    else (conf, evidence) in
  (clamp conf 0 1, evidence).

Definition terraceConf (tags : Tags) : R := fst (terraceDetection tags).

(** [hasOutdoor = conf >= 0.6]. *)
Definition hasOutdoor (tags : Tags) : bool :=
  if Rge_dec (terraceConf tags) 0.6 then true else false.

End Index.

(** *** The answers of the remote services *)

(** An element of an Overpass answer: a node carries [lat] and [lon], a
    way or a relation asked with [out center] carries [center]; numbers
    read from JSON are finite.  [tags] may be absent. *)
Record Element : Type :=
  { el_id : Z;
    el_lat : option R;
    el_lon : option R;
    el_center : option LatLon;
    el_tags : option Tags }.

(** [e.tags?.[k]]. *)
Definition tagOf (e : Element) (k : string) : option string :=
  match el_tags e with
  | Some tags => tags k
  | None => None
  end.

(** The tags of an element, none when [tags] is absent. *)
Definition tagsOf (e : Element) : Tags :=
  match el_tags e with
  | Some tags => tags
  | None => noTags
  end.

(** The outcome of a request: the promise is rejected (network error,
    error status, timeout) or fulfilled with an answer. *)
Inductive Reply (A : Type) : Type :=
  | Rejected : Reply A
  | Answered : A -> Reply A.

Arguments Rejected {A}.
Arguments Answered {A} _.

(** [els.map (f).filter (...)] where [f] and the filter together keep an
    element or leave it out. *)
Fixpoint filterMap {A B : Type} (f : A -> option B) (l : list A) : list B :=
  match l with
  | [] => []
  | x :: l' =>
      match f x with
      | Some y => y :: filterMap f l'
      | None => filterMap f l'
      end
  end.

(** *** [src/index.js]: the places around a point *)

Record NearbyPlace : Type :=
  { np_id : Z;
    np_name : string;
    np_lat : R;
    np_lon : R;
    np_amenity : option string;
    np_outdoor_seating : option string;
    np_orientationDeg : R;
    np_streetWidth : string;
    np_distance_m : R;
    np_cuisine : option string;
    np_opening_hours : option string;
    np_website : option string;
    np_phone : option string }.

(** What the scoring reads of a place. *)
Definition placeOf (p : NearbyPlace) : Place :=
  {| place_lat := np_lat p;
     place_lon := np_lon p;
     place_orientationDeg := np_orientationDeg p;
     place_streetWidth := np_streetWidth p |}.

Record NearbyEntry : Type :=
  { ne_data : list NearbyPlace; ne_timestamp : Z }.

Definition CACHE_DURATION : Z := (5 * 60 * 1000)%Z.

(** The coordinates [e.lat || e.center?.lat] and [e.lon || e.center?.lon]
    of an element. *)
Definition placeLatOf (e : Element) : option R :=
  orNum (el_lat e) (option_map lat (el_center e)).

Definition placeLonOf (e : Element) : option R :=
  orNum (el_lon e) (option_map lon (el_center e)).

(** The filter and the map of [getNearbyBarsAndRestaurants] on one
    element: the element is kept when both coordinates are finite
    numbers. *)
Definition placeOfElement (lat lon : R) (e : Element) : option NearbyPlace :=
  match placeLatOf e, placeLonOf e with
  | Some placeLat, Some placeLon =>
      let distance := Index.calculateDistance lat lon placeLat placeLon in
      Some
        {| np_id := el_id e;
           np_name :=
             match orStr (orStr (tagOf e "name") (tagOf e "brand"))
                         (Some "Bar sans nom"%string) with
             | Some s => s
             | None => "Bar sans nom"%string
             end;
           np_lat := placeLat;
           np_lon := placeLon;
           np_amenity := tagOf e "amenity";
           np_outdoor_seating := tagOf e "outdoor_seating";
           np_orientationDeg := Index.orientationOfId (el_id e);
           np_streetWidth := Index.streetWidthOf (tagsOf e);
           np_distance_m := JS.Math_round distance;
           np_cuisine := tagOf e "cuisine";
           np_opening_hours := tagOf e "opening_hours";
           np_website := tagOf e "website";
           np_phone := tagOf e "phone" |}
  | _, _ => None
  end.

Definition placesOfElements (lat lon : R) (elements : list Element)
    : list NearbyPlace :=
  sortBy (fun a b => np_distance_m a - np_distance_m b)
         (filterMap (placeOfElement lat lon) elements).

(** The two places returned when the request fails; [t1] and [t2] are the
    two readings of [Date.now ()]. *)
Definition demoPlaces (lat lon : R) (t1 t2 : Z) : list NearbyPlace :=
  [ {| np_id := t1 + 1; np_name := "Le Rayon Vert";
       np_lat := lat + 0.001; np_lon := lon + 0.001;
       np_amenity := Some "bar"%string; np_outdoor_seating := None;
       np_orientationDeg := 180; np_streetWidth := "medium";
       np_distance_m := 120;
       np_cuisine := None; np_opening_hours := None;
       np_website := None; np_phone := None |};
    {| np_id := t2 + 2; np_name := "Chez Azur";
       np_lat := lat - 0.001; np_lon := lon + 0.0005;
       np_amenity := Some "restaurant"%string; np_outdoor_seating := None;
       np_orientationDeg := 220; np_streetWidth := "narrow";
       np_distance_m := 340;
       np_cuisine := None; np_opening_hours := None;
       np_website := None; np_phone := None |} ].

(** [getNearbyBarsAndRestaurants] (lines 392 to 501).  [cacheKey] is the
    key built from the coordinates and the radius, [clock n] the [n]-th
    reading of [Date.now ()] during the call, [reply] the outcome of the
    Overpass request with [response.data?.elements ?? []] as its answer.
    The clock is read at the test of a cached entry, when there is one,
    then when the answer is stored, or twice for the identifiers of the
    fallback places.  The result is the list returned and the cache
    afterwards. *)
Definition fetchNearby (cache : JSMap.t NearbyEntry) (cacheKey : string)
    (lat lon : R) (clock : nat -> Z) (read : nat)
    (reply : Reply (list Element))
    : list NearbyPlace * JSMap.t NearbyEntry :=
  match reply with
  | Answered elements =>
      match elements with
      | [] =>
          ([], JSMap.set cache cacheKey
                 {| ne_data := []; ne_timestamp := clock read |})
      | _ =>
          let places := placesOfElements lat lon elements in
          (places, JSMap.set cache cacheKey
                     {| ne_data := places; ne_timestamp := clock read |})
      end
  | Rejected => (demoPlaces lat lon (clock read) (clock (S read)), cache)
  end.

Definition getNearbyBarsAndRestaurants (cache : JSMap.t NearbyEntry)
    (cacheKey : string) (lat lon : R) (clock : nat -> Z)
    (reply : Reply (list Element))
    : list NearbyPlace * JSMap.t NearbyEntry :=
  match JSMap.get cache cacheKey with
  | Some cached =>
      if (clock 0%nat - ne_timestamp cached <? CACHE_DURATION)%Z
      then (ne_data cached, cache)
      else fetchNearby cache cacheKey lat lon clock 1%nat reply
  | None => fetchNearby cache cacheKey lat lon clock 0%nat reply
  end.

(** The hourly cleaning of the cache: the loop over the entries deletes
    those older than twelve times [CACHE_DURATION]. *)
Definition cleanCache (now : Z) (cache : JSMap.t NearbyEntry)
    : JSMap.t NearbyEntry :=
  fold_left
    (fun m e =>
       if (CACHE_DURATION * 12 <? now - ne_timestamp (snd e))%Z
       then JSMap.delete m (fst e) else m)
    cache cache.

(** The response of the [/api/terraces/nearby] handler once the cloud
    fraction, the places and the buildings have been awaited.  An output
    item [{...base, sunScore, forecast}] is the place with its [Item].
    [cloud] and [fetched] are the outcomes of [getCloudFraction] and
    [getBuildings], [None] when the promise is rejected. *)
Definition nearbyResponse (getPosition : Ephemeris)
    (cloud : option (option R)) (useDemo : bool)
    (found : list NearbyPlace) (fetched : option (list Building))
    (now : Date) (forecast : bool) : list (NearbyPlace * Item) :=
  let cloudFraction :=
    match cloud with
    | Some c => c
    | None => Some 0.3
    end in
  let places := if useDemo then [] else found in
  let buildings :=
    match fetched with
    | Some bs => bs
    | None => []
    end in
  let items :=
    map (fun p =>
           (p, nearbyItem getPosition buildings cloudFraction now forecast
                 (placeOf p)))
        places in
  sortBy (fun a b => item_sunScore (snd b) - item_sunScore (snd a)) items.

(** *** [src/src/services/meteo.js]: the cloud fraction *)

(** The answer of the weather service: [res.ok] is false, or the body is
    read and [cover] is [data?.hourly?.cloud_cover?.[0]] when that is a
    number. *)
Inductive Weather : Type :=
  | NotOk : Weather
  | Body : option R -> Weather.

(** [getCloudFraction] (lines 4 to 19).  [cache] holds the live entries of
    the NodeCache store, [key] is the key built from the coordinates and
    the hour.  The result is [None] when the promise is rejected,
    [Some None] for [undefined], and the store afterwards. *)
Definition getCloudFraction (cache : JSMap.t R) (key : string)
    (reply : Reply Weather) : option (option R) * JSMap.t R :=
  match JSMap.get cache key with
  | Some hit => (Some (Some hit), cache)
  | None =>
      match reply with
      | Rejected => (None, cache)
      | Answered NotOk => (Some None, cache)
      | Answered (Body None) => (Some None, cache)
      | Answered (Body (Some cover)) =>
          let frac := JS.Math_max 0 (JS.Math_min 1 (cover / 100)) in
          (Some (Some frac), JSMap.set cache key frac)
      end
  end.

(** *** [src/unnamed/part_001]: the buildings around a point *)

Record BuildingEntry : Type :=
  { be_data : list Building; be_t : Z }.

Definition TTL : Z := (10 * 60 * 1000)%Z.

Section Buildings.

(** [finiteNumber s] is [Number (s)] when that is a finite number. *)
Variable finiteNumber : string -> option R.

Definition finiteTag (tags : option Tags) (k : string) : option R :=
  match tags with
  | Some t =>
      match t k with
      | Some s => finiteNumber s
      | None => None
      end
  | None => None
  end.

Definition heightFromTags (tags : option Tags) : R :=
  match finiteTag tags "height" with
  | Some h => h
  | None =>
      match finiteTag tags "building:levels" with
      | Some lv => lv * 3
      | None => 12
      end
  end.

(** The map and the filter of [getBuildings] on one element: the centroid
    is [e.center?.lat ?? e.lat], [e.center?.lon ?? e.lon], and the
    building is kept when both are finite numbers. *)
Definition buildingOfElement (e : Element) : option Building :=
  let clat :=
    match el_center e with
    | Some c => Some (lat c)
    | None => el_lat e
    end in
  let clon :=
    match el_center e with
    | Some c => Some (lon c)
    | None => el_lon e
    end in
  match clat, clon with
  | Some la, Some lo =>
      Some {| id := el_id e;
              height_m := heightFromTags (el_tags e);
              centroid := {| lat := la; lon := lo |} |}
  | _, _ => None
  end.

(** [getBuildings] (lines 14 to 50).  [k] is the key built from the
    coordinates and the radius, [now] the reading of [Date.now ()],
    [reply] the outcome of the Overpass request with
    [r.data?.elements ?? []] as its answer.  The result is [None] when the
    promise is rejected, and the cache afterwards. *)
Definition getBuildings (cache : JSMap.t BuildingEntry) (k : string)
    (now : Z) (reply : Reply (list Element))
    : option (list Building) * JSMap.t BuildingEntry :=
  let fetch :=
    match reply with
    | Rejected => (None, cache)
    | Answered els =>
        let buildings := filterMap buildingOfElement els in
        (Some buildings,
         JSMap.set cache k {| be_data := buildings; be_t := now |})
    end in
  match JSMap.get cache k with
  | Some c =>
      if (now - be_t c <? TTL)%Z then (Some (be_data c), cache) else fetch
  | None => fetch
  end.

End Buildings.

(** ** Double-precision arithmetic

    The numbers of the running code are IEEE-754 binary64 values.  Where
    a result depends on the rounding of an operation, or on [NaN], the
    functions are embedded a second time over this arithmetic: a number
    is a [spec_float] of the standard library, the four operations are
    its correctly rounded [SFadd], [SFsub], [SFmul] and [SFdiv] at
    precision 53, and the comparisons, [%], [Math.abs], [Math.min],
    [Math.max] and [Math.round], which are exact, are defined on the
    values.  The functions of [Math] that ECMAScript leaves to the
    implementation ([sin], [cos], [atan2], [asin], [hypot]) have no
    counterpart here. *)

Module F64.

Definition prec : Z := 53%Z.
Definition emax : Z := 1024%Z.

Definition t : Type := spec_float.

Definition NaN : t := S754_nan.

Definition add (x y : t) : t := SFadd prec emax x y.
Definition sub (x y : t) : t := SFsub prec emax x y.
Definition mul (x y : t) : t := SFmul prec emax x y.
Definition div (x y : t) : t := SFdiv prec emax x y.

(** A finite number is [mant * 2 ^ expo]; both are 0 for a zero. *)
Definition mant (x : t) : Z :=
  match x with
  | S754_finite s m _ => if s then Zneg m else Zpos m
  | _ => 0%Z
  end.

Definition expo (x : t) : Z :=
  match x with
  | S754_finite _ _ e => e
  | _ => 0%Z
  end.

(** The integer [n] as a number: exact below [2 ^ 53], where the
    mantissa is [n] shifted to 53 bits, and rounded above. *)
Definition int (n : Z) : t :=
  match n with
  | Z0 => S754_zero false
  | Zpos p | Zneg p =>
      let d := Zpos (digits2_pos p) in
      if (d <=? 53)%Z
      then S754_finite (n <? 0)%Z (Z.to_pos (Zpos p * 2 ^ (53 - d))) (d - 53)
      else binary_normalize prec emax n 0 false
  end.

(** The quotient [n / d] of two integers, correctly rounded. *)
Definition ratio (n : Z) (d : positive) : t :=
  match n with
  | Z0 => S754_zero false
  | Zpos p | Zneg p =>
      let '(q, e, l) :=
        SFdiv_core_binary prec emax (Zpos p) 0 (Zpos d) 0 in
      binary_round_aux prec emax (n <? 0)%Z q e l
  end.

(** The decimal literal [n * 10 ^ (- k)]: [dec 287 1] is [28.7]. *)
Definition dec (n : Z) (k : N) : t := ratio n (Z.to_pos (10 ^ Z.of_N k)).

(** [Math.PI], 0x1.921fb54442d18p+1. *)
Definition Math_PI : t := S754_finite false 7074237752028440 (-51).

(** The order of two finite numbers: that of their values. *)
Definition cmp_num (x y : t) : comparison :=
  let e := Z.min (expo x) (expo y) in
  (mant x * 2 ^ (expo x - e) ?= mant y * 2 ^ (expo y - e))%Z.

(** Comparison: [None] when an argument is [NaN]. *)
Definition compare (x y : t) : option comparison :=
  match x, y with
  | S754_nan, _ | _, S754_nan => None
  | S754_infinity s1, S754_infinity s2 =>
      Some (match s1, s2 with
            | true, false => Lt
            | false, true => Gt
            | _, _ => Eq
            end)
  | S754_infinity s, _ => Some (if s then Lt else Gt)
  | _, S754_infinity s => Some (if s then Gt else Lt)
  | _, _ => Some (cmp_num x y)
  end.

(** The operators [<], [<=] and [==]: false when an argument is [NaN]. *)
Definition ltb (x y : t) : bool :=
  match compare x y with Some Lt => true | _ => false end.

Definition leb (x y : t) : bool :=
  match compare x y with Some (Lt | Eq) => true | _ => false end.

Definition eqb (x y : t) : bool :=
  match compare x y with Some Eq => true | _ => false end.

Definition Math_abs (x : t) : t := SFabs x.

(** [Math.min] and [Math.max]: [NaN] when an argument is [NaN]; [-0] is
    below [+0]. *)
Definition Math_min (x y : t) : t :=
  match compare x y with
  | None => NaN
  | Some Lt => x
  | Some Gt => y
  | Some Eq => match x with S754_zero true => x | _ => y end
  end.

Definition Math_max (x y : t) : t :=
  match compare x y with
  | None => NaN
  | Some Gt => x
  | Some Lt => y
  | Some Eq => match x with S754_zero false => x | _ => y end
  end.

(** [Math.round]: the nearest integer, halves towards +infinity, computed
    exactly; [-0] for a negative argument that rounds to zero.  A number
    with a non-negative exponent, or of magnitude [2 ^ 52] and more, is
    an integer already. *)
Definition Math_round (x : t) : t :=
  match x with
  | S754_finite s m e =>
      if ((0 <=? e) || (53 <=? Zpos (digits2_pos m) + e))%Z then x
      else
        let n := ((2 * mant x + 2 ^ (- e)) / 2 ^ (1 - e))%Z in
        if (n =? 0)%Z then S754_zero s else int n
  | _ => x
  end.

(** The [%] operator: the remainder of the truncated division, exact,
    with the sign of the dividend. *)
Definition rem (x y : t) : t :=
  match x, y with
  | S754_nan, _ | _, S754_nan => NaN
  | S754_infinity _, _ => NaN
  | _, S754_zero _ => NaN
  | _, S754_infinity _ => x
  | S754_zero _, _ => x
  | S754_finite sx _ _, S754_finite _ _ _ =>
      let e := Z.min (expo x) (expo y) in
      let r := Z.rem (mant x * 2 ^ (expo x - e)) (mant y * 2 ^ (expo y - e)) in
      binary_normalize prec emax r e sx
  end.


(** Zeros and finite numbers. *)
Definition is_num (x : t) : bool :=
  match x with
  | S754_zero _ | S754_finite _ _ _ => true
  | _ => false
  end.

End F64.

(** ** The sources over double-precision numbers *)

Module Dbl.

Record SunPos : Type := { azimuth : F64.t; altitude : F64.t }.

Definition Ephemeris : Type := Date -> F64.t -> F64.t -> SunPos.

Record SunAngles : Type := { azimuthDeg : F64.t; altitudeDeg : F64.t }.

(** The shade module. *)
Definition RAD : F64.t := F64.div (F64.int 180) F64.Math_PI.

Definition toDeg (rad : F64.t) : F64.t := F64.mul rad RAD.

Definition angleDiffDeg (a b : F64.t) : F64.t :=
  F64.Math_abs
    (F64.sub (F64.rem (F64.add (F64.sub a b) (F64.int 540)) (F64.int 360))
             (F64.int 180)).

Definition getSunAngles (getPosition : Ephemeris) (date : Date)
    (lat lon : F64.t) : SunAngles :=
  let pos := getPosition date lat lon in
  {| azimuthDeg :=
       F64.rem (F64.add (F64.add (toDeg (azimuth pos)) (F64.int 180))
                        (F64.int 360))
               (F64.int 360);
     altitudeDeg := toDeg (altitude pos) |}.

(** The scorer. *)
Definition sunScore_az (pos : SunPos) : F64.t :=
  F64.rem (F64.add (F64.div (F64.mul (azimuth pos) (F64.int 180)) F64.Math_PI)
                   (F64.int 180))
          (F64.int 360).

Definition sunScore_alt (pos : SunPos) : F64.t :=
  F64.div (F64.mul (altitude pos) (F64.int 180)) F64.Math_PI.

Definition sunScore_diff (az orientationDeg : F64.t) : F64.t :=
  F64.Math_min (F64.Math_abs (F64.sub az orientationDeg))
               (F64.sub (F64.int 360) (F64.Math_abs (F64.sub az orientationDeg))).

(** [cloudFraction] is [Some c] when its [typeof] is ["number"], which
    [NaN] is too. *)
Definition sunScore (getPosition : Ephemeris) (lat lon orientationDeg : F64.t)
    (streetWidth : string) (date : Date) (cloudFraction : option F64.t)
    : F64.t :=
  let pos := getPosition date lat lon in
  let az := sunScore_az pos in
  let alt := sunScore_alt pos in
  let diff := sunScore_diff az orientationDeg in
  let score := F64.int 0 in
  let score :=
    if F64.ltb diff (F64.int 45) then F64.add score (F64.int 55)
    else if F64.ltb diff (F64.int 90) then F64.add score (F64.int 35)
    else F64.add score (F64.int 10) in
  let score :=
    if F64.ltb alt (F64.int 8) then F64.sub score (F64.int 30)
    else if F64.ltb alt (F64.int 15) then F64.sub score (F64.int 15)
    else F64.add score (F64.int 10) in
  let score :=
    if F64.ltb alt (F64.int 20) then
      if (streetWidth =? "narrow")%string then F64.sub score (F64.int 15)
      else if (streetWidth =? "medium")%string then F64.sub score (F64.int 5)
      else score
    else score in
  let score :=
    match cloudFraction with
    | Some c =>
        F64.mul score (F64.sub (F64.int 1) (F64.mul (F64.dec 6 1) c))
    | None => score
    end in
  F64.Math_max (F64.int 0) (F64.Math_min (F64.int 100) (F64.Math_round score)).

(** [src/index.js]: the guard on the radius of the query.  [radius] is
    the value of [Number(req.query.radius || 1500)], which is [NaN] for
    a radius that is not a number. *)
Definition guardRadius (radius : F64.t) : F64.t :=
  F64.Math_min (F64.Math_max radius (F64.int 100)) (F64.int 3000).

(** The radius of the building query. *)
Definition buildingRadius (radius : F64.t) : F64.t :=
  F64.Math_min radius (F64.int 200).

(** The orientation estimated from the identifier of the element. *)
Definition orientationOfId (id : F64.t) : F64.t :=
  F64.rem (F64.mul id (F64.int 37)) (F64.int 360).

(** An ephemeris that answers the same position everywhere. *)
Definition fixedSun (az alt : F64.t) : Ephemeris :=
  fun _ _ _ => {| azimuth := az; altitude := alt |}.

End Dbl.

(** The reference score of section 4.3 with every operation in double
    precision.  The solar angles are converted the way the scorer does
    it, and the circular difference is the lesser of [|a - b|] and
    [360 - |a - b|]. *)
Module Spec64.

Definition solarAzimuth (pos : Dbl.SunPos) : F64.t :=
  F64.rem
    (F64.add (F64.div (F64.mul (Dbl.azimuth pos) (F64.int 180)) F64.Math_PI)
             (F64.int 180))
    (F64.int 360).

Definition solarAltitude (pos : Dbl.SunPos) : F64.t :=
  F64.div (F64.mul (Dbl.altitude pos) (F64.int 180)) F64.Math_PI.

Definition angularDifference (a b : F64.t) : F64.t :=
  let d := F64.Math_abs (F64.sub a b) in
  F64.Math_min d (F64.sub (F64.int 360) d).

Definition clamp (x lo hi : F64.t) : F64.t :=
  F64.Math_max lo (F64.Math_min hi x).

Definition base (diff : F64.t) : F64.t :=
  if F64.ltb diff (F64.int 45) then F64.int 55
  else if F64.ltb diff (F64.int 90) then F64.int 35
  else F64.int 10.

Definition altitudeAdj (alt : F64.t) : F64.t :=
  if F64.ltb alt (F64.int 8) then F64.int (-30)
  else if F64.ltb alt (F64.int 15) then F64.int (-15)
  else F64.int 10.

Definition street (alt : F64.t) (streetWidth : string) : F64.t :=
  if F64.ltb alt (F64.int 20) then
    if (streetWidth =? "narrow")%string then F64.int (-15)
    else if (streetWidth =? "medium")%string then F64.int (-5)
    else F64.int 0
  else F64.int 0.

Definition attenuation (cloudFraction : option F64.t) : F64.t :=
  match cloudFraction with
  | Some c => F64.sub (F64.int 1) (F64.mul (F64.dec 6 1) c)
  | None => F64.int 1
  end.

Definition exposureScore (getPosition : Dbl.Ephemeris)
    (lat lon orientationDeg : F64.t) (streetWidth : string) (date : Date)
    (cloudFraction : option F64.t) : F64.t :=
  let pos := getPosition date lat lon in
  let alt := solarAltitude pos in
  let diff := angularDifference (solarAzimuth pos) orientationDeg in
  F64.Math_round
    (clamp (F64.mul (F64.add (F64.add (base diff) (altitudeAdj alt))
                             (street alt streetWidth))
                    (attenuation cloudFraction))
           (F64.int 0) (F64.int 100)).

End Spec64.

(** *** Auxiliary definitions of the proofs over doubles *)

(** The clamp of a score. *)
Definition clamp100 (x : F64.t) : F64.t :=
  F64.Math_max (F64.int 0) (F64.Math_min (F64.int 100) x).

(** The running score of [sunScore] before the cloud attenuation. *)
Definition bands64 (diff alt : F64.t) (streetWidth : string) : F64.t :=
  let score := F64.int 0 in
  let score :=
    if F64.ltb diff (F64.int 45) then F64.add score (F64.int 55)
    else if F64.ltb diff (F64.int 90) then F64.add score (F64.int 35)
    else F64.add score (F64.int 10) in
  let score :=
    if F64.ltb alt (F64.int 8) then F64.sub score (F64.int 30)
    else if F64.ltb alt (F64.int 15) then F64.sub score (F64.int 15)
    else F64.add score (F64.int 10) in
  if F64.ltb alt (F64.int 20) then
    if (streetWidth =? "narrow")%string then F64.sub score (F64.int 15)
    else if (streetWidth =? "medium")%string then F64.sub score (F64.int 5)
    else score
  else score.



(** ** Facts about the numeric primitives *)

(** Deciding the comparisons of a goal whose operands are known. *)
Ltac by_cases_R :=
  repeat match goal with
         | |- context [Rlt_dec ?a ?b] => destruct (Rlt_dec a b); try lra
         | |- context [Rgt_dec ?a ?b] => destruct (Rgt_dec a b); try lra
         | |- context [Rge_dec ?a ?b] => destruct (Rge_dec a b); try lra
         | |- context [Rle_dec ?a ?b] => destruct (Rle_dec a b); try lra
         end.

(** Evaluating [Rmax] and [Rmin] on operands that [lra] can compare,
    innermost first. *)
Ltac eval_minmax :=
  repeat match goal with
         | |- context [Rmax ?a ?b] =>
             first [ rewrite (Rmax_left a b) by lra
                   | rewrite (Rmax_right a b) by lra ]
         | |- context [Rmin ?a ?b] =>
             first [ rewrite (Rmin_left a b) by lra
                   | rewrite (Rmin_right a b) by lra ]
         end.

Lemma Math_floor_unique (x : R) (n : Z) :
  IZR n <= x < IZR n + 1 -> JS.Math_floor x = IZR n.
Proof.
  intros [Hlo Hhi]. unfold JS.Math_floor. f_equal. symmetry.
  apply Int_part_spec. lra.
Qed.

Lemma Math_floor_bounds (x : R) :
  JS.Math_floor x <= x < JS.Math_floor x + 1.
Proof.
  unfold JS.Math_floor. destruct (base_Int_part x). lra.
Qed.

Lemma Math_floor_IZR (n : Z) : JS.Math_floor (IZR n) = IZR n.
Proof. apply Math_floor_unique. lra. Qed.

Lemma trunc_nonneg (x : R) (n : Z) :
  0 <= x -> IZR n <= x < IZR n + 1 -> JS.trunc x = IZR n.
Proof.
  intros H0 H. unfold JS.trunc. destruct (Rle_dec 0 x) as [_ | C]; [| lra].
  now apply Math_floor_unique.
Qed.

(** The remainder by 360 of a non-negative number lying in the window
    [[360 k, 360 (k + 1))]. *)
Lemma rem360_window (x : R) (k : Z) :
  0 <= x -> 360 * IZR k <= x < 360 * (IZR k + 1) ->
  x %% 360 = x - 360 * IZR k.
Proof.
  intros H0 [Hlo Hhi]. unfold JS.rem.
  rewrite (trunc_nonneg (x / 360) k); [reflexivity | lra | lra].
Qed.

Lemma Math_round_IZR (n : Z) : JS.Math_round (IZR n) = IZR n.
Proof. unfold JS.Math_round. apply Math_floor_unique. lra. Qed.

Lemma Math_round_mono (x y : R) :
  x <= y -> JS.Math_round x <= JS.Math_round y.
Proof.
  intros Hxy. unfold JS.Math_round, JS.Math_floor.
  apply IZR_le.
  destruct (base_Int_part (x + / 2)) as [Hx1 Hx2].
  destruct (base_Int_part (y + / 2)) as [Hy1 Hy2].
  assert (H : IZR (Int_part (x + / 2)) < IZR (Int_part (y + / 2)) + 1) by lra.
  rewrite <- plus_IZR in H. apply lt_IZR in H. lia.
Qed.

Lemma or0_id (x : R) : JS.or0 x = x.
Proof. unfold JS.or0. destruct (Req_dec_T x 0); congruence. Qed.

(** [Math.round] returns the nearest integer, the upper one at a tie. *)
Lemma Math_round_nearest (x : R) :
  exists k : Z, JS.Math_round x = IZR k /\ x - / 2 < IZR k <= x + / 2.
Proof.
  exists (Int_part (x + / 2)). split; [reflexivity |].
  destruct (base_Int_part (x + / 2)). lra.
Qed.

Lemma trunc_neg (x : R) (n : Z) :
  x < 0 -> IZR n <= - x < IZR n + 1 -> JS.trunc x = - IZR n.
Proof.
  intros H0 H. unfold JS.trunc. destruct (Rle_dec 0 x) as [C | _]; [lra |].
  now rewrite (Math_floor_unique (- x) n).
Qed.

(** The remainder keeps the sign of the dividend. *)
Example rem_examples :
  540 %% 360 = 180 /\ 720 %% 360 = 0 /\ 200 %% 360 = 200
  /\ (-20) %% 360 = -20 /\ (-380) %% 360 = -20.
Proof.
  repeat split.
  - rewrite (rem360_window _ 1) by (simpl; lra). lra.
  - rewrite (rem360_window _ 2) by (simpl; lra). lra.
  - rewrite (rem360_window _ 0) by (simpl; lra). lra.
  - unfold JS.rem. rewrite (trunc_neg _ 0) by lra. lra.
  - unfold JS.rem. rewrite (trunc_neg _ 1) by lra. lra.
Qed.

(** ** Facts about the double-precision numbers *)

Section Binary64.

Local Open Scope Z_scope.


(** A positive number of [d] binary digits lies in [2 ^ (d - 1), 2 ^ d). *)
Lemma digits2_pos_bounds (p : positive) :
  2 ^ (Zpos (digits2_pos p) - 1) <= Zpos p < 2 ^ Zpos (digits2_pos p).
Proof.
  induction p as [p IH | p IH |]; cbn [digits2_pos].
  - rewrite Pos2Z.inj_succ.
    replace (Z.succ (Zpos (digits2_pos p)) - 1)
      with (Z.succ (Zpos (digits2_pos p) - 1)) by lia.
    rewrite !Z.pow_succ_r by lia. lia.
  - rewrite Pos2Z.inj_succ.
    replace (Z.succ (Zpos (digits2_pos p)) - 1)
      with (Z.succ (Zpos (digits2_pos p) - 1)) by lia.
    rewrite !Z.pow_succ_r by lia. lia.
  - cbn. lia.
Qed.

Lemma digits2_pos_le (p : positive) (k : Z) :
  Zpos p < 2 ^ k -> Zpos (digits2_pos p) <= k.
Proof.
  intros H. destruct (digits2_pos_bounds p) as [H1 _].
  destruct (Z_lt_le_dec k 0) as [Hk | Hk].
  - rewrite Z.pow_neg_r in H by assumption. lia.
  - destruct (Z_le_gt_dec (Zpos (digits2_pos p)) k) as [| Hgt]; [assumption |].
    exfalso.
    assert (2 ^ k <= 2 ^ (Zpos (digits2_pos p) - 1))
      by (apply Z.pow_le_mono_r; lia).
    lia.
Qed.

Lemma Zcompare_scale (n m p : Z) : 0 < p -> (n * p ?= m * p) = (n ?= m).
Proof. intros Hp. symmetry. apply Zmult_compare_compat_r. lia. Qed.

(** A valid number has a mantissa of 53 digits, or the least exponent
    and at most 53 digits. *)
Lemma bounded_digits (m : positive) (e : Z) :
  bounded F64.prec F64.emax m e = true ->
  Zpos (digits2_pos m) <= 53
  /\ -1074 <= e
  /\ (-1074 < e -> Zpos (digits2_pos m) = 53).
Proof.
  unfold bounded, canonical_mantissa, fexp, emin, F64.prec, F64.emax.
  intros H. apply andb_prop in H as [H _]. apply Z.eqb_eq in H. lia.
Qed.

(** Of two valid positive numbers the one with the lesser exponent is
    the lesser. *)
Lemma bounded_lt (m1 m2 : positive) (e1 e2 : Z) :
  bounded F64.prec F64.emax m1 e1 = true ->
  bounded F64.prec F64.emax m2 e2 = true ->
  e1 < e2 -> Zpos m1 < Zpos m2 * 2 ^ (e2 - e1).
Proof.
  intros H1 H2 He.
  destruct (bounded_digits _ _ H1) as (D1 & L1 & _).
  destruct (bounded_digits _ _ H2) as (_ & _ & N2).
  destruct (digits2_pos_bounds m1) as [_ U1].
  destruct (digits2_pos_bounds m2) as [B2 _].
  rewrite N2 in B2 by lia. change (2 ^ (53 - 1)) with (2 ^ 52) in B2.
  assert (Zpos m1 < 2 ^ 53).
  { eapply Z.lt_le_trans; [exact U1 |]. apply Z.pow_le_mono_r; lia. }
  assert (2 ^ 1 <= 2 ^ (e2 - e1)) by (apply Z.pow_le_mono_r; lia).
  change (2 ^ 1) with 2 in *. change (2 ^ 53) with (2 * 2 ^ 52) in *.
  nia.
Qed.

(** On valid numbers the comparison of the values is the comparison of
    the standard library. *)
Lemma compare_SFcompare (x y : F64.t) :
  valid_binary F64.prec F64.emax x = true ->
  valid_binary F64.prec F64.emax y = true ->
  F64.compare x y = SFcompare x y.
Proof.
  intros Vx Vy.
  destruct x as [sx | sx | | sx mx ex], y as [sy | sy | | sy my ey];
    try reflexivity;
    try (destruct sx, sy; reflexivity).
  - (* zero, finite *)
    unfold F64.compare, F64.cmp_num, SFcompare. cbn [F64.mant F64.expo].
    f_equal. rewrite Z.mul_0_l.
    assert (0 < 2 ^ (ey - Z.min 0 ey)) by (apply Z.pow_pos_nonneg; lia).
    destruct sy.
    + apply Z.compare_gt_iff. nia.
    + apply Z.compare_lt_iff. nia.
  - (* finite, zero *)
    unfold F64.compare, F64.cmp_num, SFcompare. cbn [F64.mant F64.expo].
    f_equal. rewrite Z.mul_0_l.
    assert (0 < 2 ^ (ex - Z.min ex 0)) by (apply Z.pow_pos_nonneg; lia).
    destruct sx.
    + apply Z.compare_lt_iff. nia.
    + apply Z.compare_gt_iff. nia.
  - (* finite, finite *)
    cbn [valid_binary] in Vx, Vy.
    unfold F64.compare, F64.cmp_num, SFcompare. cbn [F64.mant F64.expo].
    f_equal.
    assert (P1 : 0 < 2 ^ (ex - Z.min ex ey)) by (apply Z.pow_pos_nonneg; lia).
    assert (P2 : 0 < 2 ^ (ey - Z.min ex ey)) by (apply Z.pow_pos_nonneg; lia).
    destruct (Z.compare_spec ex ey) as [E | L | G].
    + subst ey. rewrite Z.min_id, Z.sub_diag. change (2 ^ 0) with 1.
      rewrite !Z.mul_1_r.
      destruct sx, sy; reflexivity.
    + pose proof (bounded_lt _ _ _ _ Vx Vy L) as Hlt.
      replace (Z.min ex ey) with ex in * by lia.
      rewrite Z.sub_diag. change (2 ^ 0) with 1. rewrite Z.mul_1_r.
      destruct sx, sy.
      * apply Z.compare_gt_iff. lia.
      * apply Z.compare_lt_iff. nia.
      * apply Z.compare_gt_iff. nia.
      * apply Z.compare_lt_iff. lia.
    + pose proof (bounded_lt _ _ _ _ Vy Vx G) as Hlt.
      replace (Z.min ex ey) with ey in * by lia.
      rewrite Z.sub_diag. change (2 ^ 0) with 1. rewrite Z.mul_1_r.
      destruct sx, sy.
      * apply Z.compare_lt_iff. lia.
      * apply Z.compare_lt_iff. nia.
      * apply Z.compare_gt_iff. nia.
      * apply Z.compare_gt_iff. lia.
Qed.


Lemma digits2_pos_unique (p : positive) (d : Z) :
  2 ^ (d - 1) <= Zpos p < 2 ^ d -> Zpos (digits2_pos p) = d.
Proof.
  intros [Hlo Hhi].
  destruct (digits2_pos_bounds p) as [Blo Bhi].
  assert (Hd : 0 < d).
  { destruct (Z_lt_le_dec 0 d) as [| Hle]; [assumption |].
    exfalso. destruct (Z.eq_dec d 0) as [-> | Hne].
    - change (2 ^ 0) with 1 in Hhi. lia.
    - rewrite Z.pow_neg_r in Hhi by lia. lia. }
  destruct (Z.lt_trichotomy (Zpos (digits2_pos p)) d) as [H | [H | H]].
  - exfalso.
    assert (2 ^ Zpos (digits2_pos p) <= 2 ^ (d - 1))
      by (apply Z.pow_le_mono_r; lia).
    lia.
  - exact H.
  - exfalso.
    assert (2 ^ d <= 2 ^ (Zpos (digits2_pos p) - 1))
      by (apply Z.pow_le_mono_r; lia).
    lia.
Qed.

(** Below [2 ^ 53] the number [F64.int n] is the integer [n] converted
    by the standard library; above, it is so by definition. *)
Lemma int_binary_normalize (n : Z) :
  F64.int n = binary_normalize F64.prec F64.emax n 0 false.
Proof.
  assert (Hp : forall (s : bool) (p : positive),
             Zpos (digits2_pos p) <= 53 ->
             binary_round F64.prec F64.emax s p 0
             = S754_finite s
                 (Z.to_pos (Zpos p * 2 ^ (53 - Zpos (digits2_pos p))))
                 (Zpos (digits2_pos p) - 53)).
  { intros s p Hd.
    set (d := Zpos (digits2_pos p)) in *.
    assert (Hd0 : 0 < d) by (unfold d; lia).
    set (mz := Z.to_pos (Zpos p * 2 ^ (53 - d))).
    assert (Hmz : Zpos mz = Zpos p * 2 ^ (53 - d)).
    { unfold mz. apply Z2Pos.id.
      apply Z.mul_pos_pos; [lia | apply Z.pow_pos_nonneg; lia]. }
    assert (Hdz : Zpos (digits2_pos mz) = 53).
    { apply digits2_pos_unique. rewrite Hmz.
      destruct (digits2_pos_bounds p) as [Blo Bhi]. fold d in Blo, Bhi.
      assert (E1 : 2 ^ (53 - 1) = 2 ^ (d - 1) * 2 ^ (53 - d))
        by (rewrite <- Z.pow_add_r by lia; f_equal; lia).
      assert (E2 : 2 ^ 53 = 2 ^ d * 2 ^ (53 - d))
        by (rewrite <- Z.pow_add_r by lia; f_equal; lia).
      rewrite E1, E2.
      assert (0 < 2 ^ (53 - d)) by (apply Z.pow_pos_nonneg; lia).
      split; nia. }
    assert (Hal : shl_align p 0 (fexp F64.prec F64.emax (d + 0))
                  = (mz, d - 53)).
    { unfold shl_align, fexp, emin, F64.prec, F64.emax.
      replace (Z.max (d + 0 - 53) (3 - 1024 - 53)) with (d - 53) by lia.
      destruct (d - 53 - 0) as [| q | q] eqn:E.
      - f_equal; [| lia]. apply Pos2Z.inj. rewrite Hmz.
        replace (53 - d) with 0 by lia. change (2 ^ 0) with 1. lia.
      - lia.
      - f_equal. apply Pos2Z.inj. rewrite Hmz.
        replace (53 - d) with (Zpos q) by lia.
        change (Pos.iter xO p q) with (shift_pos q p).
        rewrite shift_pos_correct. rewrite Z.mul_comm. reflexivity. }
    unfold binary_round. fold d. rewrite Hal.
    unfold binary_round_aux, shr_fexp, fexp, emin, F64.prec, F64.emax.
    cbn [Zdigits2 shr_record_of_loc]. rewrite Hdz.
    replace (Z.max (53 + (d - 53) - 53) (3 - 1024 - 53) - (d - 53)) with 0
      by lia.
    cbn [shr shr_m loc_of_shr_record round_nearest_even Zdigits2
         shr_record_of_loc].
    rewrite Hdz.
    replace (Z.max (53 + (d - 53) - 53) (3 - 1024 - 53) - (d - 53)) with 0
      by lia.
    cbn [shr shr_m].
    replace (d - 53 <=? 1024 - 53) with true
      by (symmetry; apply Z.leb_le; lia).
    reflexivity. }
  destruct n as [| p | p]; [reflexivity | |]; unfold F64.int;
    destruct (Zpos (digits2_pos p) <=? 53) eqn:Hd; try reflexivity;
    apply Z.leb_le in Hd; cbn [binary_normalize]; rewrite (Hp _ p Hd);
    reflexivity.
Qed.

(** The arithmetic on a few known values: [0.1 + 0.2], halves rounded
    upwards, the sign of a remainder and of a zero, [NaN]. *)
Example F64_samples :
  F64.add (F64.dec 1 1) (F64.dec 2 1) = F64.dec 30000000000000004 17
  /\ F64.Math_round (F64.dec 25 1) = F64.int 3
  /\ F64.Math_round (F64.dec (-25) 1) = F64.int (-2)
  /\ F64.Math_round (F64.dec (-5) 1) = S754_zero true
  /\ F64.Math_round (F64.dec 49999999999999994 17) = F64.int 0
  /\ F64.rem (F64.dec (-55) 1) (F64.int 2) = F64.dec (-15) 1
  /\ F64.rem (F64.int 725) (F64.int 360) = F64.int 5
  /\ F64.Math_min (F64.int 0) (S754_zero true) = S754_zero true
  /\ F64.Math_max (F64.int 1) F64.NaN = F64.NaN
  /\ F64.ltb F64.NaN (F64.int 45) = false
  /\ F64.mul F64.Math_PI (F64.div (F64.int 180) F64.Math_PI) = F64.int 180
  /\ F64.dec 6 1 = F64.div (F64.int 6) (F64.int 10)
  /\ F64.dec 287 1 = F64.div (F64.int 287) (F64.int 10)
  /\ F64.dec 5 1 = F64.div (F64.int 1) (F64.int 2).
Proof. vm_compute. repeat split. Qed.

(** With exponents at most 0 the order is that of the cross products. *)
Lemma cmp_num_cross (x y : F64.t) :
  F64.expo x <= 0 -> F64.expo y <= 0 ->
  F64.cmp_num x y
  = (F64.mant x * 2 ^ (- F64.expo y) ?= F64.mant y * 2 ^ (- F64.expo x)).
Proof.
  intros Hx Hy. unfold F64.cmp_num.
  set (ex := F64.expo x) in *. set (ey := F64.expo y) in *.
  set (e := Z.min ex ey).
  assert (Hq : 0 < 2 ^ (- Z.max ex ey)) by (apply Z.pow_pos_nonneg; lia).
  rewrite <- (Zcompare_scale _ _ _ Hq).
  rewrite <- !Z.mul_assoc, <- !Z.pow_add_r by lia.
  replace (ex - e + - Z.max ex ey) with (- ey) by lia.
  replace (ey - e + - Z.max ex ey) with (- ex) by lia.
  reflexivity.
Qed.

(** Below [2 ^ 53] the number [F64.int n] has the value [n]. *)
Lemma int_num (n : Z) :
  Z.abs n < 2 ^ 53 ->
  F64.is_num (F64.int n) = true
  /\ F64.expo (F64.int n) <= 0
  /\ F64.mant (F64.int n) = n * 2 ^ (- F64.expo (F64.int n)).
Proof.
  intros Hn. destruct n as [| p | p]; [cbn; lia | |].
  - assert (Hd : Zpos (digits2_pos p) <= 53) by (apply digits2_pos_le; lia).
    unfold F64.int. apply Z.leb_le in Hd as Hd'. rewrite Hd'.
    cbn [F64.is_num F64.expo F64.mant].
    replace (Zpos p <? 0) with false by reflexivity.
    split; [reflexivity |]. split; [lia |].
    rewrite Z2Pos.id.
    + f_equal. f_equal. lia.
    + apply Z.mul_pos_pos; [lia | apply Z.pow_pos_nonneg; lia].
  - assert (Hd : Zpos (digits2_pos p) <= 53) by (apply digits2_pos_le; lia).
    unfold F64.int. apply Z.leb_le in Hd as Hd'. rewrite Hd'.
    cbn [F64.is_num F64.expo F64.mant].
    replace (Zneg p <? 0) with true by reflexivity.
    split; [reflexivity |]. split; [lia |].
    assert (Hpos : 0 < Zpos p * 2 ^ (53 - Zpos (digits2_pos p)))
      by (apply Z.mul_pos_pos; [lia | apply Z.pow_pos_nonneg; lia]).
    replace (- (Zpos (digits2_pos p) - 53))
      with (53 - Zpos (digits2_pos p)) by lia.
    destruct (Zpos p * 2 ^ (53 - Zpos (digits2_pos p))) as [| q | q] eqn:E;
      lia.
Qed.

Lemma compare_num (x y : F64.t) :
  F64.is_num x = true -> F64.is_num y = true ->
  F64.compare x y = Some (F64.cmp_num x y).
Proof. destruct x, y; cbn; intros; congruence. Qed.

Lemma compare_int_l (a : Z) (x : F64.t) :
  Z.abs a < 2 ^ 53 -> F64.is_num x = true -> F64.expo x <= 0 ->
  F64.compare (F64.int a) x
  = Some (a * 2 ^ (- F64.expo x) ?= F64.mant x).
Proof.
  intros Ha Hx He.
  destruct (int_num a Ha) as (Hn & Hi & Hm).
  rewrite (compare_num _ _ Hn Hx), (cmp_num_cross _ _ Hi He), Hm.
  f_equal.
  assert (Hq : 0 < 2 ^ (- F64.expo (F64.int a)))
    by (apply Z.pow_pos_nonneg; lia).
  rewrite <- (Zcompare_scale (a * 2 ^ (- F64.expo x)) (F64.mant x) _ Hq).
  f_equal. ring.
Qed.

(** Integers are ordered as numbers the way they are as integers. *)
Lemma compare_int_int (a b : Z) :
  Z.abs a < 2 ^ 53 -> Z.abs b < 2 ^ 53 ->
  F64.compare (F64.int a) (F64.int b) = Some (a ?= b).
Proof.
  intros Ha Hb. destruct (int_num b Hb) as (Hn & Hi & Hm).
  rewrite (compare_int_l a _ Ha Hn Hi), Hm. f_equal.
  apply Zcompare_scale. apply Z.pow_pos_nonneg; lia.
Qed.

Lemma compare_antisym (x y : F64.t) :
  F64.compare y x
  = match F64.compare x y with
    | Some c => Some (CompOpp c)
    | None => None
    end.
Proof.
  destruct (F64.is_num x) eqn:Hx, (F64.is_num y) eqn:Hy.
  - rewrite (compare_num _ _ Hx Hy), (compare_num _ _ Hy Hx). f_equal.
    unfold F64.cmp_num. rewrite (Z.min_comm (F64.expo y)).
    apply Z.compare_antisym.
  - destruct x as [a | a | | a m e], y as [b | b | | b m' e'];
      try discriminate; try reflexivity; destruct b; reflexivity.
  - destruct x as [a | a | | a m e], y as [b | b | | b m' e'];
      try discriminate; try reflexivity; destruct a; reflexivity.
  - destruct x as [a | a | | a m e], y as [b | b | | b m' e'];
      try discriminate; try reflexivity; destruct a, b; reflexivity.
Qed.

Lemma compare_refl (x : F64.t) : x <> F64.NaN -> F64.compare x x = Some Eq.
Proof.
  intros Hx. destruct x as [a | a | | a m e].
  - reflexivity.
  - destruct a; reflexivity.
  - now contradiction Hx.
  - rewrite compare_num by reflexivity. f_equal. apply Z.compare_refl.
Qed.

Lemma Math_min_num (a b : F64.t) :
  F64.is_num a = true -> F64.is_num b = true ->
  F64.Math_min a b = a \/ F64.Math_min a b = b.
Proof.
  intros Ha Hb. unfold F64.Math_min. rewrite (compare_num _ _ Ha Hb).
  destruct (F64.cmp_num a b); [destruct a as [[|] | | |] | |]; auto.
Qed.

Lemma Math_max_num (a b : F64.t) :
  F64.is_num a = true -> F64.is_num b = true ->
  F64.Math_max a b = a \/ F64.Math_max a b = b.
Proof.
  intros Ha Hb. unfold F64.Math_max. rewrite (compare_num _ _ Ha Hb).
  destruct (F64.cmp_num a b); [destruct a as [[|] | | |] | |]; auto.
Qed.

Lemma min100 (x : F64.t) (c : comparison) :
  F64.compare (F64.int 100) x = Some c ->
  F64.Math_min (F64.int 100) x = match c with Lt => F64.int 100 | _ => x end.
Proof.
  intros Hc. unfold F64.Math_min. rewrite Hc. destruct c; reflexivity.
Qed.

Lemma max0 (x : F64.t) (c : comparison) :
  F64.compare (F64.int 0) x = Some c ->
  F64.Math_max (F64.int 0) x = match c with Lt => x | _ => F64.int 0 end.
Proof.
  intros Hc. unfold F64.Math_max. rewrite Hc. destruct c; reflexivity.
Qed.

(** The clamp of an integer is the integer clamped. *)
Lemma clamp100_int (n : Z) :
  Z.abs n < 2 ^ 53 ->
  clamp100 (F64.int n) = F64.int (Z.max 0 (Z.min 100 n)).
Proof.
  intros Hn. unfold clamp100.
  rewrite (min100 _ _ (compare_int_int 100 n ltac:(cbn; lia) Hn)).
  destruct (Z.compare_spec 100 n) as [E | L | G].
  - subst n. reflexivity.
  - replace (Z.max 0 (Z.min 100 n)) with 100 by lia. reflexivity.
  - rewrite (max0 _ _ (compare_int_int 0 n ltac:(cbn; lia) Hn)).
    destruct (Z.compare_spec 0 n) as [E' | L' | G'].
    + subst n. reflexivity.
    + f_equal. lia.
    + replace (Z.max 0 (Z.min 100 n)) with 0 by lia. reflexivity.
Qed.

(** Rounding and then clamping to [0,100], as [sunScore] does, gives the
    same number as clamping and then rounding, for every number, [NaN]
    and the infinities included. *)
Lemma clamp100_round (x : F64.t) :
  clamp100 (F64.Math_round x) = F64.Math_round (clamp100 x).
Proof.
  destruct x as [s | s | | s m e];
    try (destruct s; reflexivity); try reflexivity.
  set (x := S754_finite s m e).
  assert (Hx : F64.is_num x = true) by reflexivity.
  destruct ((0 <=? e) || (53 <=? Zpos (digits2_pos m) + e)) eqn:Hbig.
  - (* an integer already *)
    assert (Hr : F64.Math_round x = x)
      by (unfold x, F64.Math_round; rewrite Hbig; reflexivity).
    rewrite Hr. unfold clamp100.
    destruct (Math_min_num (F64.int 100) x eq_refl Hx) as [E | E]; rewrite E.
    + reflexivity.
    + destruct (Math_max_num (F64.int 0) x eq_refl Hx) as [E' | E'];
        rewrite E'.
      * reflexivity.
      * symmetry. exact Hr.
  - apply orb_false_iff in Hbig as [He Hd].
    apply Z.leb_gt in He. apply Z.leb_gt in Hd.
    set (P := 2 ^ (- e)).
    assert (HP : 0 < P) by (apply Z.pow_pos_nonneg; lia).
    assert (H2P : 2 ^ (1 - e) = 2 * P).
    { unfold P. replace (1 - e) with (Z.succ (- e)) by lia.
      apply Z.pow_succ_r. lia. }
    assert (Hm : Zpos m < 2 ^ 52 * P).
    { destruct (digits2_pos_bounds m) as [_ Hlt].
      unfold P. rewrite <- Z.pow_add_r by lia.
      eapply Z.lt_le_trans; [exact Hlt |].
      apply Z.pow_le_mono_r; lia. }
    set (n := (2 * F64.mant x + P) / (2 * P)).
    assert (Hrx : F64.Math_round x
                  = if n =? 0 then S754_zero s else F64.int n).
    { unfold x at 1. unfold F64.Math_round.
      replace ((0 <=? e) || (53 <=? Zpos (digits2_pos m) + e)) with false
        by (symmetry; apply orb_false_iff; split; apply Z.leb_gt; lia).
      fold x. rewrite H2P. reflexivity. }
    assert (Hex : F64.expo x <= 0) by (cbn; lia).
    assert (Hc100 : F64.compare (F64.int 100) x
                    = Some (100 * P ?= F64.mant x))
      by (apply (compare_int_l 100 x); [cbn; lia | exact Hx | exact Hex]).
    assert (Hc0 : F64.compare (F64.int 0) x = Some (0 ?= F64.mant x)).
    { rewrite (compare_int_l 0 x);
        [reflexivity | cbn; lia | exact Hx | exact Hex]. }
    assert (Hlow : forall k, k * (2 * P) <= 2 * F64.mant x + P -> k <= n).
    { intros k Hk. apply Z.div_le_lower_bound; lia. }
    assert (Hup : forall k, 2 * F64.mant x + P < k * (2 * P) -> n < k).
    { intros k Hk. apply Z.div_lt_upper_bound; lia. }
    assert (Hn : Z.abs n < 2 ^ 53).
    { assert (- 2 ^ 52 <= n)
        by (apply Hlow; unfold x; cbn [F64.mant]; destruct s; nia).
      assert (n < 2 ^ 52 + 1)
        by (apply Hup; unfold x; cbn [F64.mant]; destruct s; nia).
      change (2 ^ 53) with 9007199254740992.
      change (2 ^ 52) with 4503599627370496 in *. lia. }
    unfold clamp100 at 2.
    rewrite (min100 _ _ Hc100).
    destruct (Z.compare_spec (100 * P) (F64.mant x)) as [E | L | G].
    + (* the value is 100 *)
      rewrite (max0 _ _ Hc0).
      assert (H0 : (0 ?= F64.mant x) = Lt) by (apply Z.compare_lt_iff; lia).
      rewrite H0, Hrx.
      assert (En : n = 100).
      { unfold n. rewrite <- E.
        replace (2 * (100 * P) + P) with (P + 100 * (2 * P)) by ring.
        rewrite Z.div_add by lia. rewrite Z.div_small by lia. reflexivity. }
      rewrite En. reflexivity.
    + (* above 100 *)
      assert (H100 : 100 <= n) by (apply Hlow; lia).
      rewrite Hrx.
      replace (n =? 0) with false by (symmetry; apply Z.eqb_neq; lia).
      rewrite (clamp100_int n Hn).
      replace (Z.max 0 (Z.min 100 n)) with 100 by lia. reflexivity.
    + (* below 100 *)
      rewrite (max0 _ _ Hc0).
      destruct (Z.compare_spec 0 (F64.mant x)) as [E' | L' | G'].
      * exfalso. unfold x in E'. cbn [F64.mant] in E'.
        destruct s; discriminate.
      * (* between 0 and 100 *)
        rewrite Hrx.
        assert (H0n : 0 <= n) by (apply Hlow; lia).
        assert (Hn100 : n < 101) by (apply Hup; lia).
        destruct (Z.eqb_spec n 0) as [En | En].
        -- assert (Hs : s = false).
           { unfold x in L'. cbn [F64.mant] in L'.
             destruct s; [lia | reflexivity]. }
           rewrite Hs. reflexivity.
        -- rewrite (clamp100_int n Hn). f_equal. lia.
      * (* negative *)
        rewrite Hrx.
        assert (Hn0 : n < 1) by (apply Hup; lia).
        destruct (Z.eqb_spec n 0) as [En | En].
        -- assert (Hs : s = true).
           { unfold x in G'. cbn [F64.mant] in G'.
             destruct s; [reflexivity | lia]. }
           rewrite Hs. reflexivity.
        -- rewrite (clamp100_int n Hn).
           replace (Z.max 0 (Z.min 100 n)) with 0 by lia. reflexivity.
Qed.

(** The right shift of the rounding drops the zeros of a mantissa
    [q * 2 ^ k] and nothing else. *)
Lemma iter_shr_1 (k q : positive) :
  iter_pos shr_1 k
    {| shr_m := Zpos q * 2 ^ Zpos k; shr_r := false; shr_s := false |}
  = {| shr_m := Zpos q; shr_r := false; shr_s := false |}.
Proof.
  revert q.
  assert (H1 : forall q : positive,
             shr_1 {| shr_m := Zpos q * 2; shr_r := false; shr_s := false |}
             = {| shr_m := Zpos q; shr_r := false; shr_s := false |}).
  { intros q. replace (Zpos q * 2) with (Zpos q~0) by lia. reflexivity. }
  assert (Hpos : forall (q j : positive),
             exists q', Zpos q * 2 ^ Zpos j = Zpos q').
  { intros q j. exists (Z.to_pos (Zpos q * 2 ^ Zpos j)).
    rewrite Z2Pos.id; [reflexivity |].
    apply Z.mul_pos_pos; [lia | apply Z.pow_pos_nonneg; lia]. }
  induction k as [k IH | k IH |]; intros q; cbn [iter_pos].
  - replace (Zpos q * 2 ^ Zpos k~1)
      with ((Zpos q * 2 ^ Zpos k * 2 ^ Zpos k) * 2).
    2: { replace (Zpos k~1) with (Zpos k + Zpos k + 1) by lia.
         rewrite !Z.pow_add_r by lia. change (2 ^ 1) with 2. ring. }
    destruct (Hpos q k) as [q1 E1]. rewrite E1.
    destruct (Hpos q1 k) as [q2 E2]. rewrite E2.
    rewrite H1, <- E2, IH, <- E1. apply IH.
  - replace (Zpos q * 2 ^ Zpos k~0)
      with (Zpos q * 2 ^ Zpos k * 2 ^ Zpos k).
    2: { replace (Zpos k~0) with (Zpos k + Zpos k) by lia.
         rewrite !Z.pow_add_r by lia. ring. }
    destruct (Hpos q k) as [q1 E1]. rewrite E1, IH, <- E1. apply IH.
  - change (2 ^ 1) with 2. apply H1.
Qed.

(** A mantissa [p * 2 ^ k] of at least 53 digits, where [p] has at most
    53, is rounded without error. *)
Lemma binary_round_aux_exact (s : bool) (p : positive) (k E : Z) :
  0 <= k ->
  Zpos (digits2_pos p) <= 53 ->
  53 <= Zpos (digits2_pos p) + k ->
  -1074 <= E + Zpos (digits2_pos p) + k - 53 <= 971 ->
  binary_round_aux F64.prec F64.emax s (Zpos p * 2 ^ k) E loc_Exact
  = S754_finite s (Z.to_pos (Zpos p * 2 ^ (53 - Zpos (digits2_pos p))))
                (E + k + Zpos (digits2_pos p) - 53).
Proof.
  intros Hk Hd Hdk HE.
  set (d := Zpos (digits2_pos p)) in *.
  assert (Hd0 : 0 < d) by (unfold d; lia).
  destruct (digits2_pos_bounds p) as [Blo Bhi]. fold d in Blo, Bhi.
  set (mz := Z.to_pos (Zpos p * 2 ^ (53 - d))).
  assert (Hmz : Zpos mz = Zpos p * 2 ^ (53 - d)).
  { unfold mz. apply Z2Pos.id.
    apply Z.mul_pos_pos; [lia | apply Z.pow_pos_nonneg; lia]. }
  assert (Hdz : Zpos (digits2_pos mz) = 53).
  { apply digits2_pos_unique. rewrite Hmz.
    assert (E1 : 2 ^ (53 - 1) = 2 ^ (d - 1) * 2 ^ (53 - d))
      by (rewrite <- Z.pow_add_r by lia; f_equal; lia).
    assert (E2 : 2 ^ 53 = 2 ^ d * 2 ^ (53 - d))
      by (rewrite <- Z.pow_add_r by lia; f_equal; lia).
    rewrite E1, E2.
    assert (0 < 2 ^ (53 - d)) by (apply Z.pow_pos_nonneg; lia).
    split; nia. }
  set (M := Z.to_pos (Zpos p * 2 ^ k)).
  assert (HM : Zpos M = Zpos p * 2 ^ k).
  { unfold M. apply Z2Pos.id.
    apply Z.mul_pos_pos; [lia | apply Z.pow_pos_nonneg; lia]. }
  assert (HdM : Zpos (digits2_pos M) = d + k).
  { apply digits2_pos_unique. rewrite HM.
    assert (E1 : 2 ^ (d + k - 1) = 2 ^ (d - 1) * 2 ^ k)
      by (rewrite <- Z.pow_add_r by lia; f_equal; lia).
    assert (E2 : 2 ^ (d + k) = 2 ^ d * 2 ^ k)
      by (rewrite <- Z.pow_add_r by lia; reflexivity).
    rewrite E1, E2.
    assert (0 < 2 ^ k) by (apply Z.pow_pos_nonneg; lia).
    split; nia. }
  rewrite <- HM.
  assert (Hs1 : shr_fexp F64.prec F64.emax (Zpos M) E loc_Exact
                = ({| shr_m := Zpos mz; shr_r := false; shr_s := false |},
                   E + (d + k - 53))).
  { unfold shr_fexp, fexp, emin, F64.prec, F64.emax.
    cbn [Zdigits2 shr_record_of_loc]. rewrite HdM.
    replace (Z.max (d + k + E - 53) (3 - 1024 - 53) - E) with (d + k - 53)
      by lia.
    destruct (d + k - 53) as [| n | n] eqn:En.
    - cbn [shr]. f_equal; [| lia]. f_equal. rewrite HM, Hmz.
      f_equal. f_equal. lia.
    - cbn [shr]. f_equal.
      rewrite HM.
      replace (Zpos p * 2 ^ k) with (Zpos mz * 2 ^ Zpos n).
      + apply iter_shr_1.
      + rewrite Hmz, <- Z.mul_assoc, <- Z.pow_add_r by lia.
        f_equal. f_equal. lia.
    - lia. }
  unfold binary_round_aux. rewrite Hs1.
  cbn [shr_m loc_of_shr_record round_nearest_even].
  assert (Hs2 : shr_fexp F64.prec F64.emax (Zpos mz) (E + (d + k - 53))
                  loc_Exact
                = ({| shr_m := Zpos mz; shr_r := false; shr_s := false |},
                   E + (d + k - 53))).
  { unfold shr_fexp, fexp, emin, F64.prec, F64.emax.
    cbn [Zdigits2 shr_record_of_loc]. rewrite Hdz.
    replace (Z.max (53 + (E + (d + k - 53)) - 53) (3 - 1024 - 53)
             - (E + (d + k - 53))) with 0 by lia.
    reflexivity. }
  rewrite Hs2. cbn [shr_m].
  replace (E + (d + k - 53) <=? F64.emax - F64.prec) with true
    by (symmetry; apply Z.leb_le; unfold F64.emax, F64.prec; lia).
  f_equal. lia.
Qed.

(** The shape of a positive integer below [2 ^ 53]. *)
Lemma int_pos (p : positive) :
  Zpos p < 2 ^ 53 ->
  F64.int (Zpos p)
  = S754_finite false
      (Z.to_pos (Zpos p * 2 ^ (53 - Zpos (digits2_pos p))))
      (Zpos (digits2_pos p) - 53).
Proof.
  intros H. unfold F64.int.
  replace (Zpos (digits2_pos p) <=? 53) with true
    by (symmetry; apply Z.leb_le, digits2_pos_le; exact H).
  reflexivity.
Qed.

(** The product of two non-negative integers is exact when it is below
    [2 ^ 53]. *)
Lemma mul_int (a b : Z) :
  0 <= a -> 0 < b < 2 ^ 53 -> a * b < 2 ^ 53 ->
  F64.mul (F64.int a) (F64.int b) = F64.int (a * b).
Proof.
  intros Ha [Hb Hb53] Hab.
  destruct b as [| pb | pb]; try lia.
  destruct a as [| pa | pa]; try lia.
  - rewrite (int_pos pb Hb53). reflexivity.
  - assert (Ha53 : Zpos pa < 2 ^ 53) by nia.
    rewrite (int_pos pa Ha53), (int_pos pb Hb53).
    change (Zpos pa * Zpos pb) with (Zpos (pa * pb)) in *.
    rewrite (int_pos (pa * pb) Hab).
    set (da := Zpos (digits2_pos pa)). set (db := Zpos (digits2_pos pb)).
    set (dp := Zpos (digits2_pos (pa * pb))).
    destruct (digits2_pos_bounds pa) as [Alo Ahi]. fold da in Alo, Ahi.
    destruct (digits2_pos_bounds pb) as [Blo Bhi]. fold db in Blo, Bhi.
    destruct (digits2_pos_bounds (pa * pb)) as [Plo Phi].
    fold dp in Plo, Phi.
    assert (Hda : da <= 53) by (apply digits2_pos_le; exact Ha53).
    assert (Hdb : db <= 53) by (apply digits2_pos_le; exact Hb53).
    assert (Hdp : dp <= 53) by (apply digits2_pos_le; exact Hab).
    assert (Hda0 : 0 < da) by (unfold da; lia).
    assert (Hdb0 : 0 < db) by (unfold db; lia).
    assert (Hsum : da + db - 1 <= dp).
    { destruct (Z_le_gt_dec (da + db - 1) dp) as [| Hgt]; [assumption |].
      exfalso.
      assert (2 ^ dp <= 2 ^ (da + db - 2)) by (apply Z.pow_le_mono_r; lia).
      assert (E : 2 ^ (da + db - 2) = 2 ^ (da - 1) * 2 ^ (db - 1))
        by (rewrite <- Z.pow_add_r by lia; f_equal; lia).
      assert (0 < 2 ^ (da - 1)) by (apply Z.pow_pos_nonneg; lia).
      assert (0 < 2 ^ (db - 1)) by (apply Z.pow_pos_nonneg; lia).
      rewrite Pos2Z.inj_mul in Phi. nia. }
    unfold F64.mul, SFmul. cbn [xorb].
    assert (Pa : 0 < Zpos pa * 2 ^ (53 - da))
      by (apply Z.mul_pos_pos; [lia | apply Z.pow_pos_nonneg; lia]).
    assert (Pb : 0 < Zpos pb * 2 ^ (53 - db))
      by (apply Z.mul_pos_pos; [lia | apply Z.pow_pos_nonneg; lia]).
    assert (EM : Zpos (Z.to_pos (Zpos pa * 2 ^ (53 - da))
                       * Z.to_pos (Zpos pb * 2 ^ (53 - db)))
                 = Zpos (pa * pb) * 2 ^ (106 - da - db)).
    { rewrite (Pos2Z.inj_mul (Z.to_pos _)), !Z2Pos.id by assumption.
      rewrite (Pos2Z.inj_mul pa pb).
      replace (106 - da - db) with ((53 - da) + (53 - db)) by lia.
      rewrite Z.pow_add_r by lia. ring. }
    rewrite EM.
    rewrite binary_round_aux_exact; fold dp; try lia.
    f_equal. lia.
Qed.

(** The remainder of two positive integers below [2 ^ 53] is that of
    the integers. *)
Lemma rem_int (a b : Z) :
  0 <= a < 2 ^ 53 -> 0 < b < 2 ^ 53 ->
  F64.rem (F64.int a) (F64.int b) = F64.int (a mod b).
Proof.
  intros Ha Hb.
  destruct b as [| pb | pb]; try lia.
  destruct a as [| pa | pa]; try lia.
  - rewrite (int_pos pb (proj2 Hb)). reflexivity.
  - pose proof (Z.mod_pos_bound (Zpos pa) (Zpos pb) ltac:(lia)) as Hmod.
    rewrite (int_pos pa (proj2 Ha)), (int_pos pb (proj2 Hb)).
    set (da := Zpos (digits2_pos pa)). set (db := Zpos (digits2_pos pb)).
    assert (Hda : da <= 53) by (apply digits2_pos_le; apply Ha).
    assert (Hdb : db <= 53) by (apply digits2_pos_le; apply Hb).
    assert (Hda0 : 0 < da) by (unfold da; lia).
    assert (Hdb0 : 0 < db) by (unfold db; lia).
    assert (Pa : 0 < Zpos pa * 2 ^ (53 - da))
      by (apply Z.mul_pos_pos; [lia | apply Z.pow_pos_nonneg; lia]).
    assert (Pb : 0 < Zpos pb * 2 ^ (53 - db))
      by (apply Z.mul_pos_pos; [lia | apply Z.pow_pos_nonneg; lia]).
    unfold F64.rem. cbn [F64.mant F64.expo].
    rewrite !Z2Pos.id by assumption.
    set (e := Z.min (da - 53) (db - 53)).
    assert (He : e <= 0) by (unfold e; lia).
    assert (HK : 0 < 2 ^ (- e)) by (apply Z.pow_pos_nonneg; lia).
    replace (Zpos pa * 2 ^ (53 - da) * 2 ^ (da - 53 - e))
      with (Zpos pa * 2 ^ (- e))
      by (rewrite <- Z.mul_assoc, <- Z.pow_add_r by lia;
          f_equal; f_equal; lia).
    replace (Zpos pb * 2 ^ (53 - db) * 2 ^ (db - 53 - e))
      with (Zpos pb * 2 ^ (- e))
      by (rewrite <- Z.mul_assoc, <- Z.pow_add_r by lia;
          f_equal; f_equal; lia).
    rewrite Z.rem_mod_nonneg by nia.
    rewrite Z.mul_mod_distr_r by lia.
    destruct (Zpos pa mod Zpos pb) as [| p | p] eqn:Ep; try lia.
    + reflexivity.
    + assert (Hp53 : Zpos p < 2 ^ 53) by lia.
      rewrite (int_pos p Hp53).
      set (dp := Zpos (digits2_pos p)).
      assert (Hdp : dp <= 53) by (apply digits2_pos_le; exact Hp53).
      assert (Hdp0 : 0 < dp) by (unfold dp; lia).
      destruct (digits2_pos_bounds p) as [Plo Phi]. fold dp in Plo, Phi.
      set (r := Z.to_pos (Zpos p * 2 ^ (- e))).
      assert (Hr : Zpos r = Zpos p * 2 ^ (- e)).
      { unfold r. apply Z2Pos.id. apply Z.mul_pos_pos; lia. }
      rewrite <- Hr. cbn [binary_normalize]. unfold binary_round.
      assert (Hdr : Zpos (digits2_pos r) = dp - e).
      { apply digits2_pos_unique. rewrite Hr.
        assert (E1 : 2 ^ (dp - e - 1) = 2 ^ (dp - 1) * 2 ^ (- e))
          by (rewrite <- Z.pow_add_r by lia; f_equal; lia).
        assert (E2 : 2 ^ (dp - e) = 2 ^ dp * 2 ^ (- e))
          by (rewrite <- Z.pow_add_r by lia; f_equal; lia).
        rewrite E1, E2. split; nia. }
      rewrite Hdr.
      replace (fexp F64.prec F64.emax (dp - e + e)) with (dp - 53)
        by (unfold fexp, emin, F64.prec, F64.emax; lia).
      unfold shl_align.
      destruct (dp - 53 - e) as [| j | j] eqn:Ej; cbv beta iota zeta.
      * rewrite Hr.
        rewrite (binary_round_aux_exact false p (- e) e); fold dp; try lia.
        f_equal. lia.
      * rewrite Hr.
        rewrite (binary_round_aux_exact false p (- e) e); fold dp; try lia.
        f_equal. lia.
      * change (Pos.iter xO r j) with (shift_pos j r).
        rewrite shift_pos_correct.
        change (Zpower_pos 2 j) with (2 ^ Zpos j).
        rewrite Hr.
        replace (2 ^ Zpos j * (Zpos p * 2 ^ (- e)))
          with (Zpos p * 2 ^ (53 - dp)).
        2: { rewrite (Z.mul_comm (2 ^ Zpos j)), <- Z.mul_assoc.
             rewrite <- Z.pow_add_r by lia. f_equal. f_equal. lia. }
        rewrite (binary_round_aux_exact false p (53 - dp) (dp - 53));
          fold dp; try lia.
        f_equal. lia.
Qed.





End Binary64.

(** ** Circular difference *)

(** The remainder of [angleDiffDeg] brings a difference of two bearings
    back into [-180, 180). *)
Lemma rem_wrap (d : R) :
  -360 < d < 360 ->
  (d + 540) %% 360 - 180
  = (if Rlt_dec d (-180) then d + 360
     else if Rlt_dec d 180 then d else d - 360).
Proof.
  intros Hd.
  destruct (Rlt_dec d (-180)) as [H1 | H1].
  - rewrite (rem360_window _ 0) by (simpl; lra). lra.
  - destruct (Rlt_dec d 180) as [H2 | H2].
    + rewrite (rem360_window _ 1) by (simpl; lra). lra.
    + rewrite (rem360_window _ 2) by (simpl; lra). lra.
Qed.

Lemma sunScore_diff_range (a b : R) :
  0 <= a < 360 -> 0 <= b < 360 -> 0 <= sunScore_diff a b <= 180.
Proof.
  intros Ha Hb. unfold sunScore_diff, JS.Math_abs, JS.Math_min, Rmin, Rabs.
  destruct (Rcase_abs (a - b)); destruct (Rle_dec _ _); lra.
Qed.







(** Concrete values, for reference: 350 and 10 are 20 degrees apart. *)
Example angleDiffDeg_350_10 : angleDiffDeg 350 10 = 20.
Proof.
  unfold angleDiffDeg, JS.Math_abs. rewrite rem_wrap by lra.
  by_cases_R. rewrite Rabs_left; lra.
Qed.

Example angleDiffDeg_0_0 : angleDiffDeg 0 0 = 0.
Proof.
  unfold angleDiffDeg, JS.Math_abs. rewrite rem_wrap by lra.
  by_cases_R. replace (0 - 0) with 0 by lra. apply Rabs_R0.
Qed.

(** ** The solar position adapter *)

Lemma RAD_pos : 0 < RAD.
Proof.
  unfold RAD. apply Rdiv_lt_0_compat; [lra | apply PI_RGT_0].
Qed.

Lemma toDeg_inline (rad : R) : (rad * 180) / PI = toDeg rad.
Proof. unfold toDeg, RAD. field. apply PI_neq0. Qed.

Lemma toDeg_0 : toDeg 0 = 0.
Proof. unfold toDeg. ring. Qed.

Lemma toDeg_PI : toDeg PI = 180.
Proof. unfold toDeg, RAD. field. apply PI_neq0. Qed.

Lemma toDeg_scale (k : R) : toDeg (k * PI) = k * 180.
Proof. unfold toDeg, RAD. field. apply PI_neq0. Qed.

Lemma toDeg_lt (x y : R) : x < y -> toDeg x < toDeg y.
Proof.
  intros H. unfold toDeg. apply Rmult_lt_compat_r; [apply RAD_pos | exact H].
Qed.

Lemma toDeg_le (x y : R) : x <= y -> toDeg x <= toDeg y.
Proof.
  intros H. unfold toDeg. apply Rmult_le_compat_r; [| exact H].
  left. apply RAD_pos.
Qed.

(** Radians in (-PI, PI] are degrees in (-180, 180]. *)
Lemma toDeg_range (rad : R) :
  - PI < rad <= PI -> -180 < toDeg rad <= 180.
Proof.
  intros [Hlo Hhi].
  assert (Hn : toDeg (- PI) = -180).
  { replace (- PI) with (-1 * PI) by ring. rewrite toDeg_scale. lra. }
  apply toDeg_lt in Hlo. apply toDeg_le in Hhi.
  rewrite toDeg_PI in Hhi. rewrite Hn in Hlo. lra.
Qed.

(** The conversion of [getSunAngles] in closed form. *)
Lemma compass_of_degrees (deg : R) :
  -180 <= deg <= 180 ->
  (deg + 180 + 360) %% 360 = (if Rlt_dec deg 180 then deg + 180 else 0).
Proof.
  intros H. destruct (Rlt_dec deg 180) as [Hlt | Hge].
  - rewrite (rem360_window _ 1) by (simpl; lra). lra.
  - rewrite (rem360_window _ 2) by (simpl; lra). lra.
Qed.





(** The four cardinal points: the ephemeris azimuths 0 (south), -PI/2
    (east), PI/2 (west) and PI (north) become the bearings 180, 90, 270
    and 0. *)
Example getSunAngles_cardinal (alt : R) (date : Date) (lat lon : R) :
  azimuthDeg (getSunAngles (fixedSun 0 alt) date lat lon) = 180
  /\ azimuthDeg (getSunAngles (fixedSun (- (PI / 2)) alt) date lat lon) = 90
  /\ azimuthDeg (getSunAngles (fixedSun (PI / 2) alt) date lat lon) = 270
  /\ azimuthDeg (getSunAngles (fixedSun PI alt) date lat lon) = 0.
Proof.
  unfold getSunAngles, fixedSun. simpl.
  replace (- (PI / 2)) with ((- / 2) * PI) by lra.
  replace (PI / 2) with (/ 2 * PI) by lra.
  rewrite toDeg_0, toDeg_PI, !toDeg_scale.
  rewrite !compass_of_degrees by lra.
  repeat split; by_cases_R.
Qed.

(** ** Rounding and clamping *)

Lemma Math_round_int (x : R) : exists k : Z, JS.Math_round x = IZR k.
Proof. now exists (Int_part (x + / 2)). Qed.

Lemma roundClamp_int (x : R) :
  exists n : Z, (0 <= n <= 100)%Z /\ roundClamp x = IZR n.
Proof.
  unfold roundClamp, JS.Math_max, JS.Math_min.
  destruct (Math_round_int x) as [k ->].
  exists (Z.max 0 (Z.min 100 k)). split; [lia |].
  destruct (Z_le_gt_dec k 0) as [H0 | H0].
  - pose proof (IZR_le _ _ H0).
    rewrite Rmin_right by lra. rewrite Rmax_left by lra.
    f_equal. lia.
  - destruct (Z_le_gt_dec k 100) as [H1 | H1].
    + assert (0 <= IZR k) by (apply IZR_le; lia).
      pose proof (IZR_le _ _ H1).
      rewrite Rmin_right by lra. rewrite Rmax_right by lra.
      f_equal. lia.
    + assert (100 <= IZR k) by (apply IZR_le; lia).
      rewrite Rmin_left by lra. rewrite Rmax_right by lra.
      f_equal. lia.
Qed.

(** Rounding commutes with clamping to an interval with integer ends. *)
Lemma roundClamp_spec (x : R) :
  roundClamp x = Spec.round (Spec.clamp x 0 100).
Proof.
  unfold roundClamp, Spec.round, Spec.clamp, JS.Math_max, JS.Math_min.
  destruct (Rle_lt_dec x 0) as [H0 | H0].
  - pose proof (Math_round_mono x 0 H0) as Hm.
    rewrite (Math_round_IZR 0) in Hm.
    rewrite (Rmin_right 100 x) by lra. rewrite (Rmax_left 0 x) by lra.
    rewrite (Math_round_IZR 0).
    rewrite Rmin_right by lra. now rewrite Rmax_left by lra.
  - destruct (Rle_lt_dec x 100) as [H1 | H1].
    + assert (Hlo : 0 <= x) by lra.
      pose proof (Math_round_mono 0 x Hlo) as Hm0.
      pose proof (Math_round_mono x 100 H1) as Hm1.
      rewrite (Math_round_IZR 0) in Hm0. rewrite (Math_round_IZR 100) in Hm1.
      rewrite (Rmin_right 100 x) by lra. rewrite (Rmax_right 0 x) by lra.
      rewrite Rmin_right by lra. now rewrite Rmax_right by lra.
    + assert (Hhi : 100 <= x) by lra.
      pose proof (Math_round_mono 100 x Hhi) as Hm.
      rewrite (Math_round_IZR 100) in Hm.
      rewrite (Rmin_left 100 x) by lra. rewrite (Rmax_right 0 100) by lra.
      rewrite (Math_round_IZR 100).
      rewrite Rmin_left by lra. now rewrite Rmax_right by lra.
Qed.

Lemma roundClamp_IZR (n : Z) :
  (0 <= n <= 100)%Z -> roundClamp (IZR n) = IZR n.
Proof.
  intros [H0 H1]. unfold roundClamp, JS.Math_max, JS.Math_min.
  rewrite Math_round_IZR.
  apply IZR_le in H0. apply IZR_le in H1.
  rewrite Rmin_right by lra. now rewrite Rmax_right by lra.
Qed.

(** ** The exposure scorer *)

Lemma sunScore_bands (getPosition : Ephemeris) (lat lon orientationDeg : R)
    (streetWidth : string) (date : Date) (cloudFraction : option R) :
  let pos := getPosition date lat lon in
  sunScore getPosition lat lon orientationDeg streetWidth date cloudFraction
  = roundClamp
      (bands (sunScore_diff (sunScore_az pos) orientationDeg)
             (sunScore_alt pos) streetWidth
       * attenuation cloudFraction).
Proof.
  intros pos. unfold sunScore, roundClamp, bands, attenuation. fold pos.
  f_equal. f_equal. f_equal.
  destruct (Rlt_dec (sunScore_diff (sunScore_az pos) orientationDeg) 45);
    [| destruct (Rlt_dec (sunScore_diff (sunScore_az pos) orientationDeg) 90)];
    (destruct (Rlt_dec (sunScore_alt pos) 8);
       [| destruct (Rlt_dec (sunScore_alt pos) 15)]);
    destruct (Rlt_dec (sunScore_alt pos) 20);
    destruct (streetWidth =? "narrow")%string;
    destruct (streetWidth =? "medium")%string;
    destruct cloudFraction; lra.
Qed.

(** [Spec.angularDifference] is the distance on the circle: it is one of
    the values [|a - b - 360 k|] and the least of them. *)
Lemma spec_angularDifference_minimal (a b : R) :
  0 <= Spec.angularDifference a b <= 180
  /\ (exists k : Z, Spec.angularDifference a b = Rabs (a - b - 360 * IZR k))
  /\ forall k : Z, Spec.angularDifference a b <= Rabs (a - b - 360 * IZR k).
Proof.
  unfold Spec.angularDifference, JS.Math_floor. cbv zeta.
  set (d := a - b). set (q := Int_part (d / 360)).
  assert (Hq : 360 * IZR q <= d < 360 * IZR q + 360).
  { destruct (base_Int_part (d / 360)) as [H1 H2]. fold q in H1, H2.
    assert (d = d / 360 * 360) by (field; lra). lra. }
  assert (Hk : forall k : Z,
             (k = q /\ IZR k = IZR q)
             \/ IZR k <= IZR q - 1 \/ IZR q + 1 <= IZR k).
  { intros k. destruct (Z.lt_trichotomy k q) as [H | [H | H]].
    - right. left. rewrite <- minus_IZR. apply IZR_le. lia.
    - left. split; [exact H | now rewrite H].
    - right. right. rewrite <- plus_IZR. apply IZR_le. lia. }
  unfold Rmin.
  destruct (Rle_dec (d - 360 * IZR q) (360 - (d - 360 * IZR q))) as [Hr | Hr].
  - split; [lra |]. split.
    + exists q. rewrite Rabs_right; lra.
    + intros k. unfold Rabs.
      destruct (Rcase_abs (d - 360 * IZR k));
        destruct (Hk k) as [[_ H] | [H | H]]; lra.
  - split; [lra |]. split.
    + exists (q + 1)%Z. rewrite plus_IZR. rewrite Rabs_left; lra.
    + intros k. unfold Rabs.
      destruct (Rcase_abs (d - 360 * IZR k));
        destruct (Hk k) as [[_ H] | [H | H]]; lra.
Qed.

(** The values of [sunScore] for the sun due south at 45 degrees. *)
Lemma sunScore_az_south (alt : R) :
  sunScore_az {| azimuth := 0; altitude := alt |} = 180.
Proof.
  unfold sunScore_az. simpl. rewrite toDeg_inline, toDeg_0.
  rewrite (rem360_window _ 0) by (simpl; lra). lra.
Qed.

Lemma sunScore_alt_45 (az : R) :
  sunScore_alt {| azimuth := az; altitude := PI / 4 |} = 45.
Proof.
  unfold sunScore_alt. simpl. field. apply PI_neq0.
Qed.

Lemma getSunAngles_south (alt : R) (date : Date) (lat lon : R) :
  azimuthDeg (getSunAngles (fixedSun 0 alt) date lat lon) = 180.
Proof.
  unfold getSunAngles, fixedSun. simpl. rewrite toDeg_0.
  rewrite (rem360_window _ 1) by (simpl; lra). lra.
Qed.

Lemma getSunAngles_alt_45 (az : R) (date : Date) (lat lon : R) :
  altitudeDeg (getSunAngles (fixedSun az (PI / 4)) date lat lon) = 45.
Proof.
  unfold getSunAngles, fixedSun. simpl.
  replace (PI / 4) with (/ 4 * PI) by lra. rewrite toDeg_scale. lra.
Qed.

(** The scorer over doubles, in the form of its last three steps. *)
Lemma Dbl_sunScore_bands (getPosition : Dbl.Ephemeris)
    (lat lon orientationDeg : F64.t) (streetWidth : string) (date : Date)
    (cloudFraction : option F64.t) :
  Dbl.sunScore getPosition lat lon orientationDeg streetWidth date
    cloudFraction
  = let pos := getPosition date lat lon in
    let s := bands64 (Dbl.sunScore_diff (Dbl.sunScore_az pos) orientationDeg)
                     (Dbl.sunScore_alt pos) streetWidth in
    clamp100 (F64.Math_round
                match cloudFraction with
                | Some c =>
                    F64.mul s (F64.sub (F64.int 1) (F64.mul (F64.dec 6 1) c))
                | None => s
                end).
Proof. reflexivity. Qed.

(** The running score is the sum of the three terms of the reference,
    and multiplying it by 1 changes nothing: the additions are exact on
    the 27 combinations of bands. *)
Lemma bands64_terms (diff alt : F64.t) (streetWidth : string) :
  bands64 diff alt streetWidth
  = F64.add (F64.add (Spec64.base diff) (Spec64.altitudeAdj alt))
            (Spec64.street alt streetWidth)
  /\ F64.mul (bands64 diff alt streetWidth) (F64.int 1)
     = bands64 diff alt streetWidth.
Proof.
  unfold bands64, Spec64.base, Spec64.altitudeAdj, Spec64.street. cbv zeta.
  destruct (F64.ltb diff (F64.int 45)), (F64.ltb diff (F64.int 90)),
    (F64.ltb alt (F64.int 8)), (F64.ltb alt (F64.int 15)),
    (F64.ltb alt (F64.int 20)), (streetWidth =? "narrow")%string,
    (streetWidth =? "medium")%string; split; vm_compute; reflexivity.
Qed.

(** C2 (amended): in double precision, for every ephemeris answer,
    venue, date and cloud fraction ([NaN] included), [sunScore] is the
    reference score of section 4.3 computed on the scorer's own azimuth,
    altitude and difference [min (|az - o|, 360 - |az - o|)]: the sum of
    the facing band, the altitude band and the street-width penalty,
    multiplied by [1 - 0.6 * cloudFraction] (by 1 without a cloud
    fraction), clamped to [0,100] and rounded; and that difference lies
    in [0,180] for an azimuth and an orientation in [0,360). *)
Theorem sunScore_refines_spec64 (getPosition : Dbl.Ephemeris)
    (lat lon orientationDeg : F64.t) (streetWidth : string) (date : Date)
    (cloudFraction : option F64.t) :
  Dbl.sunScore getPosition lat lon orientationDeg streetWidth date
    cloudFraction
  = Spec64.exposureScore getPosition lat lon orientationDeg streetWidth date
      cloudFraction
  /\ forall az o : R,
       0 <= az < 360 -> 0 <= o < 360 -> 0 <= sunScore_diff az o <= 180.
Proof.
  split; [| intros az o; apply sunScore_diff_range].
  rewrite Dbl_sunScore_bands. unfold Spec64.exposureScore. cbv zeta.
  change (Spec64.angularDifference (Spec64.solarAzimuth ?p) ?o)
    with (Dbl.sunScore_diff (Dbl.sunScore_az p) o).
  change (Spec64.solarAltitude ?p) with (Dbl.sunScore_alt p).
  set (diff := Dbl.sunScore_diff _ _). set (alt := Dbl.sunScore_alt _).
  destruct (bands64_terms diff alt streetWidth) as [Hb H1].
  rewrite <- Hb.
  change (Spec64.clamp ?x (F64.int 0) (F64.int 100)) with (clamp100 x).
  rewrite <- clamp100_round.
  destruct cloudFraction as [c |]; cbn [Spec64.attenuation].
  - reflexivity.
  - rewrite H1. reflexivity.
Qed.

(** C2, as stated, fails in double precision.  With the sun due south at
    45 degrees, an orientation of 120, a wide street and a cloud
    fraction of 0.5 the bands add up to 45; the code multiplies by the
    double [1 - 0.6 * 0.5] and obtains [31.499999999999996], which
    rounds to 31, where the reference in exact arithmetic obtains 31.5
    and the score 32. *)
Lemma sunScore_half_cloud_31 :
  Dbl.sunScore (Dbl.fixedSun (F64.int 0) (F64.div F64.Math_PI (F64.int 4)))
    (F64.int 48) (F64.int 2) (F64.int 120) "wide" 0%Z (Some (F64.dec 5 1))
  = F64.int 31
  /\ F64.mul (F64.int 45)
             (F64.sub (F64.int 1) (F64.mul (F64.dec 6 1) (F64.dec 5 1)))
     = F64.dec 31499999999999996 15
  /\ Spec.exposureScore (fixedSun 0 (PI / 4)) 48 2 120 "wide" 0%Z (Some 0.5)
     = 32.
Proof.
  split; [vm_compute; reflexivity |]. split; [vm_compute; reflexivity |].
  unfold Spec.exposureScore. cbv zeta.
  rewrite getSunAngles_south, getSunAngles_alt_45.
  unfold Spec.angularDifference.
  rewrite (Math_floor_unique _ 0) by lra.
  rewrite Rmin_left by lra. simpl.
  by_cases_R.
  replace ((35 + 10 + 0) * (1 - 0.6 * 0.5)) with 31.5 by lra.
  unfold Spec.round, Spec.clamp, JS.Math_round.
  rewrite (Rmin_right 100 31.5) by lra. rewrite Rmax_right by lra.
  replace (31.5 + / 2) with (IZR 32) by lra.
  apply Math_floor_IZR.
Qed.

(** C3 (amended): with a clear sky, a zero angular difference, the sun
    above 20 degrees and a wide street, [sunScore] returns 65: the facing
    band adds 55 and the altitude band 10, and nothing else is added. *)
Theorem sunScore_best_case (getPosition : Ephemeris)
    (lat lon orientationDeg : R) (date : Date) :
  let pos := getPosition date lat lon in
  sunScore_diff (sunScore_az pos) orientationDeg = 0 ->
  20 < sunScore_alt pos ->
  sunScore getPosition lat lon orientationDeg "wide" date (Some 0) = 65.
Proof.
  intros pos Hd Ha. rewrite sunScore_bands. cbv zeta. fold pos.
  rewrite Hd. unfold bands, attenuation. simpl.
  by_cases_R.
  replace ((55 + 10 + 0) * (1 - 0.6 * 0)) with 65 by lra.
  apply (roundClamp_IZR 65). lia.
Qed.

Lemma sunScore_best_case_witness :
  sunScore (fixedSun 0 (PI / 4)) 48 2 180 "wide" 0%Z (Some 0) = 65.
Proof.
  apply sunScore_best_case.
  - unfold fixedSun. rewrite sunScore_az_south.
    unfold sunScore_diff, JS.Math_abs, JS.Math_min.
    replace (180 - 180) with 0 by lra. rewrite Rabs_R0.
    rewrite Rmin_left by lra. reflexivity.
  - unfold fixedSun. rewrite sunScore_alt_45. lra.
Defined.

(** C3, as stated, fails: in the situation it describes (sun due south at
    45 degrees, terrace facing south, wide street, clear sky) the score
    is 65, not 75. *)
Lemma sunScore_best_case_not_75 :
  let pos := fixedSun 0 (PI / 4) 0%Z 48 2 in
  sunScore_diff (sunScore_az pos) 180 = 0
  /\ 20 < sunScore_alt pos
  /\ sunScore (fixedSun 0 (PI / 4)) 48 2 180 "wide" 0%Z (Some 0) <> 75.
Proof.
  cbv zeta.
  assert (Hd : sunScore_diff (sunScore_az (fixedSun 0 (PI / 4) 0%Z 48 2)) 180
               = 0).
  { unfold fixedSun. rewrite sunScore_az_south.
    unfold sunScore_diff, JS.Math_abs, JS.Math_min.
    replace (180 - 180) with 0 by lra. rewrite Rabs_R0.
    rewrite Rmin_left by lra. reflexivity. }
  assert (Ha : 20 < sunScore_alt (fixedSun 0 (PI / 4) 0%Z 48 2)).
  { unfold fixedSun. rewrite sunScore_alt_45. lra. }
  repeat split; [exact Hd | exact Ha |].
  rewrite sunScore_bands. cbv zeta. rewrite Hd.
  unfold fixedSun. rewrite sunScore_alt_45.
  unfold bands, attenuation. simpl.
  by_cases_R.
  replace ((55 + 10 + 0) * (1 - 0.6 * 0)) with 65 by lra.
  rewrite (roundClamp_IZR 65) by lia. lra.
Qed.

(** ** The shadow evaluator *)

(** [Math.atan2] ranges over (-PI, PI]. *)
Lemma atan2_range (y x : R) : - PI < JS.Math_atan2 y x <= PI.
Proof.
  pose proof PI_RGT_0 as HPI.
  unfold JS.Math_atan2.
  destruct (Rlt_dec 0 x) as [Hx | Hx].
  { destruct (atan_bound (y / x)). lra. }
  destruct (Rlt_dec x 0) as [Hx' | Hx'].
  - destruct (Rle_dec 0 y) as [Hy | Hy].
    + assert (Hq : y / x <= 0).
      { unfold Rdiv. pose proof (Rinv_lt_0_compat x Hx'). nra. }
      destruct (atan_bound (y / x)) as [Hlo _].
      assert (atan (y / x) <= 0).
      { destruct Hq as [Hq | Hq].
        - left. rewrite <- atan_0. now apply atan_increasing.
        - rewrite Hq, atan_0. lra. }
      lra.
    + assert (Hq : 0 < y / x).
      { unfold Rdiv. pose proof (Rinv_lt_0_compat x Hx'). nra. }
      destruct (atan_bound (y / x)) as [_ Hhi].
      assert (0 < atan (y / x)).
      { rewrite <- atan_0. now apply atan_increasing. }
      lra.
  - destruct (Rlt_dec 0 y); [lra |].
    destruct (Rlt_dec y 0); lra.
Qed.

(** A bearing is an angle in [0,360). *)
Lemma bearingDeg_range (lat1 lon1 lat2 lon2 : R) :
  0 <= bearingDeg lat1 lon1 lat2 lon2 < 360.
Proof.
  unfold bearingDeg. cbv zeta.
  match goal with
  | |- context [JS.Math_atan2 ?y ?x] =>
      pose proof (toDeg_range _ (atan2_range y x)) as H;
      set (t := toDeg (JS.Math_atan2 y x)) in *
  end.
  destruct (Rlt_dec t 0) as [Hn | Hp].
  - rewrite (rem360_window _ 0) by (simpl; lra). lra.
  - rewrite (rem360_window _ 1) by (simpl; lra). lra.
Qed.

Lemma distanceMeters_nonneg (lat1 lon1 lat2 lon2 : R) :
  0 <= distanceMeters lat1 lon1 lat2 lon2.
Proof. unfold distanceMeters, JS.Math_hypot. apply sqrt_pos. Qed.

Lemma deltaTo_nonneg (terrace : LatLon) (sun : SunAngles) (b : Building) :
  0 <= deltaTo terrace sun b.
Proof. unfold deltaTo, angleDiffDeg, JS.Math_abs. apply Rabs_pos. Qed.

Lemma div_le_1 (a t : R) : 0 < t -> (a / t <= 1 <-> a <= t).
Proof.
  intros Ht. assert (Ha : a = a / t * t) by (field; lra).
  split; intros H.
  - rewrite Ha. apply Rmult_le_compat_r with (r := t) in H; lra.
  - apply Rmult_le_reg_r with t; [exact Ht |]. rewrite <- Ha. lra.
Qed.

Lemma div_lt_1 (a t : R) : 0 < t -> (a / t < 1 <-> a < t).
Proof.
  intros Ht. assert (Ha : a = a / t * t) by (field; lra).
  split; intros H.
  - rewrite Ha. apply Rmult_lt_compat_r with (r := t) in H; lra.
  - apply Rmult_lt_reg_r with t; [exact Ht |]. rewrite <- Ha. lra.
Qed.

Section Shadow.

Variable terrace : LatLon.
Variable sun : SunAngles.
Variable opts : Opts.

Lemma isShaded_snoc (bs : list Building) (b : Building) :
  isShadedByBuildings terrace sun (bs ++ [b]) opts
  = shadeStep terrace sun opts (isShadedByBuildings terrace sun bs opts) b.
Proof.
  unfold isShadedByBuildings. now rewrite fold_left_app.
Qed.

Lemma shadeStep_skip (best : Shade) (b : Building) :
  distTo terrace b > maxDist opts
  \/ deltaTo terrace sun b > azTolerance opts ->
  shadeStep terrace sun opts best b = best.
Proof.
  intros H. unfold shadeStep.
  destruct (Rgt_dec (distTo terrace b) (maxDist opts)); [reflexivity |].
  destruct (Rgt_dec (deltaTo terrace sun b) (azTolerance opts));
    [reflexivity |].
  destruct H; contradiction.
Qed.

(** The three outcomes of one iteration. *)
Lemma shadeStep_cases (best : Shade) (b : Building) :
  (shadeStep terrace sun opts best b = best
   /\ (passes terrace sun opts b -> elevOf terrace b >= altitudeDeg sun ->
       confOf terrace sun opts b <= confidence best))
  \/ (shadeStep terrace sun opts best b
      = {| shaded := true;
           confidence := confOf terrace sun opts b;
           culprit := Some b |}
      /\ passes terrace sun opts b
      /\ elevOf terrace b >= altitudeDeg sun
      /\ confOf terrace sun opts b > confidence best).
Proof.
  unfold shadeStep, passes, confOf, JS.Math_min.
  destruct (Rgt_dec (distTo terrace b) (maxDist opts)) as [Hd | Hd].
  { left. split; [reflexivity | intros [H _]; lra]. }
  destruct (Rgt_dec (deltaTo terrace sun b) (azTolerance opts)) as [Ha | Ha].
  { left. split; [reflexivity | intros [_ H]; lra]. }
  destruct (Rge_dec (elevOf terrace b) (altitudeDeg sun)) as [He | He].
  2: { left. split; [reflexivity | intros _ H; contradiction]. }
  match goal with
  | |- context [Rgt_dec ?c (confidence best)] =>
      destruct (Rgt_dec c (confidence best)) as [Hc | Hc]
  end.
  - right. repeat split; try reflexivity; try assumption; lra.
  - left. split; [reflexivity | intros _ _; lra].
Qed.

Lemma isShaded_bestOf (bs : list Building) :
  bestOf terrace sun opts bs (isShadedByBuildings terrace sun bs opts).
Proof.
  induction bs as [| b bs IH] using rev_ind.
  - unfold bestOf. simpl. repeat split; [now left | lra | intros b []].
  - rewrite isShaded_snoc.
    destruct IH as (Hshape & Hpos & Hmax).
    destruct (shadeStep_cases (isShadedByBuildings terrace sun bs opts) b)
      as [[-> Hle] | (-> & Hp & He & Hgt)].
    + repeat split.
      * destruct Hshape as [-> | (c & Hin & Hc)]; [now left |].
        right. exists c. split; [apply in_or_app; now left | exact Hc].
      * exact Hpos.
      * intros b' Hin Hp' He'. apply in_app_or in Hin.
        destruct Hin as [Hin | [<- | []]]; [now apply Hmax | now apply Hle].
    + repeat split.
      * right. exists b. repeat split; try assumption.
        -- apply in_or_app. right. now left.
        -- apply Hp.
        -- apply Hp.
        -- lra.
      * simpl. lra.
      * simpl. intros b' Hin Hp' He'. apply in_app_or in Hin.
        destruct Hin as [Hin | [<- | []]]; [| lra].
        specialize (Hmax b' Hin Hp' He'). lra.
Qed.

(** Removing a building that fails a filter changes nothing. *)
Lemma isShaded_drop (bs1 bs2 : list Building) (b : Building) :
  distTo terrace b > maxDist opts
  \/ deltaTo terrace sun b > azTolerance opts ->
  isShadedByBuildings terrace sun (bs1 ++ b :: bs2) opts
  = isShadedByBuildings terrace sun (bs1 ++ bs2) opts.
Proof.
  intros H. unfold isShadedByBuildings.
  rewrite !fold_left_app. simpl.
  now rewrite shadeStep_skip.
Qed.

Lemma culprit_passes (bs : list Building) (c : Building) :
  culprit (isShadedByBuildings terrace sun bs opts) = Some c ->
  In c bs /\ passes terrace sun opts c /\ elevOf terrace c >= altitudeDeg sun
  /\ confOf terrace sun opts c > 0
  /\ confidence (isShadedByBuildings terrace sun bs opts)
     = confOf terrace sun opts c.
Proof.
  intros Hc. destruct (isShaded_bestOf bs) as ([Hr | (c' & Hin & Hp & He & Hg & Hr)] & _).
  - rewrite Hr in Hc. discriminate.
  - rewrite Hr in Hc |- *. simpl in *. injection Hc as <-. tauto.
Qed.

Lemma shaded_culprit (bs : list Building) :
  shaded (isShadedByBuildings terrace sun bs opts) = true ->
  exists c, culprit (isShadedByBuildings terrace sun bs opts) = Some c.
Proof.
  intros Hs. destruct (isShaded_bestOf bs) as ([Hr | (c & _ & _ & _ & _ & Hr)] & _).
  - rewrite Hr in Hs. discriminate.
  - exists c. now rewrite Hr.
Qed.

Lemma confidence_pos_shaded (bs : list Building) :
  0 < confidence (isShadedByBuildings terrace sun bs opts) ->
  shaded (isShadedByBuildings terrace sun bs opts) = true.
Proof.
  intros Hs. destruct (isShaded_bestOf bs) as ([Hr | (c & _ & _ & _ & _ & Hr)] & _).
  - rewrite Hr in Hs. simpl in Hs. lra.
  - now rewrite Hr.
Qed.

(** With a positive tolerance, the confidence of a passing building is
    positive exactly when it rises strictly above the sun strictly
    inside the tolerance. *)
Lemma confOf_pos (b : Building) :
  0 < azTolerance opts ->
  passes terrace sun opts b -> elevOf terrace b >= altitudeDeg sun ->
  (confOf terrace sun opts b > 0
   <-> elevOf terrace b > altitudeDeg sun
       /\ deltaTo terrace sun b < azTolerance opts).
Proof.
  intros Ht [_ Hd] He. unfold confOf.
  set (m := (elevOf terrace b - altitudeDeg sun) / 10).
  set (w := 1 - deltaTo terrace sun b / azTolerance opts).
  assert (Hm : 0 <= m) by (unfold m; lra).
  assert (Hq : deltaTo terrace sun b / azTolerance opts <= 1).
  { now apply (div_le_1 _ _ Ht). }
  assert (Hw : 0 <= w) by (unfold w; lra).
  split.
  - intros Hpos.
    assert (Hmw : 0 < m * w).
    { unfold Rmin in Hpos. destruct (Rle_dec 1 (m * w)); lra. }
    assert (0 < m) by nra. assert (0 < w) by nra.
    split; [unfold m in *; lra |].
    assert (Hq' : deltaTo terrace sun b / azTolerance opts < 1)
      by (unfold w in H0; clear - H0; lra).
    now apply (div_lt_1 _ _ Ht) in Hq'.
  - intros [He' Hd'].
    assert (0 < m) by (unfold m; lra).
    assert (Hq' : deltaTo terrace sun b / azTolerance opts < 1).
    { now apply (div_lt_1 _ _ Ht). }
    assert (0 < w) by (unfold w; lra).
    assert (0 < m * w) by (apply Rmult_lt_0_compat; assumption).
    unfold Rmin. destruct (Rle_dec 1 (m * w)); lra.
Qed.

Lemma confOf_nonneg (b : Building) :
  0 < azTolerance opts ->
  passes terrace sun opts b -> elevOf terrace b >= altitudeDeg sun ->
  0 <= confOf terrace sun opts b.
Proof.
  intros Ht [_ Hd] He. unfold confOf.
  assert (Hq : deltaTo terrace sun b / azTolerance opts <= 1).
  { now apply (div_le_1 _ _ Ht). }
  apply Rmin_glb; [lra |].
  apply Rmult_le_pos; lra.
Qed.

(** The result for a single building. *)
Lemma isShaded_single (b : Building) :
  0 < azTolerance opts ->
  passes terrace sun opts b -> elevOf terrace b >= altitudeDeg sun ->
  confidence (isShadedByBuildings terrace sun [b] opts)
  = confOf terrace sun opts b
  /\ (shaded (isShadedByBuildings terrace sun [b] opts) = true
      <-> confOf terrace sun opts b > 0)
  /\ (shaded (isShadedByBuildings terrace sun [b] opts) = true ->
      culprit (isShadedByBuildings terrace sun [b] opts) = Some b).
Proof.
  intros Ht Hp He.
  pose proof (confOf_nonneg b Ht Hp He) as Hnn.
  change (isShadedByBuildings terrace sun [b] opts) with (shadeStep terrace sun opts noShade b).
  destruct (shadeStep_cases noShade b) as [[-> Hle] | (-> & _ & _ & Hgt)];
    simpl in *.
  - specialize (Hle Hp He). repeat split; try lra; try discriminate.
  - repeat split; auto.
Qed.

End Shadow.

(** C4: a building farther than [maxDist] (80 m by default), or whose
    bearing differs from [(azimuth + 180) mod 360] by more than
    [azTolerance] (25 degrees by default), has no effect on the result of
    [isShadedByBuildings]: the result is the one obtained without the
    building, whatever its height, and the building is never the culprit;
    a culprit always passes both filters. *)
Theorem isShaded_ignores_filtered (terrace : LatLon) (sun : SunAngles)
    (opts : Opts) (bs1 bs2 : list Building) (b : Building) :
  distTo terrace b > maxDist opts
  \/ angleDiffDeg
       (bearingDeg (lat terrace) (lon terrace)
                   (lat (centroid b)) (lon (centroid b)))
       ((azimuthDeg sun + 180) %% 360)
     > azTolerance opts ->
  isShadedByBuildings terrace sun (bs1 ++ b :: bs2) opts
  = isShadedByBuildings terrace sun (bs1 ++ bs2) opts
  /\ culprit (isShadedByBuildings terrace sun (bs1 ++ b :: bs2) opts)
     <> Some b
  /\ forall c,
       culprit (isShadedByBuildings terrace sun (bs1 ++ b :: bs2) opts)
       = Some c ->
       distTo terrace c <= maxDist opts
       /\ deltaTo terrace sun c <= azTolerance opts.
Proof.
  intros H. split; [now apply isShaded_drop |]. split.
  - intros Hc. apply culprit_passes in Hc.
    destruct Hc as (_ & [Hd Ha] & _).
    unfold deltaTo, azUpSun in Ha. destruct H; lra.
  - intros c Hc. apply culprit_passes in Hc. apply Hc.
Qed.

Lemma distance_same_lon (lat1 lat2 lon0 : R) :
  lat1 <= lat2 ->
  distanceMeters lat1 lon0 lat2 lon0 = (lat2 - lat1) * 111132.
Proof.
  intros H. unfold distanceMeters, JS.Math_hypot.
  replace ((lon0 - lon0) * (111320 * cos (toRad ((lat1 + lat2) / 2))))
    with 0 by ring.
  replace (0 * 0 + (lat2 - lat1) * 111132 * ((lat2 - lat1) * 111132))
    with (((lat2 - lat1) * 111132) * ((lat2 - lat1) * 111132)) by ring.
  apply sqrt_square. nra.
Qed.

Lemma toRad_minus (x y : R) : toRad x - toRad y = (x - y) * (PI / 180).
Proof. unfold toRad, RAD. field. apply PI_neq0. Qed.

Lemma atan2_atan (y x : R) : 0 < x -> JS.Math_atan2 y x = atan (y / x).
Proof.
  intros H. unfold JS.Math_atan2.
  destruct (Rlt_dec 0 x); [reflexivity | contradiction].
Qed.

Lemma atan2_0_pos (x : R) : 0 < x -> JS.Math_atan2 0 x = 0.
Proof.
  intros H. unfold JS.Math_atan2.
  destruct (Rlt_dec 0 x); [| contradiction].
  replace (0 / x) with 0 by (field; lra). apply atan_0.
Qed.

Lemma atan2_pos_pos (y x : R) : 0 < y -> 0 < x -> 0 < JS.Math_atan2 y x.
Proof.
  intros Hy Hx. unfold JS.Math_atan2.
  destruct (Rlt_dec 0 x); [| contradiction].
  rewrite <- atan_0. apply atan_increasing.
  now apply Rdiv_lt_0_compat.
Qed.

Lemma bearing_due_north (lat1 lat2 lon0 : R) :
  lat1 < lat2 < lat1 + 180 ->
  bearingDeg lat1 lon0 lat2 lon0 = 0.
Proof.
  intros [Hlo Hhi]. unfold bearingDeg. cbv zeta.
  replace (toRad lon0 - toRad lon0) with 0 by ring.
  rewrite sin_0, cos_0.
  replace (cos (toRad lat1) * sin (toRad lat2)
           - sin (toRad lat1) * cos (toRad lat2) * 1)
    with (sin (toRad lat2 - toRad lat1)) by (rewrite sin_minus; ring).
  rewrite Rmult_0_l, atan2_0_pos.
  - rewrite toDeg_0. rewrite (rem360_window _ 1) by (simpl; lra). lra.
  - rewrite toRad_minus. pose proof PI_RGT_0 as HPI.
    apply sin_gt_0; nra.
Qed.

Lemma azUpSun_south (alt : R) :
  azUpSun {| azimuthDeg := 180; altitudeDeg := alt |} = 0.
Proof.
  unfold azUpSun. simpl. rewrite (rem360_window _ 1) by (simpl; lra). lra.
Qed.

Lemma northBuilding_dist (h : R) : distTo paris (northBuilding h) = 55.566.
Proof.
  unfold distTo, paris, northBuilding. simpl.
  rewrite distance_same_lon by lra. lra.
Qed.

Lemma northBuilding_delta (h alt : R) :
  deltaTo paris {| azimuthDeg := 180; altitudeDeg := alt |} (northBuilding h)
  = 0.
Proof.
  unfold deltaTo, paris, northBuilding. simpl.
  rewrite bearing_due_north by lra.
  rewrite azUpSun_south. apply angleDiffDeg_0_0.
Qed.

Lemma northBuilding_passes (h alt : R) :
  passes paris {| azimuthDeg := 180; altitudeDeg := alt |} defaultOpts
         (northBuilding h).
Proof.
  unfold passes. rewrite northBuilding_dist, northBuilding_delta. simpl. lra.
Qed.

Lemma northBuilding_elev_0 : elevOf paris (northBuilding 0) = 0.
Proof.
  unfold elevOf. rewrite northBuilding_dist. simpl.
  rewrite or0_id, atan2_0_pos by lra. apply toDeg_0.
Qed.

Lemma northBuilding_elev_pos (h : R) :
  0 < h -> 0 < elevOf paris (northBuilding h).
Proof.
  intros Hh. unfold elevOf. rewrite northBuilding_dist. simpl.
  rewrite or0_id. rewrite <- toDeg_0. apply toDeg_lt.
  apply atan2_pos_pos; lra.
Qed.

Lemma farTower_dist : distTo paris farTower = 111132.
Proof.
  unfold distTo, paris, farTower. simpl.
  rewrite distance_same_lon by lra. lra.
Qed.

Lemma isShaded_ignores_filtered_witness :
  isShadedByBuildings paris sunSouthHorizon
    ([northBuilding 12] ++ farTower :: []) defaultOpts
  = isShadedByBuildings paris sunSouthHorizon
      ([northBuilding 12] ++ []) defaultOpts
  /\ culprit (isShadedByBuildings paris sunSouthHorizon
                ([northBuilding 12] ++ farTower :: []) defaultOpts)
     <> Some farTower
  /\ forall c,
       culprit (isShadedByBuildings paris sunSouthHorizon
                  ([northBuilding 12] ++ farTower :: []) defaultOpts)
       = Some c ->
       distTo paris c <= maxDist defaultOpts
       /\ deltaTo paris sunSouthHorizon c <= azTolerance defaultOpts.
Proof.
  apply isShaded_ignores_filtered.
  left. rewrite farTower_dist. simpl. lra.
Defined.

Lemma isShaded_single_iff (terrace : LatLon) (sun : SunAngles) (opts : Opts)
    (b : Building) :
  0 < azTolerance opts -> passes terrace sun opts b ->
  (shaded (isShadedByBuildings terrace sun [b] opts) = true
   <-> elevOf terrace b > altitudeDeg sun
       /\ deltaTo terrace sun b < azTolerance opts)
  /\ (shaded (isShadedByBuildings terrace sun [b] opts) = true ->
      culprit (isShadedByBuildings terrace sun [b] opts) = Some b).
Proof.
  intros Ht Hp.
  destruct (Rge_dec (elevOf terrace b) (altitudeDeg sun)) as [He | He].
  - destruct (isShaded_single terrace sun opts b Ht Hp He) as (_ & Hs & Hc).
    split; [| exact Hc].
    rewrite Hs. now apply confOf_pos.
  - change (isShadedByBuildings terrace sun [b] opts)
      with (shadeStep terrace sun opts noShade b).
    destruct (shadeStep_cases terrace sun opts noShade b)
      as [[-> _] | (_ & _ & He' & _)]; [| contradiction].
    simpl. split; [| discriminate].
    split; [discriminate | intros [H _]; lra].
Qed.

Lemma isShaded_some_occluder (terrace : LatLon) (sun : SunAngles)
    (opts : Opts) (bs : list Building) (b : Building) :
  0 < azTolerance opts -> In b bs -> passes terrace sun opts b ->
  elevOf terrace b > altitudeDeg sun ->
  deltaTo terrace sun b < azTolerance opts ->
  shaded (isShadedByBuildings terrace sun bs opts) = true.
Proof.
  intros Ht Hin Hp He Hd.
  assert (He' : elevOf terrace b >= altitudeDeg sun) by lra.
  apply confidence_pos_shaded.
  destruct (isShaded_bestOf terrace sun opts bs) as (_ & _ & Hmax).
  specialize (Hmax b Hin Hp He').
  assert (confOf terrace sun opts b > 0) by (apply confOf_pos; auto).
  lra.
Qed.

(** C5 (amended): a building that passes both filters shades the venue,
    alone, exactly when its apparent elevation is strictly greater than
    the solar altitude and its azimuth difference strictly smaller than
    the tolerance, and it is then the culprit; in a list such a building
    makes the result shaded, and a culprit is always such a building. *)
Theorem occlusion_strict (terrace : LatLon) (sun : SunAngles) (opts : Opts)
    (bs : list Building) (b : Building) :
  0 < azTolerance opts -> In b bs ->
  distTo terrace b <= maxDist opts ->
  deltaTo terrace sun b <= azTolerance opts ->
  (shaded (isShadedByBuildings terrace sun [b] opts) = true
   <-> toDeg (JS.Math_atan2 (JS.or0 (height_m b)) (distTo terrace b))
       > altitudeDeg sun
       /\ deltaTo terrace sun b < azTolerance opts)
  /\ (shaded (isShadedByBuildings terrace sun [b] opts) = true ->
      culprit (isShadedByBuildings terrace sun [b] opts) = Some b)
  /\ (elevOf terrace b > altitudeDeg sun
      /\ deltaTo terrace sun b < azTolerance opts ->
      shaded (isShadedByBuildings terrace sun bs opts) = true)
  /\ (culprit (isShadedByBuildings terrace sun bs opts) = Some b ->
      elevOf terrace b > altitudeDeg sun
      /\ deltaTo terrace sun b < azTolerance opts)
  /\ (0 < distTo terrace b ->
      elevOf terrace b = toDeg (atan (height_m b / distTo terrace b))).
Proof.
  intros Ht Hin Hd Ha.
  assert (Hp : passes terrace sun opts b) by (split; assumption).
  destruct (isShaded_single_iff terrace sun opts b Ht Hp) as [Hiff Hc].
  split; [exact Hiff |]. split; [exact Hc |]. split; [| split].
  - intros [He Hd']. now apply (isShaded_some_occluder terrace sun opts bs b).
  - intros Hcul. apply culprit_passes in Hcul.
    destruct Hcul as (_ & _ & He & Hpos & _).
    now apply (confOf_pos terrace sun opts b Ht Hp He).
  - intros Hpos. unfold elevOf. now rewrite or0_id, atan2_atan.
Qed.

Lemma occlusion_strict_witness :
  (shaded (isShadedByBuildings paris sunSouthHorizon [northBuilding 12]
             defaultOpts) = true
   <-> toDeg (JS.Math_atan2 (JS.or0 (height_m (northBuilding 12)))
                            (distTo paris (northBuilding 12)))
       > altitudeDeg sunSouthHorizon
       /\ deltaTo paris sunSouthHorizon (northBuilding 12)
          < azTolerance defaultOpts)
  /\ (shaded (isShadedByBuildings paris sunSouthHorizon [northBuilding 12]
                defaultOpts) = true ->
      culprit (isShadedByBuildings paris sunSouthHorizon [northBuilding 12]
                 defaultOpts) = Some (northBuilding 12))
  /\ (elevOf paris (northBuilding 12) > altitudeDeg sunSouthHorizon
      /\ deltaTo paris sunSouthHorizon (northBuilding 12)
         < azTolerance defaultOpts ->
      shaded (isShadedByBuildings paris sunSouthHorizon [northBuilding 12]
                defaultOpts) = true)
  /\ (culprit (isShadedByBuildings paris sunSouthHorizon [northBuilding 12]
                 defaultOpts) = Some (northBuilding 12) ->
      elevOf paris (northBuilding 12) > altitudeDeg sunSouthHorizon
      /\ deltaTo paris sunSouthHorizon (northBuilding 12)
         < azTolerance defaultOpts)
  /\ (0 < distTo paris (northBuilding 12) ->
      elevOf paris (northBuilding 12)
      = toDeg (atan (height_m (northBuilding 12)
                     / distTo paris (northBuilding 12)))).
Proof.
  apply occlusion_strict.
  - simpl. lra.
  - now left.
  - apply (northBuilding_passes 12 0).
  - apply (northBuilding_passes 12 0).
Defined.

(** C5, as stated, fails at the boundary: a building 55.566 m due north
    of the terrace with apparent elevation 0, the sun due south on the
    horizon (altitude 0).  The building passes both filters and its
    elevation equals the solar altitude, and the venue is not shaded. *)
Lemma boundary_elevation_not_shaded :
  distTo paris (northBuilding 0) <= maxDist defaultOpts
  /\ deltaTo paris sunSouthHorizon (northBuilding 0)
     <= azTolerance defaultOpts
  /\ toDeg (JS.Math_atan2 (JS.or0 (height_m (northBuilding 0)))
                          (distTo paris (northBuilding 0)))
     >= altitudeDeg sunSouthHorizon
  /\ isShadedByBuildings paris sunSouthHorizon [northBuilding 0] defaultOpts
     = {| shaded := false; confidence := 0; culprit := None |}.
Proof.
  pose proof (northBuilding_passes 0 0) as Hp.
  fold sunSouthHorizon in Hp.
  assert (He : elevOf paris (northBuilding 0) >= altitudeDeg sunSouthHorizon).
  { rewrite northBuilding_elev_0. simpl. lra. }
  split; [apply Hp |]. split; [apply Hp |]. split; [exact He |].
  change (isShadedByBuildings paris sunSouthHorizon [northBuilding 0]
            defaultOpts)
    with (shadeStep paris sunSouthHorizon defaultOpts noShade (northBuilding 0)).
  destruct (shadeStep_cases paris sunSouthHorizon defaultOpts noShade
              (northBuilding 0)) as [[-> _] | (_ & _ & _ & Hgt)];
    [reflexivity |].
  exfalso. unfold confOf in Hgt. rewrite northBuilding_elev_0 in Hgt.
  simpl in Hgt.
  unfold Rmin in Hgt. destruct (Rle_dec _ _) in Hgt; lra.
Qed.

(** C6: for a building that passes both filters and rises at least as
    high as the sun, the confidence is
    [min (1, ((elev - alt) / 10) * (1 - delta / azTolerance))]: this is
    what is reported when the building is evaluated alone or is the
    culprit, and a lower bound of the reported confidence otherwise; it
    is 0 when [delta] equals the tolerance and 1 when [delta] is 0 and
    the elevation margin is at least 10 degrees. *)
Theorem confidence_formula (terrace : LatLon) (sun : SunAngles) (opts : Opts)
    (bs : list Building) (b : Building) :
  let elev := toDeg (JS.Math_atan2 (JS.or0 (height_m b)) (distTo terrace b)) in
  let delta := deltaTo terrace sun b in
  let conf :=
    Rmin 1 (((elev - altitudeDeg sun) / 10) * (1 - delta / azTolerance opts)) in
  0 < azTolerance opts -> In b bs ->
  distTo terrace b <= maxDist opts ->
  delta <= azTolerance opts ->
  elev >= altitudeDeg sun ->
  confidence (isShadedByBuildings terrace sun [b] opts) = conf
  /\ conf <= confidence (isShadedByBuildings terrace sun bs opts)
  /\ (culprit (isShadedByBuildings terrace sun bs opts) = Some b ->
      confidence (isShadedByBuildings terrace sun bs opts) = conf)
  /\ (delta = azTolerance opts ->
      confidence (isShadedByBuildings terrace sun [b] opts) = 0)
  /\ (delta = 0 -> elev - altitudeDeg sun >= 10 ->
      confidence (isShadedByBuildings terrace sun [b] opts) = 1).
Proof.
  intros elev delta conf Ht Hin Hd Ha He.
  assert (Hp : passes terrace sun opts b) by (split; assumption).
  destruct (isShaded_single terrace sun opts b Ht Hp He) as (Hc & _ & _).
  change (confOf terrace sun opts b) with conf in Hc.
  repeat split.
  - exact Hc.
  - destruct (isShaded_bestOf terrace sun opts bs) as (_ & _ & Hmax).
    exact (Hmax b Hin Hp He).
  - intros Hcul. apply culprit_passes in Hcul. apply Hcul.
  - intros Hb. rewrite Hc. unfold conf. rewrite Hb.
    replace (azTolerance opts / azTolerance opts) with 1 by (field; lra).
    replace ((elev - altitudeDeg sun) / 10 * (1 - 1)) with 0 by lra.
    apply Rmin_right. lra.
  - intros Hb Hm. rewrite Hc. unfold conf. rewrite Hb.
    replace (0 / azTolerance opts) with 0 by (field; lra).
    apply Rmin_left. lra.
Qed.

Lemma confidence_formula_witness :
  let terrace := paris in
  let sun := sunSouthHorizon in
  let opts := defaultOpts in
  let bs := [northBuilding 12] in
  let b := northBuilding 12 in
  let elev := toDeg (JS.Math_atan2 (JS.or0 (height_m b)) (distTo terrace b)) in
  let delta := deltaTo terrace sun b in
  let conf :=
    Rmin 1 (((elev - altitudeDeg sun) / 10) * (1 - delta / azTolerance opts)) in
  confidence (isShadedByBuildings terrace sun [b] opts) = conf
  /\ conf <= confidence (isShadedByBuildings terrace sun bs opts)
  /\ (culprit (isShadedByBuildings terrace sun bs opts) = Some b ->
      confidence (isShadedByBuildings terrace sun bs opts) = conf)
  /\ (delta = azTolerance opts ->
      confidence (isShadedByBuildings terrace sun [b] opts) = 0)
  /\ (delta = 0 -> elev - altitudeDeg sun >= 10 ->
      confidence (isShadedByBuildings terrace sun [b] opts) = 1).
Proof.
  apply confidence_formula.
  - simpl. lra.
  - now left.
  - apply (northBuilding_passes 12 0).
  - apply (northBuilding_passes 12 0).
  - pose proof (northBuilding_elev_pos 12) as H. unfold elevOf in H.
    simpl altitudeDeg. lra.
Defined.

(** ** The per-terrace score and the forecast *)





(** C8: every score is an integer between 0 and 100: the result of
    [sunScore], for any position the ephemeris returns and any cloud
    fraction, present or not, the shade-attenuated score of a terrace and
    the score of every forecast point.  The functions are total. *)
Theorem scores_integer_0_100 (getPosition : Ephemeris)
    (lat lon orientationDeg : R) (streetWidth : string) (date : Date)
    (cloudFraction : option R) (buildings : list Building) (now : Date)
    (forecast : bool) (p : Place) :
  (exists n : Z,
      (0 <= n <= 100)%Z
      /\ sunScore getPosition lat lon orientationDeg streetWidth date
           cloudFraction = IZR n)
  /\ (exists n : Z,
         (0 <= n <= 100)%Z
         /\ item_sunScore
              (nearbyItem getPosition buildings cloudFraction now forecast p)
            = IZR n)
  /\ match
       item_forecast
         (nearbyItem getPosition buildings cloudFraction now forecast p)
     with
     | Some pts =>
         Forall (fun pt => exists n : Z, (0 <= n <= 100)%Z /\ score pt = IZR n)
                pts
     | None => True
     end.
Proof.
  split; [| split].
  - rewrite sunScore_bands. apply roundClamp_int.
  - unfold nearbyItem. cbn [item_sunScore]. apply roundClamp_int.
  - destruct forecast; [| exact I].
    unfold nearbyItem. cbn [item_forecast].
    apply Forall_forall. intros pt Hin.
    apply in_map_iff in Hin. destruct Hin as (min & <- & _).
    cbn [score]. apply roundClamp_int.
Qed.

(** Fully overcast sky and the sun below the horizon: the score is 0. *)
Example sunScore_night_overcast :
  sunScore (fixedSun 0 (- (PI / 4))) 48 2 0 "narrow" 0%Z (Some 1) = 0.
Proof.
  rewrite sunScore_bands. cbv zeta. unfold fixedSun.
  rewrite sunScore_az_south.
  assert (Ha : sunScore_alt {| azimuth := 0; altitude := - (PI / 4) |} = -45).
  { unfold sunScore_alt. simpl. field. apply PI_neq0. }
  rewrite Ha.
  unfold bands, attenuation, sunScore_diff, JS.Math_abs, JS.Math_min.
  replace (180 - 0) with 180 by lra.
  rewrite Rabs_right by lra. rewrite Rmin_left by lra. simpl.
  by_cases_R.
  rewrite roundClamp_spec. unfold Spec.clamp, Spec.round.
  rewrite Rmin_right by lra. rewrite Rmax_left by lra.
  apply (Math_round_IZR 0).
Qed.

(** A 12 m building 55.566 m due north, the sun due south on the horizon:
    the building is the culprit, with the confidence of the formula. *)
Example northBuilding_12_shades :
  let r :=
    isShadedByBuildings paris sunSouthHorizon [northBuilding 12] defaultOpts in
  shaded r = true
  /\ culprit r = Some (northBuilding 12)
  /\ confidence r
     = Rmin 1 (toDeg (atan (12 / 55.566)) / 10).
Proof.
  cbv zeta.
  pose proof (northBuilding_passes 12 0) as Hp. fold sunSouthHorizon in Hp.
  pose proof (northBuilding_elev_pos 12 ltac:(lra)) as He.
  assert (Hd : deltaTo paris sunSouthHorizon (northBuilding 12) = 0)
    by apply northBuilding_delta.
  destruct (isShaded_single_iff paris sunSouthHorizon defaultOpts
              (northBuilding 12)) as [Hiff Hc]; [simpl; lra | exact Hp |].
  assert (Hs : shaded (isShadedByBuildings paris sunSouthHorizon
                         [northBuilding 12] defaultOpts) = true).
  { apply Hiff. rewrite Hd. simpl. lra. }
  split; [exact Hs |]. split; [exact (Hc Hs) |].
  destruct (isShaded_single paris sunSouthHorizon defaultOpts
              (northBuilding 12)) as (-> & _); [simpl; lra | exact Hp | |].
  - simpl altitudeDeg. lra.
  - unfold confOf. rewrite Hd. unfold elevOf.
    rewrite northBuilding_dist. simpl.
    rewrite or0_id, atan2_atan by lra.
    f_equal. lra.
Qed.

(** * Further properties of the code *)

(** ** The shade module: conversions, bearing and distance *)

Lemma bearing_same_point (lat0 lon0 : R) : bearingDeg lat0 lon0 lat0 lon0 = 0.
Proof.
  unfold bearingDeg. cbv zeta.
  replace (toRad lon0 - toRad lon0) with 0 by ring.
  rewrite sin_0, cos_0.
  replace (cos (toRad lat0) * sin (toRad lat0)
           - sin (toRad lat0) * cos (toRad lat0) * 1) with 0 by ring.
  rewrite Rmult_0_l.
  unfold JS.Math_atan2. destruct (Rlt_dec 0 0) as [C | _]; [lra |].
  rewrite toDeg_0. rewrite (rem360_window _ 1) by (simpl; lra). lra.
Qed.

Lemma bearing_due_south (lat1 lat2 lon0 : R) :
  lat1 - 180 < lat2 < lat1 ->
  bearingDeg lat1 lon0 lat2 lon0 = 180.
Proof.
  intros [Hlo Hhi]. unfold bearingDeg. cbv zeta.
  replace (toRad lon0 - toRad lon0) with 0 by ring.
  rewrite sin_0, cos_0.
  replace (cos (toRad lat1) * sin (toRad lat2)
           - sin (toRad lat1) * cos (toRad lat2) * 1)
    with (- sin (toRad lat1 - toRad lat2)) by (rewrite sin_minus; ring).
  rewrite Rmult_0_l.
  assert (Hs : 0 < sin (toRad lat1 - toRad lat2)).
  { rewrite toRad_minus. pose proof PI_RGT_0 as HPI. apply sin_gt_0; nra. }
  unfold JS.Math_atan2.
  destruct (Rlt_dec 0 (- sin (toRad lat1 - toRad lat2))) as [C | _]; [lra |].
  destruct (Rlt_dec (- sin (toRad lat1 - toRad lat2)) 0) as [_ | C]; [| lra].
  destruct (Rle_dec 0 0) as [_ | C]; [| lra].
  replace (0 / - sin (toRad lat1 - toRad lat2)) with 0 by (field; lra).
  rewrite atan_0, Rplus_0_l, toDeg_PI.
  rewrite (rem360_window _ 1) by (simpl; lra). lra.
Qed.

(** X2: [bearingDeg] always returns a bearing in [0,360); it is 0 for a
    point and itself, 0 towards a point due north (same longitude, less
    than 180 degrees of latitude further) and 180 towards a point due
    south. *)
Theorem bearingDeg_compass (lat1 lon1 lat2 lon2 : R) :
  0 <= bearingDeg lat1 lon1 lat2 lon2 < 360
  /\ bearingDeg lat1 lon1 lat1 lon1 = 0
  /\ (lat1 < lat2 < lat1 + 180 -> bearingDeg lat1 lon1 lat2 lon1 = 0)
  /\ (lat1 - 180 < lat2 < lat1 -> bearingDeg lat1 lon1 lat2 lon1 = 180).
Proof.
  split; [apply bearingDeg_range |].
  split; [apply bearing_same_point |].
  split; [apply bearing_due_north | apply bearing_due_south].
Qed.

Lemma bearingDeg_compass_witness :
  0 <= bearingDeg 48 2 49 2 < 360
  /\ bearingDeg 48 2 48 2 = 0
  /\ bearingDeg 48 2 49 2 = 0
  /\ (48 - 180 < 49 < 48 -> bearingDeg 48 2 49 2 = 180).
Proof.
  destruct (bearingDeg_compass 48 2 49 2) as (H1 & H2 & H3 & H4).
  split; [exact H1 |]. split; [exact H2 |]. split; [apply H3; lra | exact H4].
Defined.

(** X3: [distanceMeters] is symmetric and non-negative, it is 0 from a
    point to itself, and along a meridian it is 111132 m per degree of
    latitude. *)
Theorem distanceMeters_metric (lat1 lon1 lat2 lon2 : R) :
  distanceMeters lat1 lon1 lat2 lon2 = distanceMeters lat2 lon2 lat1 lon1
  /\ 0 <= distanceMeters lat1 lon1 lat2 lon2
  /\ distanceMeters lat1 lon1 lat1 lon1 = 0
  /\ distanceMeters lat1 lon1 lat2 lon1 = Rabs (lat2 - lat1) * 111132.
Proof.
  split; [| split; [apply distanceMeters_nonneg | split]].
  - unfold distanceMeters, JS.Math_hypot. cbv zeta.
    replace ((lat2 + lat1) / 2) with ((lat1 + lat2) / 2) by lra.
    f_equal. ring.
  - rewrite distance_same_lon by lra.
    replace (lat1 - lat1) with 0 by ring. ring.
  - destruct (Rle_dec lat1 lat2) as [H | H].
    + rewrite distance_same_lon by exact H. rewrite Rabs_right; lra.
    + unfold distanceMeters, JS.Math_hypot. cbv zeta.
      replace ((lon1 - lon1) * (111320 * cos (toRad ((lat1 + lat2) / 2)))
               * ((lon1 - lon1) * (111320 * cos (toRad ((lat1 + lat2) / 2))))
               + (lat2 - lat1) * 111132 * ((lat2 - lat1) * 111132))
        with (((lat1 - lat2) * 111132) * ((lat1 - lat2) * 111132)) by ring.
      rewrite sqrt_square by nra. rewrite Rabs_left; lra.
Qed.

(** ** The shadow evaluator: direction, result and order *)

Lemma azUpSun_closed (sun : SunAngles) :
  0 <= azimuthDeg sun < 360 ->
  azUpSun sun
  = (if Rlt_dec (azimuthDeg sun) 180
     then azimuthDeg sun + 180 else azimuthDeg sun - 180).
Proof.
  intros H. unfold azUpSun.
  destruct (Rlt_dec (azimuthDeg sun) 180).
  - rewrite (rem360_window _ 0) by (simpl; lra). lra.
  - rewrite (rem360_window _ 1) by (simpl; lra). lra.
Qed.

Lemma azUpSun_delta_180 (sun : SunAngles) :
  0 <= azimuthDeg sun < 360 ->
  angleDiffDeg (azimuthDeg sun) (azUpSun sun) = 180.
Proof.
  intros H. rewrite azUpSun_closed by exact H.
  unfold angleDiffDeg, JS.Math_abs.
  destruct (Rlt_dec (azimuthDeg sun) 180).
  - rewrite rem_wrap by lra. by_cases_R. rewrite Rabs_left; lra.
  - rewrite rem_wrap by lra. by_cases_R. rewrite Rabs_left; lra.
Qed.

(** X4: [azUpSun], the direction in which [isShadedByBuildings] looks for
    buildings, is the sun's azimuth turned by 180 degrees.  For a solar
    azimuth in [0,360) and a tolerance under 180 degrees, a building whose
    bearing from the terrace is the sun's azimuth itself is skipped: the
    result is the same without it, and it is never the culprit. *)
Theorem sunward_building_ignored (terrace : LatLon) (sun : SunAngles)
    (opts : Opts) (bs1 bs2 : list Building) (b : Building) :
  0 <= azimuthDeg sun < 360 ->
  azTolerance opts < 180 ->
  bearingDeg (lat terrace) (lon terrace) (lat (centroid b)) (lon (centroid b))
  = azimuthDeg sun ->
  azUpSun sun
  = (if Rlt_dec (azimuthDeg sun) 180
     then azimuthDeg sun + 180 else azimuthDeg sun - 180)
  /\ deltaTo terrace sun b = 180
  /\ isShadedByBuildings terrace sun (bs1 ++ b :: bs2) opts
     = isShadedByBuildings terrace sun (bs1 ++ bs2) opts
  /\ culprit (isShadedByBuildings terrace sun (bs1 ++ b :: bs2) opts)
     <> Some b.
Proof.
  intros Haz Htol Hb.
  assert (Hd : deltaTo terrace sun b = 180).
  { unfold deltaTo. rewrite Hb. now apply azUpSun_delta_180. }
  split; [now apply azUpSun_closed |]. split; [exact Hd |]. split.
  - apply isShaded_drop. right. lra.
  - intros Hc. apply culprit_passes in Hc.
    destruct Hc as (_ & [_ Ha] & _). lra.
Qed.

(** A 30 m building 55.566 m due south of the terrace, the sun due south
    on the horizon: the building stands between the terrace and the sun
    and is ignored. *)
Lemma sunward_building_ignored_witness :
  let b := {| id := 3; height_m := 30;
              centroid := {| lat := 48.8561; lon := 2.3522 |} |} in
  azUpSun sunSouthHorizon
  = (if Rlt_dec (azimuthDeg sunSouthHorizon) 180
     then azimuthDeg sunSouthHorizon + 180
     else azimuthDeg sunSouthHorizon - 180)
  /\ deltaTo paris sunSouthHorizon b = 180
  /\ isShadedByBuildings paris sunSouthHorizon ([] ++ b :: []) defaultOpts
     = isShadedByBuildings paris sunSouthHorizon ([] ++ []) defaultOpts
  /\ culprit (isShadedByBuildings paris sunSouthHorizon ([] ++ b :: [])
                defaultOpts)
     <> Some b.
Proof.
  apply sunward_building_ignored.
  - simpl. lra.
  - simpl. lra.
  - simpl. apply bearing_due_south. lra.
Defined.

Lemma confOf_le_1 (terrace : LatLon) (sun : SunAngles) (opts : Opts)
    (b : Building) :
  confOf terrace sun opts b <= 1.
Proof. unfold confOf. apply Rmin_l. Qed.

(** X5: the result of [isShadedByBuildings] is the initial value
    [{shaded: false, confidence: 0, culprit: undefined}], in particular
    for an empty list, or it has [shaded] true, a culprit taken from the
    list that passes both filters, and a confidence in (0,1]. *)
Theorem isShaded_result_shape (terrace : LatLon) (sun : SunAngles)
    (opts : Opts) (bs : list Building) :
  let r := isShadedByBuildings terrace sun bs opts in
  isShadedByBuildings terrace sun [] opts = noShade
  /\ (r = noShade
      \/ (shaded r = true
          /\ 0 < confidence r <= 1
          /\ exists c, culprit r = Some c /\ In c bs
                       /\ distTo terrace c <= maxDist opts
                       /\ deltaTo terrace sun c <= azTolerance opts
                       /\ elevOf terrace c >= altitudeDeg sun)).
Proof.
  intros r. split; [reflexivity |].
  destruct (isShaded_bestOf terrace sun opts bs)
    as ([Hr | (c & Hin & [Hd Ha] & He & Hpos & Hr)] & _).
  - now left.
  - right. unfold r. rewrite Hr. simpl.
    split; [reflexivity |]. split.
    + split; [lra | apply confOf_le_1].
    + exists c. repeat split; assumption.
Qed.

Lemma shadeStep_grows (terrace : LatLon) (sun : SunAngles) (opts : Opts)
    (best : Shade) (b : Building) :
  confidence best <= confidence (shadeStep terrace sun opts best b)
  /\ (shaded best = true ->
      shaded (shadeStep terrace sun opts best b) = true).
Proof.
  destruct (shadeStep_cases terrace sun opts best b)
    as [[-> _] | (-> & _ & _ & Hgt)]; simpl.
  - split; [lra | auto].
  - split; [lra | auto].
Qed.

Lemma fold_shadeStep_grows (terrace : LatLon) (sun : SunAngles) (opts : Opts)
    (bs : list Building) (best : Shade) :
  confidence best
  <= confidence (fold_left (shadeStep terrace sun opts) bs best)
  /\ (shaded best = true ->
      shaded (fold_left (shadeStep terrace sun opts) bs best) = true).
Proof.
  revert best. induction bs as [| b bs IH]; intros best; simpl.
  - split; [lra | auto].
  - destruct (shadeStep_grows terrace sun opts best b) as [H1 H2].
    destruct (IH (shadeStep terrace sun opts best b)) as [H3 H4].
    split; [lra | auto].
Qed.

(** X6: looking at more buildings never lowers the confidence and never
    turns a shaded result into an unshaded one: the result for
    [bs ++ more] has at least the confidence of the result for [bs], and is
    shaded when that one is. *)
Theorem isShaded_more_buildings (terrace : LatLon) (sun : SunAngles)
    (opts : Opts) (bs more : list Building) :
  confidence (isShadedByBuildings terrace sun bs opts)
  <= confidence (isShadedByBuildings terrace sun (bs ++ more) opts)
  /\ (shaded (isShadedByBuildings terrace sun bs opts) = true ->
      shaded (isShadedByBuildings terrace sun (bs ++ more) opts) = true).
Proof.
  unfold isShadedByBuildings. rewrite fold_left_app.
  apply fold_shadeStep_grows.
Qed.

(** X7: ties go to the first building.  A building that comes later in
    the list replaces the current culprit only when its confidence is
    strictly greater; so of two buildings with the same centroid and the
    same height, the second is never the culprit unless it is the very
    same record. *)
Theorem first_of_equals_wins (terrace : LatLon) (sun : SunAngles)
    (opts : Opts) (bs : list Building) (b1 b2 : Building) :
  (isShadedByBuildings terrace sun (bs ++ [b2]) opts
   = isShadedByBuildings terrace sun bs opts
   \/ (isShadedByBuildings terrace sun (bs ++ [b2]) opts
       = {| shaded := true;
            confidence :=
              Rmin 1 (((elevOf terrace b2 - altitudeDeg sun) / 10)
                      * (1 - deltaTo terrace sun b2 / azTolerance opts));
            culprit := Some b2 |}
       /\ confidence (isShadedByBuildings terrace sun bs opts)
          < Rmin 1 (((elevOf terrace b2 - altitudeDeg sun) / 10)
                    * (1 - deltaTo terrace sun b2 / azTolerance opts))))
  /\ (centroid b1 = centroid b2 -> height_m b1 = height_m b2 ->
      shaded (isShadedByBuildings terrace sun [b1; b2] opts) = true ->
      culprit (isShadedByBuildings terrace sun [b1; b2] opts) = Some b1).
Proof.
  split.
  - rewrite isShaded_snoc.
    destruct (shadeStep_cases terrace sun opts
                (isShadedByBuildings terrace sun bs opts) b2)
      as [[-> _] | (-> & _ & _ & Hgt)].
    + now left.
    + right. split; [reflexivity | exact Hgt].
  - intros Hc Hh.
    assert (Hconf : confOf terrace sun opts b2 = confOf terrace sun opts b1).
    { unfold confOf, elevOf, deltaTo, distTo. now rewrite Hc, Hh. }
    assert (Hpass : passes terrace sun opts b2 -> passes terrace sun opts b1).
    { unfold passes, deltaTo, distTo. now rewrite Hc. }
    assert (Helev : elevOf terrace b2 = elevOf terrace b1).
    { unfold elevOf, distTo. now rewrite Hc, Hh. }
    change (isShadedByBuildings terrace sun [b1; b2] opts)
      with (shadeStep terrace sun opts
              (shadeStep terrace sun opts noShade b1) b2).
    destruct (shadeStep_cases terrace sun opts noShade b1)
      as [[E1 Hle1] | (E1 & Hp1 & He1 & Hgt1)]; rewrite E1.
    + destruct (shadeStep_cases terrace sun opts noShade b2)
        as [[E2 _] | (_ & Hp2 & He2 & Hgt2)].
      * rewrite E2. simpl. discriminate.
      * exfalso. rewrite Helev in He2. specialize (Hle1 (Hpass Hp2) He2).
        rewrite Hconf in Hgt2. lra.
    + destruct (shadeStep_cases terrace sun opts
                  {| shaded := true;
                     confidence := confOf terrace sun opts b1;
                     culprit := Some b1 |} b2)
        as [[E2 _] | (_ & _ & _ & Hgt2)].
      * rewrite E2. reflexivity.
      * exfalso. simpl in Hgt2. rewrite Hconf in Hgt2. lra.
Qed.

Lemma first_of_equals_wins_witness :
  let b1 := northBuilding 12 in
  let b2 := {| id := 7; height_m := 12;
               centroid := {| lat := 48.8571; lon := 2.3522 |} |} in
  culprit (isShadedByBuildings paris sunSouthHorizon [b1; b2] defaultOpts)
  = Some b1.
Proof.
  intros b1 b2.
  destruct (first_of_equals_wins paris sunSouthHorizon defaultOpts [] b1 b2)
    as [_ H].
  apply H; [reflexivity | reflexivity |].
  change (isShadedByBuildings paris sunSouthHorizon [b1; b2] defaultOpts)
    with (fold_left (shadeStep paris sunSouthHorizon defaultOpts) [b2]
            (isShadedByBuildings paris sunSouthHorizon [b1] defaultOpts)).
  apply fold_shadeStep_grows. apply northBuilding_12_shades.
Defined.

(** ** The exposure scorer: bounds and monotonicity *)

Lemma roundClamp_mono (x y : R) : x <= y -> roundClamp x <= roundClamp y.
Proof.
  intros H. rewrite !roundClamp_spec. unfold Spec.round, Spec.clamp.
  apply Math_round_mono.
  unfold Rmax, Rmin.
  destruct (Rle_dec 100 x); destruct (Rle_dec 100 y);
    repeat match goal with
           | |- context [Rle_dec ?a ?b] => destruct (Rle_dec a b)
           end; lra.
Qed.

Lemma roundClamp_nonpos (x : R) : x <= 0 -> roundClamp x = 0.
Proof.
  intros H. apply Rle_antisym.
  - rewrite <- (roundClamp_IZR 0) by lia. now apply roundClamp_mono.
  - unfold roundClamp, JS.Math_max. apply Rmax_l.
Qed.

Lemma roundClamp_range (x : R) : 0 <= roundClamp x <= 100.
Proof.
  destruct (roundClamp_int x) as (n & [H0 H1] & ->).
  split; apply IZR_le; assumption.
Qed.

Lemma bands_range (diff alt : R) (streetWidth : string) :
  -35 <= bands diff alt streetWidth <= 65.
Proof.
  unfold bands.
  destruct (Rlt_dec diff 45); [| destruct (Rlt_dec diff 90)];
    (destruct (Rlt_dec alt 8); [| destruct (Rlt_dec alt 15)]);
    destruct (Rlt_dec alt 20);
    destruct (streetWidth =? "narrow")%string;
    destruct (streetWidth =? "medium")%string; lra.
Qed.

Lemma attenuation_range (cloudFraction : option R) :
  match cloudFraction with
  | Some c => 0 <= c <= 1
  | None => True
  end ->
  0.4 <= attenuation cloudFraction <= 1.
Proof.
  destruct cloudFraction as [c |]; simpl; intros H; lra.
Qed.

(** X8: for a cloud fraction that is absent or in [0,1], [sunScore] never
    exceeds 65, and under a fully overcast sky (cloud fraction 1) it never
    exceeds 26. *)
Theorem sunScore_at_most_65 (getPosition : Ephemeris)
    (lat lon orientationDeg : R) (streetWidth : string) (date : Date)
    (cloudFraction : option R) :
  match cloudFraction with
  | Some c => 0 <= c <= 1
  | None => True
  end ->
  0 <= sunScore getPosition lat lon orientationDeg streetWidth date
         cloudFraction <= 65
  /\ sunScore getPosition lat lon orientationDeg streetWidth date (Some 1)
     <= 26.
Proof.
  intros Hc. rewrite !sunScore_bands. cbv zeta.
  set (bd := bands _ _ _).
  assert (Hb : -35 <= bd <= 65) by apply bands_range.
  pose proof (attenuation_range cloudFraction Hc) as Ha.
  split; [split |].
  - apply roundClamp_range.
  - rewrite <- (roundClamp_IZR 65) by lia. apply roundClamp_mono. nra.
  - rewrite <- (roundClamp_IZR 26) by lia. apply roundClamp_mono.
    simpl attenuation. lra.
Qed.

Lemma sunScore_at_most_65_witness :
  0 <= sunScore (fixedSun 0 (PI / 4)) 48 2 180 "wide" 0%Z (Some 0.3) <= 65
  /\ sunScore (fixedSun 0 (PI / 4)) 48 2 180 "wide" 0%Z (Some 1) <= 26.
Proof.
  apply sunScore_at_most_65. lra.
Defined.

(** X9: clouds never raise the score.  A missing cloud fraction gives the
    score of a clear sky (cloud fraction 0), and for cloud fractions
    [c1 <= c2] in [0,1] the score with [c2] is at most the score with
    [c1]. *)
Theorem sunScore_clouds_monotone (getPosition : Ephemeris)
    (lat lon orientationDeg : R) (streetWidth : string) (date : Date)
    (c1 c2 : R) :
  0 <= c1 -> c1 <= c2 -> c2 <= 1 ->
  sunScore getPosition lat lon orientationDeg streetWidth date None
  = sunScore getPosition lat lon orientationDeg streetWidth date (Some 0)
  /\ sunScore getPosition lat lon orientationDeg streetWidth date (Some c2)
     <= sunScore getPosition lat lon orientationDeg streetWidth date (Some c1)
  /\ sunScore getPosition lat lon orientationDeg streetWidth date (Some c1)
     <= sunScore getPosition lat lon orientationDeg streetWidth date None.
Proof.
  intros H0 H12 H1. rewrite !sunScore_bands. cbv zeta.
  set (bd := bands _ _ _). simpl attenuation.
  split; [f_equal; lra |].
  destruct (Rle_dec 0 bd) as [Hb | Hb].
  - split; apply roundClamp_mono; nra.
  - rewrite (roundClamp_nonpos (bd * (1 - 0.6 * c2))) by nra.
    rewrite (roundClamp_nonpos (bd * (1 - 0.6 * c1))) by nra.
    rewrite (roundClamp_nonpos (bd * 1)) by nra. lra.
Qed.

Lemma sunScore_clouds_monotone_witness :
  sunScore (fixedSun 0 (PI / 4)) 48 2 180 "wide" 0%Z None
  = sunScore (fixedSun 0 (PI / 4)) 48 2 180 "wide" 0%Z (Some 0)
  /\ sunScore (fixedSun 0 (PI / 4)) 48 2 180 "wide" 0%Z (Some 0.8)
     <= sunScore (fixedSun 0 (PI / 4)) 48 2 180 "wide" 0%Z (Some 0.3)
  /\ sunScore (fixedSun 0 (PI / 4)) 48 2 180 "wide" 0%Z (Some 0.3)
     <= sunScore (fixedSun 0 (PI / 4)) 48 2 180 "wide" 0%Z None.
Proof.
  apply sunScore_clouds_monotone; lra.
Defined.

Lemma bands_street_order (diff alt : R) (streetWidth : string) :
  bands diff alt "narrow" <= bands diff alt "medium"
  /\ bands diff alt "medium" <= bands diff alt "wide"
  /\ bands diff alt "narrow" <= bands diff alt streetWidth
  /\ bands diff alt streetWidth <= bands diff alt "wide"
  /\ (~ alt < 20 -> bands diff alt streetWidth = bands diff alt "wide").
Proof.
  unfold bands. simpl.
  destruct (Rlt_dec diff 45); [| destruct (Rlt_dec diff 90)];
    (destruct (Rlt_dec alt 8); [| destruct (Rlt_dec alt 15)]);
    destruct (Rlt_dec alt 20);
    destruct (streetWidth =? "narrow")%string;
    destruct (streetWidth =? "medium")%string;
    repeat split; intros; lra.
Qed.

(** X10: the street width matters only under 20 degrees of solar
    altitude, and then only downwards: for a cloud fraction absent or in
    [0,1] the score of a narrow street is at most that of a medium one,
    which is at most that of a wide one, every street-width value scores
    between narrow and wide, and from 20 degrees of altitude on the score
    does not depend on the street width. *)
Theorem sunScore_street_width (getPosition : Ephemeris)
    (lat lon orientationDeg : R) (streetWidth : string) (date : Date)
    (cloudFraction : option R) :
  let score := fun sw =>
    sunScore getPosition lat lon orientationDeg sw date cloudFraction in
  match cloudFraction with
  | Some c => 0 <= c <= 1
  | None => True
  end ->
  score "narrow"%string <= score "medium"%string
  /\ score "medium"%string <= score "wide"%string
  /\ score "narrow"%string <= score streetWidth
  /\ score streetWidth <= score "wide"%string
  /\ (20 <= (altitude (getPosition date lat lon) * 180) / PI ->
      score streetWidth = score "wide"%string).
Proof.
  intros score Hc. unfold score. rewrite !sunScore_bands. cbv zeta.
  pose proof (attenuation_range cloudFraction Hc) as Ha.
  destruct (bands_street_order
              (sunScore_diff (sunScore_az (getPosition date lat lon))
                             orientationDeg)
              (sunScore_alt (getPosition date lat lon)) streetWidth)
    as (H1 & H2 & H3 & H4 & H5).
  repeat split; try (apply roundClamp_mono; nra).
  intros Halt. rewrite H5; [reflexivity |]. unfold sunScore_alt. lra.
Qed.

Lemma sunScore_street_width_witness :
  let score := fun sw =>
    sunScore (fixedSun 0 (PI / 4)) 48 2 180 sw 0%Z (Some 0.3) in
  score "narrow"%string <= score "medium"%string
  /\ score "medium"%string <= score "wide"%string
  /\ score "narrow"%string <= score "boulevard"%string
  /\ score "boulevard"%string <= score "wide"%string
  /\ (20 <= (altitude (fixedSun 0 (PI / 4) 0%Z 48 2) * 180) / PI ->
      score "boulevard"%string = score "wide"%string).
Proof.
  apply (sunScore_street_width (fixedSun 0 (PI / 4)) 48 2 180 "boulevard"
           0%Z (Some 0.3)).
  lra.
Defined.

(** ** The per-terrace score: effect of the shade *)


Lemma shaded_confidence_range (terrace : LatLon) (sun : SunAngles)
    (opts : Opts) (bs : list Building) :
  shaded (isShadedByBuildings terrace sun bs opts) = true ->
  0 < confidence (isShadedByBuildings terrace sun bs opts) <= 1.
Proof.
  intros Hs.
  destruct (isShaded_bestOf terrace sun opts bs)
    as ([Hr | (c & _ & _ & _ & Hpos & Hr)] & _).
  - rewrite Hr in Hs. discriminate.
  - rewrite Hr. simpl. split; [lra | apply confOf_le_1].
Qed.


(** X12: when a forecast is asked for, its first point is for offset 0
    and repeats the current score of the terrace; no forecast is attached
    otherwise. *)
Theorem forecast_starts_now (getPosition : Ephemeris)
    (buildings : list Building) (cloudFraction : option R) (now : Date)
    (p : Place) :
  option_map (@hd_error ForecastPoint)
    (item_forecast (nearbyItem getPosition buildings cloudFraction now true p))
  = Some (Some {| tmin := 0;
                  score :=
                    item_sunScore
                      (nearbyItem getPosition buildings cloudFraction now
                         true p) |})
  /\ item_sunScore (nearbyItem getPosition buildings cloudFraction now true p)
     = item_sunScore
         (nearbyItem getPosition buildings cloudFraction now false p).
Proof.
  split; [| reflexivity].
  unfold nearbyItem, forecastOffsets.
  cbn [item_forecast item_sunScore option_map map hd_error].
  replace (now + 0 * 60000)%Z with now by lia. reflexivity.
Qed.

(** ** [src/index.js]: clamping, radius and orientation *)

(** X13: for [min <= max], [clamp n min max] lies in [[min, max]], is [n]
    itself when [n] is in the interval, is [min] below it and [max] above
    it, and clamping twice changes nothing. *)
Theorem clamp_interval (n min max : R) :
  min <= max ->
  min <= Index.clamp n min max <= max
  /\ (min <= n <= max -> Index.clamp n min max = n)
  /\ (n <= min -> Index.clamp n min max = min)
  /\ (max <= n -> Index.clamp n min max = max)
  /\ Index.clamp (Index.clamp n min max) min max = Index.clamp n min max.
Proof.
  intros H.
  assert (Hc : forall x, min <= Index.clamp x min max <= max
                         /\ (min <= x <= max -> Index.clamp x min max = x)
                         /\ (x <= min -> Index.clamp x min max = min)
                         /\ (max <= x -> Index.clamp x min max = max)).
  { intros x. unfold Index.clamp, JS.Math_min, JS.Math_max, Rmax.
    destruct (Rle_dec min x); unfold Rmin;
      match goal with
      | |- context [Rle_dec ?a ?b] => destruct (Rle_dec a b)
      end; repeat split; intros; lra. }
  destruct (Hc n) as (H1 & H2 & H3 & H4).
  repeat split; try assumption; try apply H1.
  now apply Hc.
Qed.

Lemma clamp_interval_witness :
  0 <= Index.clamp 1.05 0 1 <= 1
  /\ (0 <= 1.05 <= 1 -> Index.clamp 1.05 0 1 = 1.05)
  /\ (1.05 <= 0 -> Index.clamp 1.05 0 1 = 0)
  /\ (1 <= 1.05 -> Index.clamp 1.05 0 1 = 1)
  /\ Index.clamp (Index.clamp 1.05 0 1) 0 1 = Index.clamp 1.05 0 1.
Proof. apply clamp_interval. lra. Defined.



Lemma compare_some (x y : F64.t) :
  x <> F64.NaN -> y <> F64.NaN -> exists c, F64.compare x y = Some c.
Proof.
  intros Hx Hy.
  destruct x as [a | a | | a m e], y as [b | b | | b m' e'];
    try (now contradiction Hx); try (now contradiction Hy);
    eexists; reflexivity.
Qed.

Lemma leb_antisym (x y : F64.t) :
  F64.leb x y = true -> F64.leb y x = true -> F64.eqb x y = true.
Proof.
  unfold F64.leb, F64.eqb. rewrite (compare_antisym x y).
  destruct (F64.compare x y) as [[| |] |]; cbn; congruence.
Qed.

Lemma leb_refl (x : F64.t) : x <> F64.NaN -> F64.leb x x = true.
Proof. intros Hx. unfold F64.leb. now rewrite compare_refl. Qed.

(** [Math.max] and [Math.min] of two numbers return one of them, the
    other being on the expected side. *)
Lemma Math_max_cases (x y : F64.t) :
  x <> F64.NaN -> y <> F64.NaN ->
  (F64.Math_max x y = x /\ F64.leb y x = true)
  \/ (F64.Math_max x y = y /\ F64.leb x y = true).
Proof.
  intros Hx Hy. destruct (compare_some x y Hx Hy) as [c Hc].
  unfold F64.Math_max, F64.leb. rewrite (compare_antisym x y), Hc.
  destruct c; cbn.
  - destruct x as [[|] | | |]; auto.
  - auto.
  - auto.
Qed.

Lemma Math_min_cases (x y : F64.t) :
  x <> F64.NaN -> y <> F64.NaN ->
  (F64.Math_min x y = x /\ F64.leb x y = true)
  \/ (F64.Math_min x y = y /\ F64.leb y x = true).
Proof.
  intros Hx Hy. destruct (compare_some x y Hx Hy) as [c Hc].
  unfold F64.Math_min, F64.leb. rewrite (compare_antisym x y), Hc.
  destruct c; cbn.
  - destruct x as [[|] | | |]; auto.
  - auto.
  - auto.
Qed.



(** X14: for every number the query can carry, the radius used by the
    handler is between 100 and 3000, is the requested radius when that
    is in this range, and the radius of the building query is between
    100 and 200; a radius that is not a number is not caught: [NaN] goes
    through both guards. *)
Theorem guardRadius_bounds (radius : F64.t) :
  radius <> F64.NaN ->
  F64.leb (F64.int 100) (Dbl.guardRadius radius) = true
  /\ F64.leb (Dbl.guardRadius radius) (F64.int 3000) = true
  /\ (F64.leb (F64.int 100) radius = true ->
      F64.leb radius (F64.int 3000) = true ->
      F64.eqb (Dbl.guardRadius radius) radius = true)
  /\ F64.leb (F64.int 100) (Dbl.buildingRadius (Dbl.guardRadius radius))
     = true
  /\ F64.leb (Dbl.buildingRadius (Dbl.guardRadius radius)) (F64.int 200)
     = true
  /\ Dbl.guardRadius F64.NaN = F64.NaN
  /\ Dbl.buildingRadius (Dbl.guardRadius F64.NaN) = F64.NaN.
Proof.
  intros Hr.
  assert (N100 : F64.int 100 <> F64.NaN) by discriminate.
  assert (N200 : F64.int 200 <> F64.NaN) by discriminate.
  assert (N3000 : F64.int 3000 <> F64.NaN) by discriminate.
  assert (Hg : Dbl.guardRadius radius <> F64.NaN
               /\ F64.leb (F64.int 100) (Dbl.guardRadius radius) = true
               /\ F64.leb (Dbl.guardRadius radius) (F64.int 3000) = true
               /\ (F64.leb (F64.int 100) radius = true ->
                   F64.leb radius (F64.int 3000) = true ->
                   F64.eqb (Dbl.guardRadius radius) radius = true)).
  { unfold Dbl.guardRadius.
    destruct (Math_max_cases radius (F64.int 100) Hr N100) as [[E L] | [E L]];
      rewrite E.
    - destruct (Math_min_cases radius (F64.int 3000) Hr N3000)
        as [[E' L'] | [E' L']]; rewrite E'.
      + repeat split; try assumption. intros _ _.
        unfold F64.eqb. now rewrite compare_refl.
      + repeat split; try assumption; try reflexivity.
        intros _ H. now apply leb_antisym.
    - replace (F64.Math_min (F64.int 100) (F64.int 3000)) with (F64.int 100)
        by reflexivity.
      repeat split; try assumption; try reflexivity.
      intros H _. now apply leb_antisym. }
  destruct Hg as (Ng & G1 & G2 & G3).
  split; [exact G1 |]. split; [exact G2 |]. split; [exact G3 |].
  split; [| split; [| split; reflexivity]].
  - unfold Dbl.buildingRadius.
    destruct (Math_min_cases _ (F64.int 200) Ng N200) as [[E L] | [E L]];
      rewrite E; [exact G1 | reflexivity].
  - unfold Dbl.buildingRadius.
    destruct (Math_min_cases _ (F64.int 200) Ng N200) as [[E L] | [E L]];
      rewrite E; [exact L | reflexivity].
Qed.

(** A query for 5000 metres is served with 3000, and its buildings with
    200. *)
Lemma guardRadius_bounds_witness :
  F64.int 5000 <> F64.NaN
  /\ Dbl.guardRadius (F64.int 5000) = F64.int 3000
  /\ F64.leb (Dbl.guardRadius (F64.int 5000)) (F64.int 3000) = true.
Proof.
  assert (H : F64.int 5000 <> F64.NaN) by discriminate.
  split; [exact H |]. split; [reflexivity |].
  apply (guardRadius_bounds (F64.int 5000) H).
Defined.

Lemma rem360_IZR (n : Z) :
  (0 <= n)%Z -> IZR n %% 360 = IZR (n mod 360).
Proof.
  intros Hn.
  pose proof (Z.div_mod n 360 ltac:(lia)) as Hdm.
  pose proof (Z.mod_pos_bound n 360 ltac:(lia)) as Hm.
  assert (Hx : IZR n = 360 * IZR (n / 360) + IZR (n mod 360)).
  { rewrite Hdm at 1. rewrite plus_IZR, mult_IZR. reflexivity. }
  assert (H0 : 0 <= IZR (n mod 360)) by (apply IZR_le; lia).
  assert (H1 : IZR (n mod 360) <= 359) by (apply IZR_le; lia).
  rewrite (rem360_window _ (n / 360)).
  - lra.
  - apply IZR_le in Hn. lra.
  - lra.
Qed.

(** X15: for an element whose identifier is between 0 and
    243437817695702 the product [id * 37] is below [2 ^ 53], so the
    code computes it exactly and the estimated orientation
    [(id * 37) % 360] is the integer [(id * 37) mod 360], a whole bearing
    between 0 and 359.  The bound is sharp: at 243437817695703 the
    product is rounded and the code returns 52 where [(id * 37) mod 360]
    is 51. *)
Theorem orientationOfId_bearing (id : Z) :
  (0 <= id <= 243437817695702)%Z ->
  Dbl.orientationOfId (F64.int id) = F64.int ((id * 37) mod 360)
  /\ Index.orientationOfId id = IZR ((id * 37) mod 360)
  /\ (0 <= (id * 37) mod 360 <= 359)%Z
  /\ Dbl.orientationOfId (F64.int 243437817695703) = F64.int 52
  /\ ((243437817695703 * 37) mod 360 = 51)%Z.
Proof.
  intros Hid.
  pose proof (Z.mod_pos_bound (id * 37) 360 ltac:(lia)) as Hm.
  split; [| split; [| split; [lia | split; vm_compute; reflexivity]]].
  - unfold Dbl.orientationOfId.
    rewrite mul_int
      by (change (2 ^ 53)%Z with 9007199254740992%Z; lia).
    apply rem_int; change (2 ^ 53)%Z with 9007199254740992%Z; lia.
  - unfold Index.orientationOfId.
    replace (IZR id * 37) with (IZR (id * 37)) by (rewrite mult_IZR; lra).
    apply rem360_IZR. lia.
Qed.

Lemma orientationOfId_bearing_witness :
  Dbl.orientationOfId (F64.int 1000) = F64.int 280
  /\ Index.orientationOfId 1000 = 280.
Proof.
  destruct (orientationOfId_bearing 1000 ltac:(lia)) as (H1 & H2 & _).
  split; [exact H1 | exact H2].
Defined.

(** ** [src/index.js]: terrace detection *)

(** X16: the terrace confidence is always in [0,1], and a place is
    reported with [hasOutdoor] exactly when one of the three strong tags
    is present: [outdoor_seating=yes], [terrace=yes] or
    [amenity=biergarten]; [seats:outside] and a covered seating alone do
    not reach the threshold.  A place with [hasOutdoor] has some
    evidence. *)
Theorem hasOutdoor_strong_tags (tags : Tags) :
  0 <= Index.terraceConf tags <= 1
  /\ Index.hasOutdoor tags
     = (tagIs tags "outdoor_seating" "yes"
        || tagIs tags "terrace" "yes"
        || tagIs tags "amenity" "biergarten")%bool
  /\ (Index.hasOutdoor tags = true -> snd (Index.terraceDetection tags) <> []).
Proof.
  unfold Index.hasOutdoor, Index.terraceConf, Index.terraceDetection,
    Index.clamp, JS.Math_min, JS.Math_max.
  destruct (tagIs tags "outdoor_seating" "yes");
    destruct (tags "seats:outside"%string);
    destruct (tagIs tags "terrace" "yes");
    destruct (tagIs tags "amenity" "biergarten");
    destruct (tagIs tags "outdoor_seating:covered" "yes");
    cbn [fst snd orb app];
    eval_minmax;
    match goal with
    | |- context [Rge_dec ?a ?b] => destruct (Rge_dec a b); try lra
    end;
    (split; [lra |]); (split; [reflexivity |]);
    first [ discriminate | intros _; discriminate ].
Qed.

(** ** [src/index.js]: the haversine distance *)

Lemma Index_toRad_minus (x y : R) :
  Index.toRad (x - y) = Index.toRad x - Index.toRad y.
Proof. unfold Index.toRad. field. Qed.

Lemma sin_half_sq (x : R) : sin (x / 2) ^ 2 = (1 - cos x) / 2.
Proof.
  replace x with (2 * (x / 2)) at 2 by field.
  rewrite cos_2a_sin. simpl. field.
Qed.

(** The quantity under the square root is [(1 - cos c) / 2] for the
    central angle [c] of the two points: it lies in [0,1]. *)
Lemma haversine_range (u v w : R) :
  0 <= sin ((v - u) / 2) ^ 2 + cos u * cos v * sin (w / 2) ^ 2 <= 1.
Proof.
  rewrite !sin_half_sq, cos_minus.
  pose proof (sin2_cos2 u) as Hu. pose proof (sin2_cos2 v) as Hv.
  unfold Rsqr in Hu, Hv.
  pose proof (COS_bound w) as [Hw1 Hw2].
  set (su := sin u) in *. set (cu := cos u) in *.
  set (sv := sin v) in *. set (cv := cos v) in *.
  set (cw := cos w) in *.
  clearbody su cu sv cv cw.
  pose proof (Rle_0_sqr (su - sv)) as S1.
  pose proof (Rle_0_sqr (su + sv)) as S2.
  pose proof (Rle_0_sqr (cu - cv)) as S3.
  pose proof (Rle_0_sqr (cu + cv)) as S4.
  unfold Rsqr in S1, S2, S3, S4.
  assert (A1 : 0 <= 1 - su * sv - cu * cv) by nra.
  assert (A2 : 0 <= 1 - su * sv + cu * cv) by nra.
  assert (A3 : 0 <= 1 + su * sv + cu * cv) by nra.
  assert (A4 : 0 <= 1 + su * sv - cu * cv) by nra.
  assert (B1 : 0 <= (1 + cw) * (1 - su * sv - cu * cv))
    by (apply Rmult_le_pos; lra).
  assert (B2 : 0 <= (1 - cw) * (1 - su * sv + cu * cv))
    by (apply Rmult_le_pos; lra).
  assert (B3 : 0 <= (1 + cw) * (1 + su * sv + cu * cv))
    by (apply Rmult_le_pos; lra).
  assert (B4 : 0 <= (1 - cw) * (1 + su * sv - cu * cv))
    by (apply Rmult_le_pos; lra).
  split; nra.
Qed.

Lemma asin_nonneg (x : R) : 0 <= x -> 0 <= asin x.
Proof.
  intros Hx. pose proof PI_RGT_0 as HPI. unfold asin.
  destruct (Rle_dec x (-1)); [lra |].
  destruct (Rle_dec 1 x); [lra |].
  assert (Hs : 0 < sqrt (1 - x²)).
  { apply sqrt_lt_R0. unfold Rsqr. nra. }
  destruct Hx as [Hx | <-].
  - left. rewrite <- atan_0. apply atan_increasing.
    now apply Rdiv_lt_0_compat.
  - replace (0 / sqrt (1 - 0²)) with 0 by (field; lra).
    rewrite atan_0. lra.
Qed.

Lemma sqrt_le_1' (a : R) : 0 <= a <= 1 -> 0 <= sqrt a <= 1.
Proof.
  intros [H0 H1]. split; [apply sqrt_pos |].
  rewrite <- sqrt_1. now apply sqrt_le_1_alt.
Qed.





(** ** Sorting, filtering and maps *)

Lemma insertBy_perm {A : Type} (cmp : A -> A -> R) (x : A) (l : list A) :
  Permutation (insertBy cmp x l) (x :: l).
Proof.
  induction l as [| y l IH]; simpl; [reflexivity |].
  destruct (Rlt_dec 0 (cmp x y)); [| reflexivity].
  rewrite IH. apply perm_swap.
Qed.

Lemma sortBy_perm {A : Type} (cmp : A -> A -> R) (l : list A) :
  Permutation (sortBy cmp l) l.
Proof.
  induction l as [| x l IH]; simpl; [reflexivity |].
  rewrite insertBy_perm. now apply perm_skip.
Qed.

Section SortedByKey.

Context {A : Type}.
Variable cmp : A -> A -> R.
Variable key : A -> R.
Hypothesis cmp_key : forall x y, cmp x y = key x - key y.

Lemma insertBy_hd (x y : A) (l : list A) :
  key y <= key x -> HdRel (fun a b => key a <= key b) y l ->
  HdRel (fun a b => key a <= key b) y (insertBy cmp x l).
Proof.
  intros Hyx Hl. destruct l as [| z l]; simpl.
  - now constructor.
  - destruct (Rlt_dec 0 (cmp x z)); constructor;
      [now inversion Hl | exact Hyx].
Qed.

Lemma insertBy_sorted (x : A) (l : list A) :
  Sorted (fun a b => key a <= key b) l ->
  Sorted (fun a b => key a <= key b) (insertBy cmp x l).
Proof.
  induction l as [| y l IH]; intros Hs; simpl.
  - repeat constructor.
  - inversion Hs as [| ? ? Hs' Hhd]; subst.
    destruct (Rlt_dec 0 (cmp x y)) as [Hgt | Hle].
    + constructor; [now apply IH |].
      apply insertBy_hd; [| exact Hhd]. rewrite cmp_key in Hgt. lra.
    + constructor; [exact Hs |]. constructor. rewrite cmp_key in Hle. lra.
Qed.

Lemma sortBy_sorted (l : list A) :
  StronglySorted (fun a b => key a <= key b) (sortBy cmp l).
Proof.
  apply Sorted_StronglySorted.
  - intros a b c Hab Hbc. lra.
  - induction l as [| x l IH]; simpl; [constructor |].
    now apply insertBy_sorted.
Qed.

End SortedByKey.

Lemma filterMap_In {A B : Type} (f : A -> option B) (l : list A) (y : B) :
  In y (filterMap f l) <-> exists x, In x l /\ f x = Some y.
Proof.
  induction l as [| x l IH]; simpl.
  - split; [intros [] | intros (x & [] & _)].
  - destruct (f x) as [y' |] eqn:Hx; simpl; rewrite ?IH; split.
    + intros [<- | (x' & Hin & Hf)]; [exists x; auto | exists x'; auto].
    + intros (x' & [<- | Hin] & Hf);
        [left; congruence | right; exists x'; auto].
    + intros (x' & Hin & Hf). exists x'. auto.
    + intros (x' & [<- | Hin] & Hf); [congruence | exists x'; auto].
Qed.

Lemma filterMap_length {A B : Type} (f : A -> option B) (l : list A) :
  (List.length (filterMap f l) <= List.length l)%nat.
Proof.
  induction l as [| x l IH]; simpl; [lia |].
  destruct (f x); simpl; lia.
Qed.

Lemma JSMap_get_set_same {V : Type} (m : JSMap.t V) (k : string) (v : V) :
  JSMap.get (JSMap.set m k v) k = Some v.
Proof.
  induction m as [| [k' v'] m IH]; simpl.
  - now rewrite String.eqb_refl.
  - destruct (k' =? k)%string eqn:E; simpl.
    + now rewrite String.eqb_refl.
    + now rewrite E.
Qed.

Lemma JSMap_get_set_other {V : Type} (m : JSMap.t V) (k k' : string) (v : V) :
  k <> k' -> JSMap.get (JSMap.set m k v) k' = JSMap.get m k'.
Proof.
  intros Hne. induction m as [| [k0 v0] m IH]; simpl.
  - apply String.eqb_neq in Hne. now rewrite Hne.
  - destruct (k0 =? k)%string eqn:E; simpl.
    + apply String.eqb_eq in E. subst k0.
      apply String.eqb_neq in Hne. now rewrite Hne.
    + destruct (k0 =? k')%string; [reflexivity | exact IH].
Qed.

Lemma JSMap_set_keys {V : Type} (m : JSMap.t V) (k : string) (v : V) :
  NoDup (map fst m) -> NoDup (map fst (JSMap.set m k v)).
Proof.
  induction m as [| [k' v'] m IH]; simpl; intros Hnd.
  - constructor; [intros [] | constructor].
  - inversion Hnd as [| ? ? Hnin Hnd']; subst.
    destruct (k' =? k)%string eqn:E; simpl.
    + apply String.eqb_eq in E. subst k'. now constructor.
    + constructor; [| now apply IH].
      intros Hin. apply Hnin. clear IH Hnd Hnd' Hnin.
      induction m as [| [k0 v0] m IHm]; simpl in *.
      * destruct Hin as [Hk | []]. apply String.eqb_neq in E. congruence.
      * destruct (k0 =? k)%string eqn:E0; simpl in Hin.
        -- apply String.eqb_eq in E0. subst k0.
           destruct Hin as [Hk | Hin]; [| now right].
           apply String.eqb_neq in E. congruence.
        -- destruct Hin as [Hk | Hin]; [now left | right; now apply IHm].
Qed.

(** ** [src/index.js]: the places and the ranking *)

Lemma StronglySorted_weaken {A : Type} (P Q : A -> A -> Prop) (l : list A) :
  (forall a b, P a b -> Q a b) -> StronglySorted P l -> StronglySorted Q l.
Proof.
  intros HPQ Hs. induction Hs as [| a l Hs IH Hall]; constructor.
  - exact IH.
  - eapply Forall_impl; [| exact Hall]. intros b. apply HPQ.
Qed.

(** X18: the response of the handler holds exactly one item per place
    found, ranked by decreasing score; with [demo=true] it is empty, and a
    rejected cloud or building request is replaced by the cloud fraction
    0.3 or by an empty building list. *)
Theorem nearbyResponse_ranked (getPosition : Ephemeris)
    (cloud : option (option R)) (useDemo : bool) (found : list NearbyPlace)
    (fetched : option (list Building)) (now : Date) (forecast : bool) :
  let cloudFraction :=
    match cloud with
    | Some c => c
    | None => Some 0.3
    end in
  let buildings :=
    match fetched with
    | Some bs => bs
    | None => []
    end in
  let response :=
    nearbyResponse getPosition cloud useDemo found fetched now forecast in
  Permutation response
    (map (fun p =>
            (p, nearbyItem getPosition buildings cloudFraction now forecast
                  (placeOf p)))
         (if useDemo then [] else found))
  /\ StronglySorted
       (fun a b => item_sunScore (snd b) <= item_sunScore (snd a)) response
  /\ Permutation (map fst response) (if useDemo then [] else found)
  /\ nearbyResponse getPosition cloud true found fetched now forecast = [].
Proof.
  intros cloudFraction buildings response.
  assert (Hp : Permutation response
                 (map (fun p =>
                         (p, nearbyItem getPosition buildings cloudFraction
                               now forecast (placeOf p)))
                      (if useDemo then [] else found))).
  { unfold response, nearbyResponse. apply sortBy_perm. }
  split; [exact Hp |]. split; [| split].
  - unfold response, nearbyResponse.
    apply StronglySorted_weaken
      with (P := fun a b => - item_sunScore (snd a) <= - item_sunScore (snd b)).
    + intros a b H. lra.
    + apply (sortBy_sorted _ (fun a => - item_sunScore (snd a))).
      intros x y. ring.
  - apply (Permutation_map fst) in Hp. rewrite Hp, map_map. simpl.
    now rewrite map_id.
  - reflexivity.
Qed.

Lemma calculateDistance_nonneg (lat1 lon1 lat2 lon2 : R) :
  0 <= Index.calculateDistance lat1 lon1 lat2 lon2.
Proof.
  unfold Index.calculateDistance. cbv zeta.
  assert (Ha : 0 <= sin (Index.toRad (lat2 - lat1) / 2) ^ 2
                    + cos (Index.toRad lat1) * cos (Index.toRad lat2)
                      * sin (Index.toRad (lon2 - lon1) / 2) ^ 2 <= 1).
  { rewrite Index_toRad_minus. apply haversine_range. }
  pose proof (sqrt_le_1' _ Ha) as Hs.
  pose proof (asin_nonneg _ (proj1 Hs)) as H0. nra.
Qed.

Lemma Math_round_nonneg_int (x : R) :
  0 <= x -> exists n : Z, (0 <= n)%Z /\ JS.Math_round x = IZR n.
Proof.
  intros Hx. destruct (Math_round_int x) as [k Hk]. exists k.
  split; [| exact Hk].
  pose proof (Math_round_mono 0 x Hx) as Hm.
  rewrite (Math_round_IZR 0), Hk in Hm. now apply le_IZR.
Qed.

Lemma orientationOfId_range (id : Z) :
  (0 <= id)%Z -> 0 <= Index.orientationOfId id < 360.
Proof.
  intros Hid. unfold Index.orientationOfId.
  replace (IZR id * 37) with (IZR (id * 37)) by (rewrite mult_IZR; lra).
  rewrite rem360_IZR by lia.
  pose proof (Z.mod_pos_bound (id * 37) 360 ltac:(lia)) as Hm.
  split; [apply IZR_le; lia | apply IZR_lt; lia].
Qed.

Lemma streetWidthOf_values (tags : Tags) :
  Index.streetWidthOf tags = "narrow"%string
  \/ Index.streetWidthOf tags = "medium"%string
  \/ Index.streetWidthOf tags = "wide"%string.
Proof.
  unfold Index.streetWidthOf.
  destruct (tagIs tags "amenity" "cafe"); [now left |].
  destruct (tagIs tags "amenity" "biergarten"); [now right; right |].
  now right; left.
Qed.

(** X19: the places built from an Overpass answer are in increasing order
    of [distance_m], and each comes from an element of the answer with
    both coordinates: it has the identifier of the element, a
    [distance_m] that is a non-negative integer, a street width among
    narrow, medium and wide, and, for a non-negative identifier, an
    orientation in [0,360).  An element without [center] whose [lat] or
    [lon] is missing or 0 gives no place. *)
Theorem placesOfElements_sorted (lat lon : R) (elements : list Element) :
  StronglySorted (fun a b => np_distance_m a <= np_distance_m b)
                 (placesOfElements lat lon elements)
  /\ (List.length (placesOfElements lat lon elements)
      <= List.length elements)%nat
  /\ (forall p, In p (placesOfElements lat lon elements) ->
      exists e, In e elements
        /\ placeLatOf e = Some (np_lat p) /\ placeLonOf e = Some (np_lon p)
        /\ np_id p = el_id e
        /\ (exists n : Z, (0 <= n)%Z /\ np_distance_m p = IZR n)
        /\ (np_streetWidth p = "narrow"%string
            \/ np_streetWidth p = "medium"%string
            \/ np_streetWidth p = "wide"%string)
        /\ ((0 <= el_id e)%Z -> 0 <= np_orientationDeg p < 360))
  /\ (forall e, el_center e = None ->
      el_lat e = None \/ el_lat e = Some 0
      \/ el_lon e = None \/ el_lon e = Some 0 ->
      placeOfElement lat lon e = None).
Proof.
  split; [| split; [| split]].
  - unfold placesOfElements. apply (sortBy_sorted _ np_distance_m).
    reflexivity.
  - unfold placesOfElements.
    rewrite (Permutation_length (sortBy_perm _ _)). apply filterMap_length.
  - intros p Hin. unfold placesOfElements in Hin.
    apply (Permutation_in _ (sortBy_perm _ _)) in Hin.
    apply filterMap_In in Hin. destruct Hin as (e & He & Hp).
    exists e. split; [exact He |].
    unfold placeOfElement in Hp.
    destruct (placeLatOf e) as [la |]; [| discriminate].
    destruct (placeLonOf e) as [lo |]; [| discriminate].
    injection Hp as <-. cbn.
    repeat split.
    + apply Math_round_nonneg_int. apply calculateDistance_nonneg.
    + apply streetWidthOf_values.
    + now apply orientationOfId_range.
    + now apply orientationOfId_range.
  - intros e Hc H. unfold placeOfElement, placeLatOf, placeLonOf.
    rewrite Hc. simpl.
    destruct H as [-> | [-> | [-> | ->]]]; simpl.
    + reflexivity.
    + destruct (Req_dec_T 0 0); [reflexivity | contradiction].
    + destruct (orNum (el_lat e) None); reflexivity.
    + destruct (Req_dec_T 0 0); [| contradiction].
      destruct (orNum (el_lat e) None); reflexivity.
Qed.

(** ** The caches *)

(** X20: [getNearbyBarsAndRestaurants] serves a cached entry only while
    it is younger than five minutes, and then without looking at the
    network.  After a call that Overpass answered, the cache holds the
    list returned, and a call within five minutes of the stored time
    returns the same list whatever the network does.  A rejected request
    returns the two fallback places and leaves the cache as it was. *)
Theorem getNearby_cache (cache : JSMap.t NearbyEntry) (cacheKey : string)
    (lat lon : R) (clock : nat -> Z) (elements : list Element) :
  let fresh :=
    match JSMap.get cache cacheKey with
    | Some cached => (clock 0%nat - ne_timestamp cached <? 300000)%Z
    | None => false
    end in
  let answered :=
    getNearbyBarsAndRestaurants cache cacheKey lat lon clock
      (Answered elements) in
  let rejected :=
    getNearbyBarsAndRestaurants cache cacheKey lat lon clock Rejected in
  (forall cached reply,
      JSMap.get cache cacheKey = Some cached -> fresh = true ->
      getNearbyBarsAndRestaurants cache cacheKey lat lon clock reply
      = (ne_data cached, cache))
  /\ (fresh = false -> fst answered = placesOfElements lat lon elements)
  /\ (exists entry,
        JSMap.get (snd answered) cacheKey = Some entry
        /\ ne_data entry = fst answered
        /\ forall clock' reply',
             (clock' 0%nat - ne_timestamp entry < 300000)%Z ->
             getNearbyBarsAndRestaurants (snd answered) cacheKey lat lon
               clock' reply'
             = (fst answered, snd answered))
  /\ (fresh = false ->
      snd rejected = cache
      /\ List.length (fst rejected) = 2%nat
      /\ map np_orientationDeg (fst rejected) = [180; 220]
      /\ map np_streetWidth (fst rejected)
         = ["medium"%string; "narrow"%string]).
Proof.
  intros fresh answered rejected.
  assert (Hhit : forall c entry clock' reply',
             JSMap.get c cacheKey = Some entry ->
             (clock' 0%nat - ne_timestamp entry < 300000)%Z ->
             getNearbyBarsAndRestaurants c cacheKey lat lon clock' reply'
             = (ne_data entry, c)).
  { intros c entry clock' reply' Hg Hlt.
    unfold getNearbyBarsAndRestaurants. rewrite Hg.
    apply Z.ltb_lt in Hlt. unfold CACHE_DURATION. simpl Z.mul.
    now rewrite Hlt. }
  assert (Hfetch : forall read,
             fst (fetchNearby cache cacheKey lat lon clock read
                    (Answered elements))
             = placesOfElements lat lon elements
             /\ JSMap.get
                  (snd (fetchNearby cache cacheKey lat lon clock read
                          (Answered elements))) cacheKey
                = Some {| ne_data := placesOfElements lat lon elements;
                          ne_timestamp := clock read |}).
  { intros read. unfold fetchNearby.
    destruct elements as [| e els]; simpl fst; simpl snd;
      rewrite JSMap_get_set_same; split; reflexivity. }
  split; [| split; [| split]].
  - intros cached reply Hg Hf. unfold fresh in Hf. rewrite Hg in Hf.
    apply Z.ltb_lt in Hf. now apply Hhit.
  - intros Hf. unfold answered, getNearbyBarsAndRestaurants.
    unfold fresh in Hf. unfold CACHE_DURATION. simpl Z.mul.
    destruct (JSMap.get cache cacheKey) as [cached |];
      [rewrite Hf |]; apply Hfetch.
  - unfold answered, getNearbyBarsAndRestaurants.
    unfold CACHE_DURATION. simpl Z.mul.
    destruct (JSMap.get cache cacheKey) as [cached |] eqn:Hg.
    + destruct (clock 0%nat - ne_timestamp cached <? 300000)%Z eqn:Hlt.
      * exists cached. simpl. split; [exact Hg |]. split; [reflexivity |].
        intros clock' reply' H. now apply Hhit.
      * destruct (Hfetch 1%nat) as [H1 H2].
        eexists. split; [exact H2 |]. split; [now rewrite H1 |].
        intros clock' reply' H. rewrite H1.
        now apply (Hhit _ _ clock' reply' H2).
    + destruct (Hfetch 0%nat) as [H1 H2].
      eexists. split; [exact H2 |]. split; [now rewrite H1 |].
      intros clock' reply' H. rewrite H1.
      now apply (Hhit _ _ clock' reply' H2).
  - intros Hf. unfold rejected, getNearbyBarsAndRestaurants.
    unfold fresh in Hf. unfold CACHE_DURATION. simpl Z.mul.
    destruct (JSMap.get cache cacheKey) as [cached |];
      [rewrite Hf |]; simpl; repeat split.
Qed.

Lemma getNearby_cache_witness :
  let e := {| el_id := 42; el_lat := Some 48.857; el_lon := Some 2.353;
              el_center := None; el_tags := None |} in
  let answered :=
    getNearbyBarsAndRestaurants [] "48.8566_2.3522_1500" 48.8566 2.3522
      (fun _ => 1000%Z) (Answered [e]) in
  fst answered = placesOfElements 48.8566 2.3522 [e]
  /\ getNearbyBarsAndRestaurants (snd answered) "48.8566_2.3522_1500"
       48.8566 2.3522 (fun _ => 200000%Z) Rejected
     = (fst answered, snd answered).
Proof.
  intros e answered.
  destruct (getNearby_cache [] "48.8566_2.3522_1500" 48.8566 2.3522
              (fun _ => 1000%Z) [e]) as (_ & H2 & (entry & Hg & Hd & H3) & _).
  split; [apply H2; reflexivity |].
  apply H3.
  unfold getNearbyBarsAndRestaurants, fetchNearby in Hg. simpl in Hg.
  injection Hg as <-. simpl. lia.
Defined.

Lemma JSMap_get_In {V : Type} (m : JSMap.t V) (k : string) (v : V) :
  JSMap.get m k = Some v -> In (k, v) m.
Proof.
  induction m as [| [k' v'] m IH]; simpl; [discriminate |].
  destruct (k' =? k)%string eqn:E.
  - apply String.eqb_eq in E. intros [= ->]. left. now subst.
  - intros H. right. now apply IH.
Qed.

Lemma JSMap_set_Forall {V : Type} (P : string * V -> Prop) (m : JSMap.t V)
    (k : string) (v : V) :
  Forall P m -> P (k, v) -> Forall P (JSMap.set m k v).
Proof.
  intros Hm Hv. induction m as [| [k' v'] m IH]; simpl.
  - now repeat constructor.
  - inversion Hm; subst.
    destruct (k' =? k)%string; constructor; auto.
Qed.

(** X21: [getBuildings] serves a cached entry only while it is younger
    than ten minutes.  Otherwise an answer of Overpass is turned into
    buildings, stored with the time of the call and served again to every
    call less than ten minutes later; a rejected request rejects the call
    and stores nothing.  Each building comes from an element that has a
    centre or both [lat] and [lon], the centre taking precedence, and
    carries the identifier of the element and the height read from its
    tags, 12 m when the element has no tags. *)
Theorem getBuildings_cache (finiteNumber : string -> option R)
    (cache : JSMap.t BuildingEntry) (k : string) (now : Z)
    (els : list Element) :
  let fresh :=
    match JSMap.get cache k with
    | Some c => (now - be_t c <? 600000)%Z
    | None => false
    end in
  let answered := getBuildings finiteNumber cache k now (Answered els) in
  (forall c reply,
      JSMap.get cache k = Some c -> fresh = true ->
      getBuildings finiteNumber cache k now reply = (Some (be_data c), cache))
  /\ (fresh = false ->
      fst answered = Some (filterMap (buildingOfElement finiteNumber) els)
      /\ JSMap.get (snd answered) k
         = Some {| be_data := filterMap (buildingOfElement finiteNumber) els;
                   be_t := now |}
      /\ (forall now' reply', (now' - now < 600000)%Z ->
          getBuildings finiteNumber (snd answered) k now' reply'
          = (fst answered, snd answered))
      /\ getBuildings finiteNumber cache k now Rejected = (None, cache))
  /\ (forall b, In b (filterMap (buildingOfElement finiteNumber) els) ->
      exists e, In e els
        /\ id b = el_id e
        /\ height_m b = heightFromTags finiteNumber (el_tags e)
        /\ (el_tags e = None -> height_m b = 12)
        /\ match el_center e with
           | Some c => centroid b = c
           | None =>
               el_lat e = Some (lat (centroid b))
               /\ el_lon e = Some (lon (centroid b))
           end).
Proof.
  intros fresh answered.
  split; [| split].
  - intros c reply Hg Hf. unfold fresh in Hf. rewrite Hg in Hf.
    unfold getBuildings. rewrite Hg. unfold TTL. simpl Z.mul.
    now rewrite Hf.
  - intros Hf.
    assert (Ha : answered
                 = (Some (filterMap (buildingOfElement finiteNumber) els),
                    JSMap.set cache k
                      {| be_data :=
                           filterMap (buildingOfElement finiteNumber) els;
                         be_t := now |})).
    { unfold answered, getBuildings. unfold fresh in Hf.
      unfold TTL. simpl Z.mul.
      destruct (JSMap.get cache k); [now rewrite Hf | reflexivity]. }
    rewrite Ha. simpl fst. simpl snd.
    split; [reflexivity |]. split; [apply JSMap_get_set_same |]. split.
    + intros now' reply' Hlt. unfold getBuildings.
      rewrite JSMap_get_set_same. simpl be_t. simpl be_data.
      apply Z.ltb_lt in Hlt. unfold TTL. simpl Z.mul. now rewrite Hlt.
    + unfold getBuildings. unfold fresh in Hf. unfold TTL. simpl Z.mul.
      destruct (JSMap.get cache k); [now rewrite Hf | reflexivity].
  - intros b Hin. apply filterMap_In in Hin. destruct Hin as (e & He & Hb).
    exists e. split; [exact He |].
    unfold buildingOfElement in Hb.
    destruct (el_center e) as [c |].
    + injection Hb as <-. simpl. repeat split.
      * intros ->. reflexivity.
      * now destruct c.
    + destruct (el_lat e) as [la |]; [| discriminate].
      destruct (el_lon e) as [lo |]; [| discriminate].
      injection Hb as <-. simpl. repeat split.
      intros ->. reflexivity.
Qed.

Lemma getBuildings_cache_witness :
  let e := {| el_id := 7; el_lat := None; el_lon := None;
              el_center := Some {| lat := 48.8571; lon := 2.3522 |};
              el_tags := None |} in
  let answered := getBuildings (fun _ => None) [] "k" 5000 (Answered [e]) in
  fst answered
  = Some [ {| id := 7; height_m := 12;
              centroid := {| lat := 48.8571; lon := 2.3522 |} |} ]
  /\ getBuildings (fun _ => None) (snd answered) "k" 600999 Rejected
     = (fst answered, snd answered)
  /\ getBuildings (fun _ => None) [] "k" 5000 Rejected = (None, []).
Proof.
  intros e answered.
  destruct (getBuildings_cache (fun _ => None) [] "k" 5000 [e])
    as (_ & H & _).
  destruct (H eq_refl) as (H1 & _ & H3 & H4).
  split; [exact H1 |]. split; [apply H3; lia | exact H4].
Defined.

(** X22: the cloud fraction is a number in [0,1] or undefined.  When the
    store only holds values in [0,1], [getCloudFraction] returns such a
    value or [undefined] and keeps the store so; a stored value is served
    without a request; a percentage read from the service is clamped,
    stored and served to the next call; [undefined] is never stored.  The
    cloud fraction the handler scores with, 0.3 after a rejection, is
    undefined or in [0,1]. *)
Theorem getCloudFraction_unit (cache : JSMap.t R) (key : string)
    (reply : Reply Weather) :
  Forall (fun e => 0 <= snd e <= 1) cache ->
  let r := getCloudFraction cache key reply in
  let used :=
    match fst r with
    | Some c => c
    | None => Some 0.3
    end in
  match used with
  | Some c => 0 <= c <= 1
  | None => True
  end
  /\ Forall (fun e => 0 <= snd e <= 1) (snd r)
  /\ (forall hit, JSMap.get cache key = Some hit ->
      r = (Some (Some hit), cache))
  /\ (forall cover, JSMap.get cache key = None ->
      reply = Answered (Body (Some cover)) ->
      fst r = Some (Some (Rmax 0 (Rmin 1 (cover / 100))))
      /\ forall reply',
           getCloudFraction (snd r) key reply'
           = (fst r, snd r))
  /\ (fst r = None \/ fst r = Some None -> snd r = cache).
Proof.
  intros Hinv r used.
  assert (Hclamp : forall x, 0 <= Rmax 0 (Rmin 1 x) <= 1).
  { intros x. unfold Rmax, Rmin.
    destruct (Rle_dec 1 x); destruct (Rle_dec 0 _); lra. }
  unfold used, r, getCloudFraction.
  destruct (JSMap.get cache key) as [hit |] eqn:Hg.
  - simpl. split; [| split; [exact Hinv | split; [| split]]].
    + apply JSMap_get_In in Hg.
      rewrite Forall_forall in Hinv. apply (Hinv _ Hg).
    + now intros ? [= ->].
    + discriminate.
    + intros [H | H]; discriminate.
  - destruct reply as [| [| [cover |]]]; simpl.
    + split; [lra |]. split; [exact Hinv |]. split; [discriminate |].
      split; [discriminate | reflexivity].
    + split; [exact I |]. split; [exact Hinv |]. split; [discriminate |].
      split; [discriminate | reflexivity].
    + split; [apply Hclamp |].
      split; [apply JSMap_set_Forall; [exact Hinv | apply Hclamp] |].
      split; [discriminate |]. split.
      * intros cover' _ [= <-]. split; [reflexivity |].
        intros reply'. unfold getCloudFraction.
        now rewrite JSMap_get_set_same.
      * intros [H | H]; discriminate.
    + split; [exact I |]. split; [exact Hinv |]. split; [discriminate |].
      split; [discriminate | reflexivity].
Qed.

Lemma getCloudFraction_unit_witness :
  let r := getCloudFraction [] "48.857:2.352:2024-06-01T12"
             (Answered (Body (Some 250))) in
  fst r = Some (Some 1)
  /\ getCloudFraction (snd r) "48.857:2.352:2024-06-01T12" Rejected
     = (Some (Some 1), snd r).
Proof.
  intros r.
  destruct (getCloudFraction_unit [] "48.857:2.352:2024-06-01T12"
              (Answered (Body (Some 250))) (Forall_nil _))
    as (_ & _ & _ & H & _).
  destruct (H 250 eq_refl eq_refl) as [H1 H2].
  assert (E : Rmax 0 (Rmin 1 (250 / 100)) = 1).
  { rewrite Rmin_left by lra. apply Rmax_right. lra. }
  rewrite E in H1. split; [exact H1 |].
  rewrite <- H1. apply H2.
Defined.

Lemma JSMap_get_delete_same {V : Type} (m : JSMap.t V) (k : string) :
  JSMap.get (JSMap.delete m k) k = None.
Proof.
  unfold JSMap.delete. induction m as [| [k' v'] m IH]; simpl; [reflexivity |].
  destruct (k' =? k)%string eqn:E; simpl; [exact IH |].
  now rewrite E.
Qed.

Lemma JSMap_get_delete_other {V : Type} (m : JSMap.t V) (k k' : string) :
  k <> k' -> JSMap.get (JSMap.delete m k) k' = JSMap.get m k'.
Proof.
  intros Hne. unfold JSMap.delete.
  induction m as [| [k0 v0] m IH]; simpl; [reflexivity |].
  destruct (k0 =? k)%string eqn:E; simpl.
  - apply String.eqb_eq in E. subst k0.
    apply String.eqb_neq in Hne. now rewrite Hne.
  - destruct (k0 =? k')%string; [reflexivity | exact IH].
Qed.

(** The loop of [cleanCache] over the entries [l], started from [m]. *)
Lemma cleanLoop_get (now : Z) (l m : JSMap.t NearbyEntry) (k : string) :
  JSMap.get
    (fold_left
       (fun m e =>
          if (CACHE_DURATION * 12 <? now - ne_timestamp (snd e))%Z
          then JSMap.delete m (fst e) else m) l m) k
  = if existsb
         (fun e => (fst e =? k)%string
                   && (CACHE_DURATION * 12 <? now - ne_timestamp (snd e))%Z) l
    then None else JSMap.get m k.
Proof.
  revert m. induction l as [| [k' e'] l IH]; intros m; [reflexivity |].
  cbn [fold_left existsb fst snd]. rewrite IH.
  destruct (CACHE_DURATION * 12 <? now - ne_timestamp e')%Z.
  - destruct (k' =? k)%string eqn:E; cbn [andb orb].
    + apply String.eqb_eq in E. subst k'.
      rewrite JSMap_get_delete_same. now destruct (existsb _ l).
    + rewrite JSMap_get_delete_other; [reflexivity |].
      now apply String.eqb_neq.
  - rewrite Bool.andb_false_r. reflexivity.
Qed.

Lemma JSMap_existsb_get {V : Type} (old : V -> bool) (m : JSMap.t V)
    (k : string) :
  NoDup (map fst m) ->
  existsb (fun e => (fst e =? k)%string && old (snd e)) m
  = match JSMap.get m k with
    | Some v => old v
    | None => false
    end.
Proof.
  induction m as [| [k' v'] m IH]; simpl; intros Hnd; [reflexivity |].
  inversion Hnd as [| ? ? Hnin Hnd']; subst.
  destruct (k' =? k)%string eqn:E; simpl.
  - apply String.eqb_eq in E. subst k'.
    destruct (old v'); [reflexivity |]. simpl.
    rewrite (IH Hnd').
    destruct (JSMap.get m k) as [v |] eqn:Hg; [| reflexivity].
    exfalso. apply Hnin. apply JSMap_get_In in Hg.
    now apply (in_map fst) in Hg.
  - now apply IH.
Qed.

(** X23: the hourly cleaning removes exactly the entries older than one
    hour (3600000 ms) and leaves the others as they are.  So an entry
    that [getNearbyBarsAndRestaurants] would still serve, younger than
    five minutes, is never removed, and the cached list of a key is
    returned after the cleaning as before it. *)
Theorem cleanCache_keeps_recent (now : Z) (cache : JSMap.t NearbyEntry)
    (k : string) :
  NoDup (map fst cache) ->
  JSMap.get (cleanCache now cache) k
  = match JSMap.get cache k with
    | Some e => if (3600000 <? now - ne_timestamp e)%Z then None else Some e
    | None => None
    end
  /\ (forall e lat lon clock reply,
        JSMap.get cache k = Some e ->
        clock 0%nat = now ->
        (now - ne_timestamp e < 300000)%Z ->
        fst (getNearbyBarsAndRestaurants (cleanCache now cache) k lat lon
               clock reply)
        = fst (getNearbyBarsAndRestaurants cache k lat lon clock reply)).
Proof.
  intros Hnd.
  assert (Hget : JSMap.get (cleanCache now cache) k
                 = match JSMap.get cache k with
                   | Some e =>
                       if (3600000 <? now - ne_timestamp e)%Z
                       then None else Some e
                   | None => None
                   end).
  { unfold cleanCache. rewrite cleanLoop_get.
    rewrite (JSMap_existsb_get
               (fun v => (CACHE_DURATION * 12 <? now - ne_timestamp v)%Z)
               cache k Hnd).
    unfold CACHE_DURATION. simpl Z.mul.
    destruct (JSMap.get cache k) as [e |]; [| reflexivity].
    now destruct (3600000 <? now - ne_timestamp e)%Z. }
  split; [exact Hget |].
  intros e lat lon clock reply Hg Hc Hlt.
  unfold getNearbyBarsAndRestaurants. rewrite Hget, Hg.
  assert (Hold : (3600000 <? now - ne_timestamp e)%Z = false)
    by (apply Z.ltb_ge; lia).
  rewrite Hold, Hc. unfold CACHE_DURATION. simpl Z.mul.
  apply Z.ltb_lt in Hlt. now rewrite Hlt.
Qed.

Lemma cleanCache_keeps_recent_witness :
  let old := {| ne_data := []; ne_timestamp := 0 |} in
  let recent := {| ne_data := demoPlaces 48 2 0 0; ne_timestamp := 3900000 |} in
  let cache := [("a"%string, old); ("b"%string, recent)] in
  JSMap.get (cleanCache 4000000 cache) "a" = None
  /\ JSMap.get (cleanCache 4000000 cache) "b" = Some recent.
Proof.
  intros old recent cache.
  assert (Hnd : NoDup (map fst cache)).
  { simpl. repeat constructor; simpl; intuition discriminate. }
  split.
  - destruct (cleanCache_keeps_recent 4000000 cache "a" Hnd) as [H _].
    exact H.
  - destruct (cleanCache_keeps_recent 4000000 cache "b" Hnd) as [H _].
    exact H.
Defined.

(** ** From the cloud service to the scores served *)

Lemma sunScore_upper (getPosition : Ephemeris) (lat lon orientationDeg : R)
    (streetWidth : string) (date : Date) (cloudFraction : option R) :
  match cloudFraction with
  | Some c => 0 <= c <= 1
  | None => True
  end ->
  0 <= sunScore getPosition lat lon orientationDeg streetWidth date
         cloudFraction <= 65.
Proof.
  intros Hc. rewrite sunScore_bands. cbv zeta.
  set (bd := bands _ _ _).
  assert (Hb : -35 <= bd <= 65) by apply bands_range.
  pose proof (attenuation_range cloudFraction Hc) as Ha.
  split; [apply roundClamp_range |].
  rewrite <- (roundClamp_IZR 65) by lia. apply roundClamp_mono. nra.
Qed.

Lemma shaded_score_upper (getPosition : Ephemeris) (p : Place)
    (buildings : list Building) (cloudFraction : option R) (t : Date) :
  match cloudFraction with
  | Some c => 0 <= c <= 1
  | None => True
  end ->
  exists n : Z,
    (0 <= n <= 65)%Z
    /\ JS.Math_max 0
         (JS.Math_min 100
            (JS.Math_round
               (sunScore getPosition (place_lat p) (place_lon p)
                  (place_orientationDeg p) (place_streetWidth p) t
                  cloudFraction
                * (if shaded
                        (isShadedByBuildings
                           {| lat := place_lat p; lon := place_lon p |}
                           (getSunAngles getPosition t (place_lat p)
                              (place_lon p))
                           buildings {| maxDist := 80; azTolerance := 25 |})
                   then 0.4 - 0.2 * JS.or0 (confidence
                        (isShadedByBuildings
                           {| lat := place_lat p; lon := place_lon p |}
                           (getSunAngles getPosition t (place_lat p)
                              (place_lon p))
                           buildings {| maxDist := 80; azTolerance := 25 |}))
                   else 1))))
       = IZR n.
Proof.
  intros Hc.
  set (raw := sunScore _ _ _ _ _ _ _).
  set (sh := isShadedByBuildings _ _ _ _).
  pose proof (sunScore_upper getPosition (place_lat p) (place_lon p)
                (place_orientationDeg p) (place_streetWidth p) t
                cloudFraction Hc) as Hraw.
  fold raw in Hraw.
  assert (Hf : 0 <= (if shaded sh
                     then 0.4 - 0.2 * JS.or0 (confidence sh) else 1) <= 1).
  { destruct (shaded sh) eqn:Hs; [| lra].
    pose proof (shaded_confidence_range _ _ _ _ Hs) as Hconf.
    fold sh in Hconf. rewrite or0_id. lra. }
  set (f := if shaded sh then _ else _) in *.
  fold (roundClamp (raw * f)).
  destruct (roundClamp_int (raw * f)) as (n & [Hn0 Hn1] & Hn).
  exists n. split; [| exact Hn]. split; [exact Hn0 |].
  apply le_IZR. rewrite <- Hn, <- (roundClamp_IZR 65) by lia.
  apply roundClamp_mono. nra.
Qed.

(** X24: with a store of cloud fractions in [0,1], every score of the
    response, the current one of each place and those of its forecast, is
    an integer between 0 and 65, whatever the weather service, the
    building service and the ephemeris answer. *)
Theorem served_scores_at_most_65 (getPosition : Ephemeris)
    (cache : JSMap.t R) (key : string) (reply : Reply Weather)
    (useDemo : bool) (found : list NearbyPlace)
    (fetched : option (list Building)) (now : Date) (forecast : bool) :
  Forall (fun e => 0 <= snd e <= 1) cache ->
  Forall
    (fun x =>
       (exists n : Z,
           (0 <= n <= 65)%Z /\ item_sunScore (snd x) = IZR n)
       /\ match item_forecast (snd x) with
          | Some pts =>
              Forall (fun pt =>
                        exists n : Z, (0 <= n <= 65)%Z /\ score pt = IZR n)
                     pts
          | None => True
          end)
    (nearbyResponse getPosition (fst (getCloudFraction cache key reply))
       useDemo found fetched now forecast).
Proof.
  intros Hinv.
  assert (Hc : match
                 match fst (getCloudFraction cache key reply) with
                 | Some c => c
                 | None => Some 0.3
                 end
               with
               | Some c => 0 <= c <= 1
               | None => True
               end).
  { unfold getCloudFraction.
    destruct (JSMap.get cache key) as [hit |] eqn:Hg; simpl.
    - apply JSMap_get_In in Hg. rewrite Forall_forall in Hinv.
      apply (Hinv _ Hg).
    - destruct reply as [| [| [cover |]]]; simpl; try lra; try exact I.
      unfold JS.Math_max, JS.Math_min, Rmax, Rmin.
      destruct (Rle_dec 1 (cover / 100)); destruct (Rle_dec 0 _); lra. }
  apply Forall_forall. intros x Hin.
  unfold nearbyResponse in Hin.
  apply (Permutation_in _ (sortBy_perm _ _)) in Hin.
  apply in_map_iff in Hin. destruct Hin as (p & <- & _).
  cbn [snd]. unfold nearbyItem. cbn [item_sunScore item_forecast].
  split.
  - now apply shaded_score_upper.
  - destruct forecast; [| exact I].
    apply Forall_forall. intros pt Hpt.
    apply in_map_iff in Hpt. destruct Hpt as (min & <- & _).
    cbn [score]. now apply shaded_score_upper.
Qed.

Lemma served_scores_at_most_65_witness :
  Forall
    (fun x =>
       (exists n : Z,
           (0 <= n <= 65)%Z /\ item_sunScore (snd x) = IZR n)
       /\ match item_forecast (snd x) with
          | Some pts =>
              Forall (fun pt =>
                        exists n : Z, (0 <= n <= 65)%Z /\ score pt = IZR n)
                     pts
          | None => True
          end)
    (nearbyResponse (fixedSun 0 (PI / 4))
       (fst (getCloudFraction [] "k" (Answered (Body (Some 30)))))
       false (demoPlaces 48.8566 2.3522 0 0) (Some [northBuilding 12])
       0%Z true).
Proof.
  apply served_scores_at_most_65. constructor.
Defined.

(** ** Instances *)



Lemma placesOfElements_sorted_witness :
  let e := {| el_id := 42; el_lat := Some 48.857; el_lon := Some 2.353;
              el_center := None; el_tags := None |} in
  let onEquator := {| el_id := 43; el_lat := Some 0; el_lon := Some 2.353;
                      el_center := None; el_tags := None |} in
  (exists p, In p (placesOfElements 48.8566 2.3522 [e; onEquator])
     /\ np_id p = 42%Z
     /\ np_streetWidth p = "medium"%string
     /\ 0 <= np_orientationDeg p < 360)
  /\ placeOfElement 48.8566 2.3522 onEquator = None.
Proof.
  intros e onEquator.
  destruct (placesOfElements_sorted 48.8566 2.3522 [e; onEquator])
    as (_ & _ & Hin & Hdrop).
  split; [| apply Hdrop; [reflexivity | right; left; reflexivity]].
  assert (Hp : exists p, placeOfElement 48.8566 2.3522 e = Some p
                         /\ np_streetWidth p = "medium"%string).
  { unfold placeOfElement, placeLatOf, placeLonOf, orNum. simpl.
    destruct (Req_dec_T 48.857 0) as [C | _]; [lra |].
    destruct (Req_dec_T 2.353 0) as [C | _]; [lra |].
    eexists. split; reflexivity. }
  destruct Hp as (p & Hp & Hw).
  exists p.
  assert (Hinp : In p (placesOfElements 48.8566 2.3522 [e; onEquator])).
  { unfold placesOfElements.
    apply (Permutation_in _ (Permutation_sym (sortBy_perm _ _))).
    apply filterMap_In. exists e. split; [now left | exact Hp]. }
  split; [exact Hinp |].
  destruct (Hin p Hinp) as (e' & _ & _ & _ & _ & _ & _ & _).
  unfold placeOfElement, placeLatOf, placeLonOf, orNum in Hp. simpl in Hp.
  destruct (Req_dec_T 48.857 0) as [C | _]; [lra |].
  destruct (Req_dec_T 2.353 0) as [C | _]; [lra |].
  injection Hp as <-. cbn.
  split; [reflexivity |]. split; [reflexivity |].
  apply orientationOfId_range. lia.
Defined.
